(** * Rhetmo speech-analysis pipeline: a shallow embedding

    The development follows [supabase-functions/clever-service.ts]: the
    rule-based punctuator, the pause/duration segmenter, the sentence
    splitter, the rule-based tagger, the metrics calculator, the three
    enrichment derivations with their join, and the assembly of speech
    and pause segments.

    Modelling conventions.
    - Millisecond offsets ([start_ms], [end_ms]) are integers ([Z]).
    - Every other JavaScript [number] that is finite is the rational
      ([Q]) its double stands for.  [calculateMetrics] computes in double
      precision: each division, product and sum is rounded to the nearest
      double ([Double.nearest]), and a decimal literal stands for its
      double.  The words per minute of [analyzeSegment] are only compared
      with 110, 160 and 200 and handed to the runtime for printing; they
      are read over the rationals.
    - A [Metrics] that [calculateMetrics] has computed holds finite
      numbers ([Metrics.t]); a [Metrics] a caller passes may hold any
      [number], NaN and the infinities included ([AnyMetrics.t]).
    - Strings are Rocq [string]s, i.e. sequences of 8-bit characters;
      [trim] and [toLowerCase] act on the ASCII range.
    - Array [push] is list append at the end; an indexed [for] loop over an
      array is a recursion over the list that also sees the next element
      where the source reads [tokens[i + 1]].
    - A function that can throw returns a [result]. *)

From Stdlib Require Import ZArith QArith Qround Qabs Qpower List String Ascii Bool Lia.
From Stdlib Require Import DecimalString Lqa Permutation Sorted.
Import ListNotations.

#[local] Set Warnings "-register-all".

Local Open Scope string_scope.
Local Open Scope list_scope.
Local Open Scope Z_scope.

(** ** Results of fallible code *)

Inductive result (A : Type) : Type :=
| Ok (a : A)
| Err (message : string).
Arguments Ok {A} a.
Arguments Err {A} message.

Definition bind {A B : Type} (r : result A) (k : A -> result B) : result B :=
  match r with
  | Ok a => k a
  | Err e => Err e
  end.

Notation "x <- r ;; k" := (bind r (fun x => k))
  (at level 61, r at next level, right associativity).

(** ** The JavaScript string and number primitives the pipeline uses *)

Module JS.

Definition chars (s : string) : list ascii := list_ascii_of_string s.
Definition str (l : list ascii) : string := string_of_list_ascii l.

(** White space of the ASCII range: space, and tab to carriage return. *)
Definition isWhitespace (c : ascii) : bool :=
  let n := nat_of_ascii c in
  Nat.eqb n 32 || (Nat.leb 9 n && Nat.leb n 13).

Fixpoint dropWhile {A : Type} (p : A -> bool) (l : list A) : list A :=
  match l with
  | [] => []
  | x :: r => if p x then dropWhile p r else l
  end.

(** [s.trim()] *)
Definition trim (s : string) : string :=
  str (rev (dropWhile isWhitespace (rev (dropWhile isWhitespace (chars s))))).

Definition lowerChar (c : ascii) : ascii :=
  let n := nat_of_ascii c in
  if Nat.leb 65 n && Nat.leb n 90 then ascii_of_nat (n + 32) else c.

(** [s.toLowerCase()] *)
Definition toLowerCase (s : string) : string := str (map lowerChar (chars s)).

Definition memChar (c : ascii) (set : list ascii) : bool :=
  existsb (Ascii.eqb c) set.

(** [/[set]$/.test(s)]: the last character of [s] is one of [set]. *)
Definition endsWithAny (set : list ascii) (s : string) : bool :=
  match rev (chars s) with
  | c :: _ => memChar c set
  | [] => false
  end.

(** [s.replace(/[set]/g, '')] *)
Definition removeAll (set : list ascii) (s : string) : string :=
  str (filter (fun c => negb (memChar c set)) (chars s)).

Fixpoint splitOn (sep : ascii) (cur : list ascii) (l : list ascii) : list string :=
  match l with
  | [] => [str (rev cur)]
  | c :: r =>
      if Ascii.eqb c sep then str (rev cur) :: splitOn sep [] r
      else splitOn sep (c :: cur) r
  end.

(** [s.split(' ')] for a one-character separator. *)
Definition split (sep : ascii) (s : string) : list string :=
  splitOn sep [] (chars s).

Fixpoint splitRuns (cur : list ascii) (inSeparator : bool) (l : list ascii)
  : list string :=
  match l with
  | [] => [str (rev cur)]
  | c :: r =>
      if isWhitespace c then
        if inSeparator then splitRuns cur true r
        else str (rev cur) :: splitRuns [] true r
      else splitRuns (c :: cur) false r
  end.

(** [s.split(/\s+/)]: a run of white space is one separator. *)
Definition splitWhitespace (s : string) : list string :=
  splitRuns [] false (chars s).

(** [l.join(sep)] *)
Definition join (sep : string) (l : list string) : string := String.concat sep l.

(** [l.pop()] read as an expression: the last element, if any. *)
Definition pop {A : Type} (l : list A) : option A :=
  match rev l with
  | x :: _ => Some x
  | [] => None
  end.

(** [l.map((x, idx) => f idx x)] *)
Fixpoint mapiFrom {A B : Type} (i : nat) (f : nat -> A -> B) (l : list A) : list B :=
  match l with
  | [] => []
  | x :: r => f i x :: mapiFrom (S i) f r
  end.

Definition mapi {A B : Type} (f : nat -> A -> B) (l : list A) : list B :=
  mapiFrom 0 f l.

(** [Math.round]: the nearest integer, a tie going up. *)
Definition Math_round (q : Q) : Z := Qfloor (q + (1 # 2)).

(** The number [parseFloat(q.toFixed(digits))] stands for: [q] rounded to
    [digits] decimals, a tie going away from zero. *)
Definition roundTo (digits : nat) (q : Q) : Q :=
  let scale := (10 ^ Z.of_nat digits)%Z in
  let magnitude := Qfloor (Qabs q * inject_Z scale + (1 # 2)) in
  let signed := if Qle_bool 0 q then magnitude else (- magnitude)%Z in
  Qmake signed (Z.to_pos scale).

Definition ltb (a b : Q) : bool := negb (Qle_bool b a).
Definition leb (a b : Q) : bool := Qle_bool a b.

End JS.

(** ** Double-precision arithmetic

    [nearest q] is the double nearest to the rational [q], a tie going to
    the even significand: 53 significant bits at the binade of [q].  The
    exponent range of doubles is not modelled: counts and millisecond
    offsets neither overflow nor underflow. *)

Module Double.

(** The exponent [e] with [2^e <= q < 2^(e+1)], for a positive [q]. *)
Definition binade (q : Q) : Z :=
  let e := Z.log2 (Qnum q) - Z.log2 (Zpos (Qden q)) in
  if Qle_bool (2 ^ e) q then e else e - 1.

Definition roundHalfEven (m : Q) : Z :=
  let f := Qfloor m in
  match Qcompare (m - inject_Z f) (1 # 2) with
  | Lt => f
  | Gt => f + 1
  | Eq => if Z.even f then f else f + 1
  end.

Definition nearestPositive (q : Q) : Q :=
  let ulp := (2 ^ (binade q - 52))%Q in
  (inject_Z (roundHalfEven (q / ulp)) * ulp)%Q.

Definition nearest (q : Q) : Q :=
  match Qnum q with
  | Z0 => 0%Q
  | Zpos _ => nearestPositive q
  | Zneg _ => (- nearestPositive (- q))%Q
  end.

(** [a / b], [a * b] and [a + b] on doubles. *)
Definition div (a b : Q) : Q := nearest (a / b).
Definition mul (a b : Q) : Q := nearest (a * b).
Definition add (a b : Q) : Q := nearest (a + b).

End Double.

(** ** Data model *)

Inductive Severity : Type := low | medium | high.

Module Token.
Record t : Type := mk {
  id : string;
  conversation_id : string;
  start_ms : Z;
  end_ms : Z;
  text : string;
  tags : list string;
  created_at : string
}.
End Token.

(** The pause records of the segmenter: [{ start, end, durationMs }]. *)
Module Pause.
Record t : Type := mk {
  start : Z;
  end_ : Z;
  durationMs : Z
}.
End Pause.

Inductive SegmentKind : Type := speech | pause.

(** [Tag.data] is an open dictionary in the source; these are the shapes
    the pipeline writes. *)
Inductive TagData : Type :=
| NoData
| Normalized (normalized : string)
| Range (start end_ : nat)
| Duration (durationMs : Z).

Module Tag.
Record t : Type := mk {
  id : string;
  kind : string;
  severity : Severity;
  label : string;
  data : TagData
}.
End Tag.

Module TokenWithTags.
Record t : Type := mk {
  id : string;
  startMs : Z;
  endMs : Z;
  text : string;
  tags : list Tag.t
}.
End TokenWithTags.

Module SegmentAnalysis.
Record t : Type := mk {
  id : string;
  startMs : Z;
  endMs : Z;
  kind : SegmentKind;
  text : string;
  tokens : list TokenWithTags.t;
  tags : list Tag.t
}.
End SegmentAnalysis.

(** An issue's fields come out of the model's reply, so they are strings
    as the runtime has them. *)
Module Issue.
Record t : Type := mk {
  id : string;
  kind : string;
  severity : string;
  message : string;
  segmentIds : list string;
  tokenIds : list string
}.
End Issue.

Module Metrics.
Record t : Type := mk {
  durationSec : Q;
  totalWords : Q;
  avgWpm : Q;
  fillerCount : Q;
  fillerPerMinute : Q;
  avgHeartRate : Q;
  peakHeartRate : Q;
  movementScore : Q;
  stressSpeedIndex : Q
}.
End Metrics.

(** A JavaScript [number] as a caller may pass it. *)
Inductive number : Type :=
| NaN
| PositiveInfinity
| NegativeInfinity
| Finite (q : Q).

(** The interface [Metrics] with any number in each field. *)
Module AnyMetrics.
Record t : Type := mk {
  durationSec : number;
  totalWords : number;
  avgWpm : number;
  fillerCount : number;
  fillerPerMinute : number;
  avgHeartRate : number;
  peakHeartRate : number;
  movementScore : number;
  stressSpeedIndex : number
}.
End AnyMetrics.

(** The metrics [calculateMetrics] has computed, passed on as an argument. *)
Definition computed (m : Metrics.t) : AnyMetrics.t :=
  AnyMetrics.mk
    (Finite (Metrics.durationSec m)) (Finite (Metrics.totalWords m))
    (Finite (Metrics.avgWpm m)) (Finite (Metrics.fillerCount m))
    (Finite (Metrics.fillerPerMinute m)) (Finite (Metrics.avgHeartRate m))
    (Finite (Metrics.peakHeartRate m)) (Finite (Metrics.movementScore m))
    (Finite (Metrics.stressSpeedIndex m)).

Coercion computed : Metrics.t >-> AnyMetrics.t.

(** [a < b] on numbers: false as soon as one side is NaN. *)
Definition lessThan (a b : number) : bool :=
  match a, b with
  | NaN, _ | _, NaN => false
  | Finite x, Finite y => JS.ltb x y
  | _, NegativeInfinity => false
  | NegativeInfinity, _ => true
  | PositiveInfinity, _ => false
  | Finite _, PositiveInfinity => true
  end.

(** [a <= b] on numbers. *)
Definition atMost (a b : number) : bool :=
  match a, b with
  | NaN, _ | _, NaN => false
  | Finite x, Finite y => JS.leb x y
  | NegativeInfinity, _ => true
  | _, PositiveInfinity => true
  | PositiveInfinity, _ => false
  | Finite _, NegativeInfinity => false
  end.

Module CoachingHighlight.
Record t : Type := mk {
  type : string;
  title : string;
  detail : string;
  severity : option string
}.
End CoachingHighlight.

(** [analysisTiming], the optional wall-clock record for debugging, is
    left out. *)
Module AnalysisResult.
Record t : Type := mk {
  title : string;
  segments : list SegmentAnalysis.t;
  metrics : Metrics.t;
  issues : list Issue.t;
  coachingHighlights : list CoachingHighlight.t
}.
End AnalysisResult.

(** ** Pass A: [splitIntoSegmentsDynamic] *)

Definition MAX_SEGMENT_DURATION_MS : Z := 25000.
Definition LONG_SEGMENT_THRESHOLD_MS : Z := 20000.
Definition BASE_PAUSE_THRESHOLD_MS : Z := 2000.
Definition REDUCED_PAUSE_THRESHOLD_MS : Z := 1000.

(** The variables the loop of [splitIntoSegmentsDynamic] updates. *)
Record SplitState : Type := {
  segments : list (list Token.t);
  pauses : list Pause.t;
  currentSegment : list Token.t;
  segmentStartMs : Z
}.

(** One iteration of the loop body, at [token = tokens[i]]; [next] is
    [tokens[i + 1]], absent exactly when [i = tokens.length - 1]. *)
Definition splitStep (token : Token.t) (next : option Token.t) (st : SplitState)
  : SplitState :=
  let currentDurationMs := Token.end_ms token - segmentStartMs st in
  let pauseThreshold :=
    if LONG_SEGMENT_THRESHOLD_MS <=? currentDurationMs
    then REDUCED_PAUSE_THRESHOLD_MS
    else BASE_PAUSE_THRESHOLD_MS in
  let wouldExceedMax := MAX_SEGMENT_DURATION_MS <=? currentDurationMs in
  let pauseInfo : option Pause.t :=
    match next with
    | Some following =>
        let gap := Token.start_ms following - Token.end_ms token in
        if pauseThreshold <=? gap
        then Some (Pause.mk (Token.end_ms token) (Token.start_ms following) gap)
        else None
    | None => None
    end in
  let hasSignificantPause :=
    match pauseInfo with Some _ => true | None => false end in
  let current := currentSegment st ++ [token] in
  let shouldSplit := hasSignificantPause || wouldExceedMax in
  match next with
  | Some following =>
      if shouldSplit && Nat.ltb 0 (List.length current) then
        {| segments := segments st ++ [current];
           pauses :=
             match pauseInfo with
             | Some p => pauses st ++ [p]
             | None =>
                 if wouldExceedMax then
                   pauses st ++
                     [Pause.mk (Token.end_ms token) (Token.start_ms following)
                        (Token.start_ms following - Token.end_ms token)]
                 else pauses st
             end;
           currentSegment := [];
           segmentStartMs := Token.start_ms following |}
      else
        {| segments := segments st; pauses := pauses st;
           currentSegment := current; segmentStartMs := segmentStartMs st |}
  | None =>
      {| segments := segments st; pauses := pauses st;
         currentSegment := current; segmentStartMs := segmentStartMs st |}
  end.

Fixpoint splitLoop (tokens : list Token.t) (st : SplitState) : SplitState :=
  match tokens with
  | [] => st
  | token :: rest => splitLoop rest (splitStep token (hd_error rest) st)
  end.

Definition splitIntoSegmentsDynamic (tokens : list Token.t)
  : list (list Token.t) * list Pause.t :=
  match tokens with
  | [] => ([], [])
  | first :: _ =>
      let st := splitLoop tokens
                  {| segments := []; pauses := []; currentSegment := [];
                     segmentStartMs := Token.start_ms first |} in
      (if Nat.ltb 0 (List.length (currentSegment st))
       then segments st ++ [currentSegment st]
       else segments st,
       pauses st)
  end.

Definition splitIntoSegments (tokens : list Token.t)
  : list (list Token.t) * list Pause.t :=
  splitIntoSegmentsDynamic tokens.

(** ** Pass A as the specification words it

    The active pause threshold, the condition under which a split is due
    after [token] when the running segment started at [segmentStart], and
    the pause recorded at a boundary. *)

Definition activeThreshold (runningDurationMs : Z) : Z :=
  if runningDurationMs <? 20000 then 2000 else 1000.

Definition SplitDue (segmentStart : Z) (token following : Token.t) : Prop :=
  activeThreshold (Token.end_ms token - segmentStart)
    <= Token.start_ms following - Token.end_ms token
  \/ 25000 <= Token.end_ms token - segmentStart.

Definition splitDueb (segmentStart : Z) (token following : Token.t) : bool :=
  (activeThreshold (Token.end_ms token - segmentStart)
     <=? Token.start_ms following - Token.end_ms token)
  || (25000 <=? Token.end_ms token - segmentStart).

Definition pauseBetween (token following : Token.t) : Pause.t :=
  Pause.mk (Token.end_ms token) (Token.start_ms following)
    (Token.start_ms following - Token.end_ms token).

(** The blocks and pauses the loop still produces from [tokens] when the
    running segment started at [segmentStart]; the first block continues
    the running segment. *)
Fixpoint blocksFrom (segmentStart : Z) (tokens : list Token.t)
  : list (list Token.t) * list Pause.t :=
  match tokens with
  | [] => ([], [])
  | token :: rest =>
      match rest with
      | [] => ([[token]], [])
      | following :: _ =>
          if splitDueb segmentStart token following then
            let (bs, ps) := blocksFrom (Token.start_ms following) rest in
            ([token] :: bs, pauseBetween token following :: ps)
          else
            match blocksFrom segmentStart rest with
            | (b :: bs, ps) => ((token :: b) :: bs, ps)
            | ([], ps) => ([[token]], ps)
            end
      end
  end.

(** What the function returns from a loop state. *)
Definition finish (st : SplitState) : list (list Token.t) * list Pause.t :=
  (if Nat.ltb 0 (List.length (currentSegment st))
   then segments st ++ [currentSegment st]
   else segments st,
   pauses st).

Definition attach (current : list Token.t) (blocks : list (list Token.t))
  : list (list Token.t) :=
  match blocks with
  | [] => if Nat.ltb 0 (List.length current) then [current] else []
  | b :: bs => (current ++ b) :: bs
  end.

(** No split is due between two adjacent tokens of [block]. *)
Fixpoint Unsplit (segmentStart : Z) (block : list Token.t) : Prop :=
  match block with
  | token :: ((following :: _) as rest) =>
      ~ SplitDue segmentStart token following /\ Unsplit segmentStart rest
  | _ => True
  end.

(** Blocks and pauses that fit together: inside a block no split is due,
    at each boundary one is, and the boundary carries its pause. *)
Fixpoint PassA (segmentStart : Z) (blocks : list (list Token.t))
  (pauses : list Pause.t) : Prop :=
  match blocks with
  | [] => pauses = []
  | b :: bs =>
      b <> [] /\ Unsplit segmentStart b /\
      match bs with
      | [] => pauses = []
      | b' :: _ =>
          match JS.pop b, hd_error b', pauses with
          | Some token, Some following, p :: ps =>
              SplitDue segmentStart token following /\
              p = pauseBetween token following /\
              PassA (Token.start_ms following) bs ps
          | _, _, _ => False
          end
      end
  end.

(** Thirty one-second tokens spoken without any silence in between. *)
Definition thirtySeconds : list Token.t :=
  map (fun k => Token.mk "" "" (1000 * Z.of_nat k) (1000 * Z.of_nat k + 1000) "w" [] "")
      (seq 0 30).

(** The start of the running segment is the start of the first block's
    first token. *)
Definition StartsAt (s : Z) (blocks : list (list Token.t)) : Prop :=
  forall b first, hd_error blocks = Some b -> hd_error b = Some first ->
    Token.start_ms first = s.

(** ** The punctuator: [addPunctuationToTokens] *)

Definition LONG_PAUSE_MS : Z := 800.
Definition SHORT_PAUSE_MS : Z := 300.

Definition questionWords : list string :=
  ["what"; "where"; "when"; "why"; "how"; "who"; "which"].

(** [set.has(s)] *)
Definition has (set : list string) (s : string) : bool :=
  existsb (String.eqb s) set.

(** The character class [[.,!?;:]]. *)
Definition punctuation : list ascii :=
  ["."; ","; "!"; "?"; ";"; ":"]%char.

Definition withText (token : Token.t) (text : string) : Token.t :=
  Token.mk (Token.id token) (Token.conversation_id token)
    (Token.start_ms token) (Token.end_ms token) text
    (Token.tags token) (Token.created_at token).

(** [lowerText.split(' ').pop() || ''] *)
Definition lastWord (lowerText : string) : string :=
  match JS.pop (JS.split " " lowerText) with
  | Some w => w
  | None => ""
  end.

(** The callback of [tokens.map] in [addPunctuationToTokens]. *)
Definition punctuateToken (tokens : list Token.t) (idx : nat) (token : Token.t)
  : Token.t :=
  let text := JS.trim (Token.text token) in
  if JS.endsWithAny punctuation text then token
  else
    withText token
      match nth_error tokens (S idx) with
      | Some following =>
          let gap := Token.start_ms following - Token.end_ms token in
          if LONG_PAUSE_MS <=? gap then
            if has questionWords (lastWord (JS.toLowerCase text))
            then (text ++ "?")%string
            else (text ++ ".")%string
          else if SHORT_PAUSE_MS <=? gap then (text ++ ",")%string
          else text
      | None => (text ++ ".")%string
      end.

Definition addPunctuationToTokens (tokens : list Token.t) : list Token.t :=
  if Nat.eqb (List.length tokens) 0 then tokens
  else JS.mapi (punctuateToken tokens) tokens.

(** ** Pass B: [splitBySentences] *)

(** [text.match(/[.!?]$/)] on a token's text. *)
Definition endsSentence (token : Token.t) : bool :=
  JS.endsWithAny ["."; "!"; "?"]%char (Token.text token).

(** The loop of [splitBySentences] over the tokens still to read. *)
Fixpoint sentenceLoop (maxSentencesPerSegment : nat) (tokens : list Token.t)
  (segments : list (list Token.t)) (currentSegment : list Token.t)
  (sentenceCount : nat) : list (list Token.t) * list Token.t :=
  match tokens with
  | [] => (segments, currentSegment)
  | token :: rest =>
      let current := currentSegment ++ [token] in
      if endsSentence token then
        if Nat.leb maxSentencesPerSegment (S sentenceCount)
        then sentenceLoop maxSentencesPerSegment rest (segments ++ [current]) [] 0
        else sentenceLoop maxSentencesPerSegment rest segments current
               (S sentenceCount)
      else sentenceLoop maxSentencesPerSegment rest segments current sentenceCount
  end.

Definition splitBySentences (tokens : list Token.t)
  (maxSentencesPerSegment : nat) : list (list Token.t) :=
  let (segments, currentSegment) :=
    sentenceLoop maxSentencesPerSegment tokens [] [] 0 in
  let segments :=
    if Nat.ltb 0 (List.length currentSegment)
    then segments ++ [currentSegment] else segments in
  if Nat.ltb 0 (List.length segments) then segments else [tokens].

(** The number of tokens of a list that end a sentence. *)
Definition sentences (tokens : list Token.t) : nat :=
  List.length (filter endsSentence tokens).

(** ** The runtime and the language-model collaborator

    [JSON.parse] and the conversion of a number to text belong to the
    JavaScript runtime; the pipeline is read over any instance of them.
    A parse that throws is [None]. *)

Inductive json : Type :=
| JNull
| JBool (b : bool)
| JNumber (q : Q)
| JString (s : string)
| JArray (items : list json)
| JObject (fields : list (string * json)).

Class Runtime : Type := {
  JSON_parse : string -> option json;
  Number_toString : Q -> string;
  Number_toFixed : Q -> nat -> string
}.

(** What one call of [callOpenAI] comes back with: the content of the
    model's message, or a thrown error (transport failure, a response
    without choices).  The prompt only shapes the collaborator's answer, so
    the answer is an input here. *)
Inductive Reply : Type :=
| Throws (message : string)
| Returns (content : string).

Record Replies : Type := {
  issuesReply : Reply;
  titleReply : Reply;
  highlightsReply : Reply
}.

(** The three results of [Math.random()] in [calculateMetrics], in the
    order of the calls; each is a double in [[0, 1)], held as the
    rational it stands for. *)
Record Draws : Type := {
  movementDraw : Q;
  avgHeartRateDraw : Q;
  peakHeartRateDraw : Q
}.

Definition num (n : nat) : Q := inject_Z (Z.of_nat n).

Definition truthy (j : json) : bool :=
  match j with
  | JNull => false
  | JBool b => b
  | JNumber q => negb (Qeq_bool q 0)
  | JString s => negb (String.eqb s "")
  | JArray _ | JObject _ => true
  end.

(** [String(j)], as a template literal converts an interpolated value. *)
Fixpoint toText `{Runtime} (j : json) : string :=
  match j with
  | JNull => "null"
  | JBool true => "true"
  | JBool false => "false"
  | JNumber q => Number_toString q
  | JString s => s
  | JArray items =>
      JS.join "," (map (fun x => match x with JNull => "" | _ => toText x end) items)
  | JObject _ => "[object Object]"
  end.

(** [j.key] on a parsed value other than [null]. *)
Definition field (j : json) (key : string) : option json :=
  match j with
  | JObject fields =>
      option_map snd (find (fun kv => String.eqb (fst kv) key) fields)
  | _ => None
  end.

(** [v || fallback] *)
Definition orElse (v : option json) (fallback : json) : json :=
  match v with
  | Some x => if truthy x then x else fallback
  | None => fallback
  end.

(** [s.match(/<open>[\s\S]*<close>/s)]: the span from the first [open] to
    the last [close] after it. *)
Definition greedySpan (open close : ascii) (s : string) : option string :=
  match JS.dropWhile (fun c => negb (Ascii.eqb c open)) (JS.chars s) with
  | [] => None
  | _ :: rest =>
      match JS.dropWhile (fun c => negb (Ascii.eqb c close)) (rev rest) with
      | [] => None
      | kept => Some (JS.str (open :: rev kept))
      end
  end.

(** [s.match(/\{[^{}]*\}/g)]: the brace pairs with no brace inside, left to
    right; [candidate] is the text since the last opening brace. *)
Fixpoint braceSpans (candidate : option (list ascii)) (l : list ascii)
  : list string :=
  match l with
  | [] => []
  | c :: r =>
      if Ascii.eqb c "{" then braceSpans (Some [c]) r
      else if Ascii.eqb c "}" then
        match candidate with
        | Some text => JS.str (text ++ [c]) :: braceSpans None r
        | None => braceSpans None r
        end
      else
        match candidate with
        | Some text => braceSpans (Some (text ++ [c])) r
        | None => braceSpans None r
        end
  end.

Definition objectMatches (s : string) : list string :=
  braceSpans None (JS.chars s).

(** ** The tagger: [analyzeSegment] *)

Definition FILLER_WORDS : list string :=
  ["um"; "uh"; "uhm"; "umm"; "er"; "ah"; "like"; "you know"; "so";
   "basically"; "actually"; "literally"; "right"; "okay"; "well"].

Definition HEDGING_STARTERS : list string :=
  ["sort of"; "kind of"; "i think"; "i guess"; "i mean";
   "maybe"; "perhaps"; "probably"; "might"; "could be"].

(** [token.text.toLowerCase().replace(/[.,!?;:]/g, '')] *)
Definition normalize (text : string) : string :=
  JS.removeAll punctuation (JS.toLowerCase text).

Record Filler : Type := { word : string; index : nat }.
Record Hedge : Type := { phrase : string; startIndex : nat; endIndex : nat }.

Definition fillerAt (idx : nat) (token : Token.t) : list Filler :=
  let w := normalize (Token.text token) in
  if has FILLER_WORDS w then [{| word := w; index := idx |}] else [].

Definition hedgeAt (segmentTokens : list Token.t) (idx : nat) (token : Token.t)
  : list Hedge :=
  match nth_error segmentTokens (S idx) with
  | Some following =>
      let twoWords :=
        (normalize (Token.text token) ++ " "
           ++ normalize (Token.text following))%string in
      match find (fun hedge => String.prefix hedge twoWords) HEDGING_STARTERS with
      | Some hedge =>
          [{| phrase := hedge; startIndex := idx;
              endIndex := idx + List.length (JS.split " " hedge) - 1 |}]
      | None => []
      end
  | None => []
  end.

Definition fillerTag (token : Token.t) (filler : Filler) : Tag.t :=
  Tag.mk (Token.id token ++ "-filler") "filler" medium
    ("Filler word: '" ++ word filler ++ "'") (Normalized (word filler)).

Definition hedgingTag (token : Token.t) (h : Hedge) : Tag.t :=
  Tag.mk (Token.id token ++ "-hedging") "hedging" medium
    ("Hedging phrase: '" ++ phrase h ++ "'")
    (Range (startIndex h) (endIndex h)).

(** The tags of the token at [idx]; [analysis.grammar] is empty in this
    rule-based tagger, so only hedging phrases are multi-word items. *)
Definition tokenTags (fillerWords : list Filler) (hedging : list Hedge)
  (idx : nat) (token : Token.t) : list Tag.t :=
  flat_map (fun filler =>
              if Nat.eqb (index filler) idx then [fillerTag token filler] else [])
           fillerWords
  ++ flat_map (fun h =>
                 if Nat.leb (startIndex h) idx && Nat.leb idx (endIndex h)
                 then [hedgingTag token h] else [])
              hedging.

Definition isFiller (tag : Tag.t) : bool := String.eqb (Tag.kind tag) "filler".

Definition fillersOf (token : TokenWithTags.t) : nat :=
  List.length (filter isFiller (TokenWithTags.tags token)).

(** [paceStatus] and [paceSeverity]. *)
Definition pace (wpm : Q) : string * Severity :=
  if JS.ltb wpm 110 then ("slow", medium)
  else if JS.ltb 200 wpm then ("very_fast", high)
  else if JS.ltb 160 wpm then ("fast", medium)
  else ("normal", low).

Definition paceAdvice (status : string) : string :=
  if String.eqb status "very_fast" then " - way too fast! Target 110-160"
  else if String.eqb status "fast" then " - slightly fast, target 110-160"
  else if String.eqb status "slow" then " - too slow, target 110-160"
  else "".

(** The segment-level tags.  The clarity, structure and good-element
    branches of the source test constants of the rule-based [analysis]
    object (['clear'], ['No specific issues detected'], an empty list) and
    never add a tag. *)
Definition segmentTags `{Runtime} (segmentId : string) (wpm : Q)
  (tokenWithTags : list TokenWithTags.t) (hedging : list Hedge) : list Tag.t :=
  let (status, paceSeverity) := pace wpm in
  let totalFillers :=
    fold_left (fun sum t => (sum + fillersOf t)%nat) tokenWithTags 0%nat in
  let hedgingCount := List.length hedging in
  (if String.eqb status "very_fast" || String.eqb status "fast"
      || String.eqb status "slow"
   then [Tag.mk (segmentId ++ "-pace") status paceSeverity
           ("Segment spoken at ~" ++ Number_toFixed wpm 0 ++ " WPM"
              ++ paceAdvice status) NoData]
   else [])
  ++ (if Nat.ltb 2 totalFillers
      then [Tag.mk (segmentId ++ "-filler") "filler"
              (if Nat.ltb 4 totalFillers then high else medium)
              ("Multiple filler words detected ("
                 ++ Number_toString (num totalFillers) ++ ")") NoData]
      else [])
  ++ (if Nat.ltb 1 hedgingCount
      then [Tag.mk (segmentId ++ "-hedging") "hedging"
              (if Nat.ltb 2 hedgingCount then high else medium)
              ("Multiple hedging phrases weaken your message ("
                 ++ Number_toString (num hedgingCount) ++ " instances)") NoData]
      else []).

(** Reading [segmentTokens[0]] of an empty array throws. *)
Definition analyzeSegment `{Runtime} (segmentTokens : list Token.t)
  (segmentIndex : nat) (conversationId : string) : result SegmentAnalysis.t :=
  match segmentTokens, JS.pop segmentTokens with
  | first :: _, Some final =>
      let text := JS.join " " (map Token.text segmentTokens) in
      let startMs := Token.start_ms first in
      let endMs := Token.end_ms final in
      let durationSec := (inject_Z (endMs - startMs) / 1000)%Q in
      let wpm :=
        if JS.ltb 0 durationSec
        then ((num (List.length segmentTokens) / durationSec) * 60)%Q
        else 0%Q in
      let fillerWords := List.concat (JS.mapi fillerAt segmentTokens) in
      let hedging := List.concat (JS.mapi (hedgeAt segmentTokens) segmentTokens) in
      let segmentId :=
        ("seg-" ++ conversationId ++ "-" ++ Number_toString (num segmentIndex))%string in
      let tokenWithTags :=
        JS.mapi (fun idx token =>
                   TokenWithTags.mk (Token.id token) (Token.start_ms token)
                     (Token.end_ms token) (Token.text token)
                     (tokenTags fillerWords hedging idx token))
                segmentTokens in
      Ok (SegmentAnalysis.mk segmentId startMs endMs speech text tokenWithTags
            (segmentTags segmentId wpm tokenWithTags hedging))
  | _, _ => Err "TypeError: Cannot read properties of undefined (reading 'start_ms')"
  end.

(** ** The metrics calculator: [calculateMetrics] *)

Definition totalWords (segments : list SegmentAnalysis.t) : nat :=
  fold_left (fun sum s => (sum + List.length (SegmentAnalysis.tokens s))%nat)
            segments 0%nat.

Definition totalDurationMs (segments : list SegmentAnalysis.t) : Z :=
  match segments, JS.pop segments with
  | first :: _, Some final =>
      SegmentAnalysis.endMs final - SegmentAnalysis.startMs first
  | _, _ => 0
  end.

Definition speakingDurationMs (segments : list SegmentAnalysis.t) : Z :=
  fold_left (fun sum s => sum + (SegmentAnalysis.endMs s - SegmentAnalysis.startMs s))
            segments 0.

(** The two nested [forEach] loops that add to [fillerCount]. *)
Definition countFillers (segments : list SegmentAnalysis.t) : nat :=
  fold_left
    (fun fillerCount s =>
       fold_left (fun fillerCount t => (fillerCount + fillersOf t)%nat)
                 (SegmentAnalysis.tokens s) fillerCount)
    segments 0%nat.

Definition fastSegments (segments : list SegmentAnalysis.t) : nat :=
  List.length
    (filter (fun s => existsb (fun t => String.eqb (Tag.kind t) "fast")
                              (SegmentAnalysis.tags s))
            segments).

(** The arithmetic is that of doubles.  [Math.round(durationSec)] is
    written over the quotient itself: for a span that is a safe integer
    the double nearest to the quotient rounds to the same integer
    ([duration_rounds_alike]).  [parseFloat(x.toFixed(d))] is held as the
    decimal it prints as, which stands for the double nearest to it. *)
Definition calculateMetrics (segments : list SegmentAnalysis.t)
  (pauses : list Pause.t) (draws : Draws) : Metrics.t :=
  let durationSec := Double.div (inject_Z (totalDurationMs segments)) 1000 in
  let avgWpm :=
    if 0 <? speakingDurationMs segments
    then Double.mul
           (Double.div (num (totalWords segments))
              (Double.div (inject_Z (speakingDurationMs segments)) 1000))
           60
    else 0%Q in
  let fillerCount := countFillers segments in
  let fillerPerMinute :=
    if JS.ltb 0 durationSec
    then Double.mul (Double.div (num fillerCount) durationSec) 60
    else 0%Q in
  let stressSpeedIndex :=
    if Nat.ltb 0 (List.length segments)
    then Double.div (num (fastSegments segments)) (num (List.length segments))
    else 0%Q in
  let movementScore :=
    Double.add (Double.nearest (35 # 100))
      (Double.mul (movementDraw draws) (Double.nearest (3 # 10))) in
  let avgHeartRate :=
    JS.Math_round (Double.add 75 (Double.mul (avgHeartRateDraw draws) 20)) in
  let peakHeartRate :=
    JS.Math_round (Double.add 120 (Double.mul (peakHeartRateDraw draws) 25)) in
  Metrics.mk
    (inject_Z (JS.Math_round (inject_Z (totalDurationMs segments) / 1000)))
    (num (totalWords segments))
    (inject_Z (JS.Math_round avgWpm))
    (num fillerCount)
    (JS.roundTo 1 fillerPerMinute)
    (inject_Z avgHeartRate)
    (inject_Z peakHeartRate)
    (JS.roundTo 2 movementScore)
    (JS.roundTo 2 stressSpeedIndex).

(** ** Enrichment: issues, highlights, title *)

(** The callback of [issuesData.map]: reading a property of [null] throws,
    and so does [.map] on a truthy [segmentIndices] that is no array.  A
    field the interface declares as a string holds whatever the reply put
    there; it is kept by its string conversion. *)
Definition decodeIssue `{Runtime} (conversationId : string) (idx : nat)
  (issue : json) : result Issue.t :=
  match issue with
  | JNull => Err "TypeError: Cannot read properties of null (reading 'kind')"
  | _ =>
      segmentIds <-
        match orElse (field issue "segmentIndices") (JArray []) with
        | JArray indices =>
            Ok (map (fun i => "seg-" ++ conversationId ++ "-" ++ toText i)%string
                    indices)
        | _ => Err "TypeError: (issue.segmentIndices || []).map is not a function"
        end ;;
      Ok (Issue.mk
            ("issue-" ++ conversationId ++ "-" ++ Number_toString (num idx))
            (toText (orElse (field issue "kind") (JString "general")))
            (toText (orElse (field issue "severity") (JString "medium")))
            (toText (orElse (field issue "message") (JString "Review this section")))
            segmentIds
            match orElse (field issue "tokenIds") (JArray []) with
            | JArray ids => map toText ids
            | other => [toText other]
            end)
  end.

Fixpoint decodeIssues `{Runtime} (conversationId : string) (idx : nat)
  (issuesData : list json) : result (list Issue.t) :=
  match issuesData with
  | [] => Ok []
  | issue :: rest =>
      i <- decodeIssue conversationId idx issue ;;
      r <- decodeIssues conversationId (S idx) rest ;;
      Ok (i :: r)
  end.

(** The [try] block of [generateOverallIssues]: what [issuesData] holds
    after it.  A parsed value that is no array has no [.map]. *)
Definition parseIssuesData `{Runtime} (response : string) : result (list json) :=
  match greedySpan "[" "]" response with
  | Some arrayText =>
      match JSON_parse arrayText with
      | Some (JArray items) => Ok items
      | Some _ => Err "TypeError: issuesData.map is not a function"
      | None => Ok []
      end
  | None =>
      Ok (filter truthy
            (map (fun obj => match JSON_parse obj with
                             | Some v => v
                             | None => JNull
                             end)
                 (objectMatches response)))
  end.

(** [callOpenAI] is awaited outside the [try] block: an error it throws
    rejects the promise of [generateOverallIssues]. *)
Definition generateOverallIssues `{Runtime} (segments : list SegmentAnalysis.t)
  (conversationId : string) (reply : Reply) : result (list Issue.t) :=
  match reply with
  | Throws message => Err message
  | Returns response =>
      issuesData <- parseIssuesData response ;;
      decodeIssues conversationId 0 issuesData
  end.

Definition severityOrder (severity : string) : option Z :=
  if String.eqb severity "high" then Some 0
  else if String.eqb severity "medium" then Some 1
  else if String.eqb severity "low" then Some 2
  else None.

(** The comparator of [issues.sort]; a difference with [undefined] is NaN,
    which [sort] reads as 0. *)
Definition compareIssues (a b : Issue.t) : Z :=
  match severityOrder (Issue.severity a), severityOrder (Issue.severity b) with
  | Some x, Some y => x - y
  | _, _ => 0
  end.

Fixpoint insertIssue (x : Issue.t) (sorted : list Issue.t) : list Issue.t :=
  match sorted with
  | [] => [x]
  | y :: r => if compareIssues y x <=? 0 then y :: insertIssue x r else x :: y :: r
  end.

(** [issues.sort(compare)], a stable sort. *)
Definition sortIssues (issues : list Issue.t) : list Issue.t :=
  fold_left (fun sorted x => insertIssue x sorted) issues [].

Fixpoint replaceFirstChar (from to : ascii) (l : list ascii) : list ascii :=
  match l with
  | [] => []
  | c :: r => if Ascii.eqb c from then to :: r else c :: replaceFirstChar from to r
  end.

Definition isImprovement (h : CoachingHighlight.t) : bool :=
  String.eqb (CoachingHighlight.type h) "improvement".

(** [String(n)] of a number, as a template literal converts it. *)
Definition numberText `{Runtime} (n : number) : string :=
  match n with
  | NaN => "NaN"
  | PositiveInfinity => "Infinity"
  | NegativeInfinity => "-Infinity"
  | Finite q => Number_toString q
  end.

(** The first [if] chain of [generateFallbackHighlights]: pace. *)
Definition paceFeedback `{Runtime} (metrics : AnyMetrics.t)
  : list CoachingHighlight.t :=
  let avgWpm := AnyMetrics.avgWpm metrics in
  if atMost (Finite 110) avgWpm && atMost avgWpm (Finite 160) then
    [CoachingHighlight.mk "strength" "Good speaking pace"
       ("Your average pace of " ++ numberText avgWpm
          ++ " WPM is in the ideal range for clear communication.")
       None]
  else if lessThan (Finite 160) avgWpm then
    [CoachingHighlight.mk "improvement" "Slow down your pace"
       ("At " ++ numberText avgWpm
          ++ " WPM, you're speaking faster than ideal (110-160 WPM). Try adding brief pauses between key points.")
       (Some (if lessThan (Finite 200) avgWpm then "high" else "medium"))]
  else if lessThan avgWpm (Finite 110) then
    [CoachingHighlight.mk "improvement" "Speed up your pace"
       ("At " ++ numberText avgWpm
          ++ " WPM, you're speaking slower than ideal (110-160 WPM). Try to maintain more energy and momentum.")
       (Some "low")]
  else [].

(** The second [if] chain: filler words. *)
Definition fillerFeedback `{Runtime} (metrics : AnyMetrics.t)
  : list CoachingHighlight.t :=
  let fillerPerMinute := AnyMetrics.fillerPerMinute metrics in
  if lessThan fillerPerMinute (Finite 2) then
    [CoachingHighlight.mk "strength" "Minimal filler words"
       "You kept filler words to a minimum, which makes your speech sound confident and polished."
       None]
  else if lessThan (Finite 3) fillerPerMinute then
    [CoachingHighlight.mk "improvement" "Reduce filler words"
       ("You used " ++ numberText (AnyMetrics.fillerCount metrics)
          ++ " filler words. Try replacing them with silent pauses for more impact.")
       (Some (if lessThan (Finite 5) fillerPerMinute then "high" else "medium"))]
  else [].

Definition generateFallbackHighlights `{Runtime} (metrics : AnyMetrics.t)
  (issues : list Issue.t) : list CoachingHighlight.t :=
  let highlights := paceFeedback metrics ++ fillerFeedback metrics in
  if Nat.eqb (List.length (filter isImprovement highlights)) 0
     && Nat.ltb 0 (List.length issues)
  then
    match sortIssues issues with
    | topIssue :: _ =>
        highlights ++
        [CoachingHighlight.mk "improvement"
           (JS.str (replaceFirstChar "_" " " (JS.chars (Issue.kind topIssue))))
           (Issue.message topIssue)
           (Some (Issue.severity topIssue))]
    | [] => highlights
    end
  else highlights.

(** [JSON.parse(jsonMatch ? jsonMatch[0] : response)] with
    [jsonMatch = response.match(/\{[\s\S]*\}/s)]. *)
Definition parseObject `{Runtime} (response : string) : option json :=
  JSON_parse match greedySpan "{" "}" response with
             | Some jsonMatch => jsonMatch
             | None => response
             end.

(** The callback of [parsed.highlights.map]. *)
Definition decodeHighlight `{Runtime} (h : json) : option CoachingHighlight.t :=
  match h with
  | JNull => None
  | _ =>
      Some (CoachingHighlight.mk
              (toText (orElse (field h "type") (JString "improvement")))
              (toText (orElse (field h "title") (JString "General feedback")))
              (toText (orElse (field h "detail") (JString "")))
              match field h "severity" with
              | None | Some JNull => None
              | Some v => Some (toText v)
              end)
  end.

Fixpoint decodeHighlights `{Runtime} (hs : list json)
  : option (list CoachingHighlight.t) :=
  match hs with
  | [] => Some []
  | h :: rest =>
      match decodeHighlight h, decodeHighlights rest with
      | Some x, Some r => Some (x :: r)
      | _, _ => None
      end
  end.

(** Every failure inside [generateCoachingHighlights] (the call, the parse,
    a missing list, a [null] entry) ends in the local fallback. *)
Definition generateCoachingHighlights `{Runtime}
  (segments : list SegmentAnalysis.t) (metrics : AnyMetrics.t)
  (issues : list Issue.t) (conversationId : string) (reply : Reply)
  : list CoachingHighlight.t :=
  match reply with
  | Throws _ => generateFallbackHighlights metrics issues
  | Returns response =>
      match parseObject response with
      | None | Some JNull => generateFallbackHighlights metrics issues
      | Some parsed =>
          match field parsed "highlights" with
          | Some (JArray hs) =>
              match decodeHighlights hs with
              | Some highlights => highlights
              | None => generateFallbackHighlights metrics issues
              end
          | _ => generateFallbackHighlights metrics issues
          end
      end
  end.

Definition isLetter (c : ascii) : bool :=
  let n := nat_of_ascii c in
  (Nat.leb 65 n && Nat.leb n 90) || (Nat.leb 97 n && Nat.leb n 122).

Definition upperChar (c : ascii) : ascii :=
  let n := nat_of_ascii c in
  if Nat.leb 97 n && Nat.leb n 122 then ascii_of_nat (n - 32) else c.

(** [w.charAt(0).toUpperCase() + w.slice(1).toLowerCase()] *)
Definition capitalize (w : string) : string :=
  match JS.chars w with
  | [] => ""
  | c :: r => JS.str (upperChar c :: map JS.lowerChar r)
  end.

Definition generateFallbackTitle (text : string) : string :=
  let words :=
    firstn 4
      (filter (fun w => Nat.ltb 3 (String.length w))
         (JS.splitWhitespace
            (JS.str (filter (fun c => isLetter c || JS.isWhitespace c)
                            (JS.chars text))))) in
  if Nat.leb 2 (List.length words)
  then (JS.join " " (map capitalize (firstn 3 words)) ++ "...")%string
  else "Untitled Session".

Definition isQuote (c : ascii) : bool :=
  Ascii.eqb c (ascii_of_nat 34) || Ascii.eqb c "'".

(** [title.replace(/^["']|["']$/g, '')]: one quote off each end. *)
Definition stripQuotes (title : string) : string :=
  let front :=
    match JS.chars title with
    | c :: r => if isQuote c then r else c :: r
    | [] => []
    end in
  JS.str match rev front with
         | c :: r => if isQuote c then rev r else front
         | [] => []
         end.

Definition generateSessionTitle `{Runtime} (segments : list SegmentAnalysis.t)
  (metrics : AnyMetrics.t) (reply : Reply) : string :=
  let allText := JS.join " " (map SegmentAnalysis.text segments) in
  let truncatedText := JS.join " " (firstn 100 (JS.splitWhitespace allText)) in
  if Nat.ltb (String.length truncatedText) 20 then "Untitled Session"
  else
    match reply with
    | Throws _ => generateFallbackTitle truncatedText
    | Returns response =>
        match parseObject response with
        | None | Some JNull => generateFallbackTitle truncatedText
        | Some parsed =>
            match field parsed "title" with
            | Some (JString t) =>
                if Nat.ltb 0 (String.length t) then
                  let title := JS.trim (stripQuotes t) in
                  if Nat.ltb 50 (String.length title)
                  then (String.substring 0 47 title ++ "...")%string
                  else title
                else generateFallbackTitle truncatedText
            | _ => generateFallbackTitle truncatedText
            end
        end
    end.

(** The join of the three derivations ([Promise.all]): it rejects as soon
    as one of them does, and only [generateOverallIssues] can. *)
Definition enrich `{Runtime} (speechSegments : list SegmentAnalysis.t)
  (metrics : Metrics.t) (conversationId : string) (replies : Replies)
  : result (list Issue.t * string * list CoachingHighlight.t) :=
  issues <- generateOverallIssues speechSegments conversationId
              (issuesReply replies) ;;
  Ok (issues,
      generateSessionTitle speechSegments metrics (titleReply replies),
      generateCoachingHighlights speechSegments metrics [] conversationId
        (highlightsReply replies)).

(** ** Assembly: the handler's steps 0 to 3 and the whole run *)

Fixpoint analyzeFrom `{Runtime} (globalIdx : nat) (conversationId : string)
  (segmentsToAnalyze : list (list Token.t)) : result (list SegmentAnalysis.t) :=
  match segmentsToAnalyze with
  | [] => Ok []
  | tokens :: rest =>
      s <- analyzeSegment tokens globalIdx conversationId ;;
      r <- analyzeFrom (S globalIdx) conversationId rest ;;
      Ok (s :: r)
  end.

(** The pause segment pushed after block [blockIdx]. *)
Definition pauseSegment `{Runtime} (conversationId : string) (blockIdx : nat)
  (p : Pause.t) : SegmentAnalysis.t :=
  let severity := if 4000 <? Pause.durationMs p then medium else low in
  let pauseId :=
    ("pause-" ++ conversationId ++ "-" ++ Number_toString (num blockIdx))%string in
  SegmentAnalysis.mk pauseId (Pause.start p) (Pause.end_ p) pause "" []
    [Tag.mk (pauseId ++ "-tag") "pause" severity
       ("Pause: " ++ Number_toFixed (inject_Z (Pause.durationMs p) / 1000)%Q 1 ++ "s")
       (Duration (Pause.durationMs p))].

(** The reconstruction loop: per block, its analysed segments (the next
    [contentSegments.length] entries of [analyzedSegments]), then the pause
    of that index if there is one. *)
Fixpoint interleave `{Runtime} (conversationId : string) (blockIdx : nat)
  (contentSegmentsPerBlock : list (list (list Token.t)))
  (analyzedSegments : list SegmentAnalysis.t) (pauses : list Pause.t)
  : list SegmentAnalysis.t :=
  match contentSegmentsPerBlock with
  | [] => []
  | contentSegments :: rest =>
      firstn (List.length contentSegments) analyzedSegments
      ++ (match nth_error pauses blockIdx with
          | Some p => [pauseSegment conversationId blockIdx p]
          | None => []
          end)
      ++ interleave conversationId (S blockIdx) rest
           (skipn (List.length contentSegments) analyzedSegments) pauses
  end.

(** Punctuation, both segmentation passes, tagging and interleaving:
    [allSegments], [speechSegments] and [pauses] of the handler. *)
Definition buildSegments `{Runtime} (conversationId : string)
  (tokens : list Token.t)
  : result (list SegmentAnalysis.t * list SegmentAnalysis.t * list Pause.t) :=
  let punctuatedTokens := addPunctuationToTokens tokens in
  let (pauseBlocks, pauses) := splitIntoSegments punctuatedTokens in
  let contentSegmentsPerBlock :=
    map (fun blockTokens => splitBySentences blockTokens 4) pauseBlocks in
  analyzedSegments <-
    analyzeFrom 0 conversationId (List.concat contentSegmentsPerBlock) ;;
  Ok (interleave conversationId 0 contentSegmentsPerBlock analyzedSegments pauses,
      analyzedSegments, pauses).

(** The handler from the fetched tokens to the [AnalysisResult] it uploads. *)
Definition analyze `{Runtime} (conversationId : string) (draws : Draws)
  (replies : Replies) (tokens : list Token.t) : result AnalysisResult.t :=
  if Nat.eqb (List.length tokens) 0 then Err "No tokens found for conversation"
  else
    built <- buildSegments conversationId tokens ;;
    let '(allSegments, speechSegments, pauses) := built in
    let metrics := calculateMetrics speechSegments pauses draws in
    enriched <- enrich speechSegments metrics conversationId replies ;;
    let '(issues, title, coachingHighlights) := enriched in
    Ok (AnalysisResult.mk title allSegments metrics issues coachingHighlights).

(** ** Readings and sample inputs used in the statements *)

(** A segment the sentence splitter closed: it holds [m] sentence ends and
    its last token is one of them. *)
Definition Closed (m : nat) (segment : list Token.t) : Prop :=
  sentences segment = m /\
  exists front final, segment = front ++ [final] /\ endsSentence final = true.

(** Whether the last word of a trimmed text is an interrogative. *)
Definition interrogative (text : string) : bool :=
  has questionWords (lastWord (JS.toLowerCase text)).

Definition word_ (text : string) (start_ms end_ms : Z) : Token.t :=
  Token.mk "" "c" start_ms end_ms text [] "".

(** Five one-word sentences, 100 ms each and 100 ms apart. *)
Definition fiveSentences : list Token.t :=
  [word_ "a." 0 100; word_ "b." 200 300; word_ "c." 400 500;
   word_ "d." 600 700; word_ "e." 800 900].

(** Thirty tokens of 900 ms spoken without any silence in between. *)
Definition briskTokens : list Token.t :=
  map (fun k => word_ "w" (900 * Z.of_nat k) (900 * Z.of_nat k + 900)) (seq 0 30).

Definition sumZ (l : list Z) : Z := fold_right Z.add 0 l.

(** An instance of the runtime for running examples: no reply parses, and
    a number prints as the decimal numeral of its integer part. *)
Definition integerRuntime : Runtime :=
  {| JSON_parse := fun _ => None;
     Number_toString := fun q => NilZero.string_of_int (Z.to_int (Qfloor q));
     Number_toFixed := fun q _ => NilZero.string_of_int (Z.to_int (JS.Math_round q)) |}.

(** Two tokens 50 ms apart; the first carries the leading blank of a
    transcribed word, the second ends in a comma. *)
Definition spacedTokens : list Token.t :=
  [word_ " so" 0 100; word_ "fine," 150 200].

(** Two speech segments of one second each, two seconds of silence apart,
    the first holding one filler tag. *)
Definition twoSegments : list SegmentAnalysis.t :=
  [SegmentAnalysis.mk "s0" 0 1000 speech "um so" 
     [TokenWithTags.mk "t0" 0 500 "um" [Tag.mk "t0-filler" "filler" medium "" NoData];
      TokenWithTags.mk "t1" 500 1000 "so" []] [];
   SegmentAnalysis.mk "s1" 3000 4000 speech "it goes"
     [TokenWithTags.mk "t2" 3000 3500 "it" [];
      TokenWithTags.mk "t3" 3500 4000 "goes" []] []].

(** One speech segment of 4480 ms holding fourteen words, every second
    one a filler. *)
Definition fourteenWords : list SegmentAnalysis.t :=
  [SegmentAnalysis.mk "s0" 0 4480 speech ""
     (map (fun k =>
             TokenWithTags.mk "t" (320 * Z.of_nat k) (320 * Z.of_nat k + 320)
               (if Nat.even k then "um" else "word")
               (if Nat.even k
                then [Tag.mk "t-filler" "filler" medium "" NoData] else []))
          (seq 0 14))
     []].

(** The analysed segment [s] spans the tokens [tokens]: a speech segment
    from the start of the first token to the end of the last. *)
Definition Spans (s : SegmentAnalysis.t) (tokens : list Token.t) : Prop :=
  SegmentAnalysis.kind s = speech /\
  exists first final,
    hd_error tokens = Some first /\ JS.pop tokens = Some final /\
    SegmentAnalysis.startMs s = Token.start_ms first /\
    SegmentAnalysis.endMs s = Token.end_ms final.

(** Tokens as the token source delivers them: no token ends before it
    starts, and none starts before the one before it has ended. *)
Fixpoint Ordered (tokens : list Token.t) : Prop :=
  match tokens with
  | [] => True
  | token :: rest =>
      Token.start_ms token <= Token.end_ms token /\
      match rest with
      | [] => True
      | following :: _ => Token.end_ms token <= Token.start_ms following
      end /\
      Ordered rest
  end.

(** Two consecutive segments of the assembled list: no overlap, starts in
    order, and no gap where one of the two is a pause. *)
Definition Adjacent (a b : SegmentAnalysis.t) : Prop :=
  SegmentAnalysis.endMs a <= SegmentAnalysis.startMs b /\
  SegmentAnalysis.startMs a <= SegmentAnalysis.startMs b /\
  (SegmentAnalysis.kind a = pause \/ SegmentAnalysis.kind b = pause ->
   SegmentAnalysis.endMs a = SegmentAnalysis.startMs b).

Fixpoint Chain (l : list SegmentAnalysis.t) : Prop :=
  match l with
  | a :: ((b :: _) as rest) => Adjacent a b /\ Chain rest
  | _ => True
  end.

(** Start, end and kind of the segments of a run of [buildSegments]. *)
Definition timeline
  (r : result (list SegmentAnalysis.t * list SegmentAnalysis.t * list Pause.t))
  : list (Z * Z * SegmentKind) :=
  match r with
  | Ok (allSegments, _, _) =>
      map (fun s => (SegmentAnalysis.startMs s, SegmentAnalysis.endMs s,
                     SegmentAnalysis.kind s))
          allSegments
  | Err _ => []
  end.

(** A reply to the issues prompt from which the lenient parse recovers
    nothing: its bracketed span does not parse, or it has no such span and
    none of its brace pairs parses. *)
Definition Unparseable `{Runtime} (response : string) : Prop :=
  match greedySpan "[" "]" response with
  | Some arrayText => JSON_parse arrayText = None
  | None => forall obj, In obj (objectMatches response) -> JSON_parse obj = None
  end.

(** The example of the specification: a pause of 2300 ms after ["ok"], then
    a filler. *)
Definition specExample : list Token.t :=
  [word_ "ok" 0 200; word_ "um" 2500 2900; word_ "great" 2900 3100].

(** A token that alone reaches the 25 s cap, followed without silence. *)
Definition cappedTokens : list Token.t :=
  [word_ "long" 0 25000; word_ "next" 25000 25100].

Definition proseReplies : Replies :=
  {| issuesReply := Returns "I could not find any issue.";
     titleReply := Throws "timeout";
     highlightsReply := Throws "timeout" |}.

Definition times (token : Token.t) : Z * Z :=
  (Token.start_ms token, Token.end_ms token).


(** ** [identifyPauses] *)

(** The loop of [identifyPauses] over the tokens still to read; [pauses]
    is the array built so far. *)
Fixpoint identifyPausesFrom (tokens : list Token.t) (minPauseMs : Z)
  (pauses : list Pause.t) : list Pause.t :=
  match tokens with
  | token :: ((following :: _) as rest) =>
      let gap := Token.start_ms following - Token.end_ms token in
      identifyPausesFrom rest minPauseMs
        (if minPauseMs <=? gap
         then pauses ++ [Pause.mk (Token.end_ms token)
                           (Token.start_ms following) gap]
         else pauses)
  | _ => pauses
  end.

(** [minPauseMs] defaults to 2000 when the caller leaves it out. *)
Definition identifyPauses (tokens : list Token.t) (minPauseMs : option Z)
  : list Pause.t :=
  identifyPausesFrom tokens
    (match minPauseMs with Some m => m | None => 2000 end) [].

(** ** Readings used in the further properties *)

(** A text with no white space at either end. *)
Definition Trimmed (l : list ascii) : Prop :=
  match l with [] => True | c :: _ => JS.isWhitespace c = false end /\
  match rev l with [] => True | c :: _ => JS.isWhitespace c = false end.

(** Everything of a token but its text. *)
Definition frame (token : Token.t)
  : string * string * Z * Z * list string * string :=
  (Token.id token, Token.conversation_id token, Token.start_ms token,
   Token.end_ms token, Token.tags token, Token.created_at token).

(** Words per minute of an analysed segment, as [analyzeSegment] computes
    it from the token count and the span. *)
Definition segmentWpm (s : SegmentAnalysis.t) : Q :=
  let durationSec :=
    (inject_Z (SegmentAnalysis.endMs s - SegmentAnalysis.startMs s) / 1000)%Q in
  if JS.ltb 0 durationSec
  then ((num (List.length (SegmentAnalysis.tokens s)) / durationSec) * 60)%Q
  else 0%Q.

(** [s.tags.some(t => t.kind === kind)] *)
Definition hasKind (kind : string) (s : SegmentAnalysis.t) : bool :=
  existsb (fun t => String.eqb (Tag.kind t) kind) (SegmentAnalysis.tags s).

(** The [hedging] array [analyzeSegment] builds for a segment. *)
Definition hedgesOf (segmentTokens : list Token.t) : list Hedge :=
  List.concat (JS.mapi (hedgeAt segmentTokens) segmentTokens).

(** What a tagged token keeps of the token it was made from. *)
Definition spoken (t : TokenWithTags.t) : string * Z * Z * string :=
  (TokenWithTags.id t, TokenWithTags.startMs t, TokenWithTags.endMs t,
   TokenWithTags.text t).

Definition asSpoken (t : Token.t) : string * Z * Z * string :=
  (Token.id t, Token.start_ms t, Token.end_ms t, Token.text t).

Definition isFillerWord (token : Token.t) : bool :=
  has FILLER_WORDS (normalize (Token.text token)).

(** The assembled list seen from the analysed segments of each block: a
    block's segments, then the pause of the block's index if there is one. *)
Fixpoint weave `{Runtime} (conversationId : string) (blockIdx : nat)
  (groups : list (list SegmentAnalysis.t)) (pauses : list Pause.t)
  : list SegmentAnalysis.t :=
  match groups with
  | [] => []
  | group :: rest =>
      group
      ++ (match nth_error pauses blockIdx with
          | Some p => [pauseSegment conversationId blockIdx p]
          | None => []
          end)
      ++ weave conversationId (S blockIdx) rest pauses
  end.

Definition isSpeech (s : SegmentAnalysis.t) : bool :=
  match SegmentAnalysis.kind s with speech => true | pause => false end.

Definition isPause (s : SegmentAnalysis.t) : bool :=
  match SegmentAnalysis.kind s with speech => false | pause => true end.

(** Of two consecutive segments at least one is speech. *)
Fixpoint NoAdjacentPauses (l : list SegmentAnalysis.t) : Prop :=
  match l with
  | a :: ((b :: _) as rest) =>
      (SegmentAnalysis.kind a = speech \/ SegmentAnalysis.kind b = speech) /\
      NoAdjacentPauses rest
  | _ => True
  end.

(** Whether the severity of an issue is one the comparator of
    [generateFallbackHighlights] has an order for. *)
Definition knownSeverity (i : Issue.t) : bool :=
  match severityOrder (Issue.severity i) with Some _ => true | None => false end.

(** The highlight [generateFallbackHighlights] makes of an issue. *)
Definition promoted (topIssue : Issue.t) : CoachingHighlight.t :=
  CoachingHighlight.mk "improvement"
    (JS.str (replaceFirstChar "_" " " (JS.chars (Issue.kind topIssue))))
    (Issue.message topIssue)
    (Some (Issue.severity topIssue)).

(** A runtime for running examples whose [JSON.parse] knows one text, the
    array holding [null]. *)
Definition nullEntryRuntime : Runtime :=
  {| JSON_parse := fun s => if String.eqb s "[null]" then Some (JArray [JNull]) else None;
     Number_toString := fun q => NilZero.string_of_int (Z.to_int (Qfloor q));
     Number_toFixed := fun q _ => NilZero.string_of_int (Z.to_int (JS.Math_round q)) |}.

(** [JSON.stringify(s)] for a text without quotes or escapes. *)
Definition quoted (s : string) : string :=
  String (ascii_of_nat 34) (s ++ String (ascii_of_nat 34) EmptyString).

(** A runtime for running examples whose [JSON.parse] knows one text. *)
Definition oneTextRuntime (text : string) (value : json) : Runtime :=
  {| JSON_parse := fun s => if String.eqb s text then Some value else None;
     Number_toString := fun q => NilZero.string_of_int (Z.to_int (Qfloor q));
     Number_toFixed := fun q _ => NilZero.string_of_int (Z.to_int (JS.Math_round q)) |}.

(** [truncatedText] of [generateSessionTitle]. *)
Definition titleExcerpt (segments : list SegmentAnalysis.t) : string :=
  JS.join " "
    (firstn 100
       (JS.splitWhitespace (JS.join " " (map SegmentAnalysis.text segments)))).

(** The time a list of tokens spans: from the start of its first token to
    the end of its last. *)
Definition spanOf (tokens : list Token.t) : Z :=
  match hd_error tokens, JS.pop tokens with
  | Some first, Some final => Token.end_ms final - Token.start_ms first
  | _, _ => 0
  end.

(** ** The content splitter: [splitSegmentByContent]

    The handler does not call it (it splits by [splitBySentences]); it is
    read here as it stands.  A number that may be [NaN] is an [option Q];
    the conversion of a string to a number belongs to the runtime. *)

Class Coercion : Type := {
  String_toNumber : string -> option Q
}.

(** [Number(v)] as [Math.min] applies it to a property read off a parsed
    value; [None] on the left is [undefined]. *)
Definition ToNumber `{Runtime} `{Coercion} (v : option json) : option Q :=
  match v with
  | None => None
  | Some JNull => Some 0%Q
  | Some (JBool b) => Some (if b then 1%Q else 0%Q)
  | Some (JNumber q) => Some q
  | Some (JString s) => String_toNumber s
  | Some (JArray items) => String_toNumber (toText (JArray items))
  | Some (JObject _) => None
  end.

Definition Math_min (a b : Q) : Q := if Qle_bool b a then b else a.
Definition Math_max (a b : Q) : Q := if Qle_bool a b then b else a.

(** [Math.max(0, Math.min(length - 1, x))] *)
Definition clampIndex (length : nat) (x : option Q) : option Q :=
  option_map (fun q => Math_max 0 (Math_min (num length - 1) q)) x.

Module Range.
Record t : Type := mk { start : Q; end_ : Q }.
End Range.

(** The callback of [parsed.segments.map]: reading a property of [null]
    throws. *)
Definition clampRange `{Runtime} `{Coercion} (length : nat) (s : json)
  : result (option Q * option Q) :=
  match s with
  | JNull => Err "TypeError: Cannot read properties of null (reading 'startIndex')"
  | _ => Ok (clampIndex length (ToNumber (field s "startIndex")),
             clampIndex length (ToNumber (field s "endIndex")))
  end.

Fixpoint clampRanges `{Runtime} `{Coercion} (length : nat) (items : list json)
  : result (list (option Q * option Q)) :=
  match items with
  | [] => Ok []
  | s :: rest =>
      r <- clampRange length s ;;
      rs <- clampRanges length rest ;;
      Ok (r :: rs)
  end.

(** The [filter] after the clamp: both ends finite and in order. *)
Definition validRange (r : option Q * option Q) : list Range.t :=
  match r with
  | (Some a, Some b) => if Qle_bool a b then [Range.mk a b] else []
  | _ => []
  end.

Fixpoint insertRange (x : Range.t) (sorted : list Range.t) : list Range.t :=
  match sorted with
  | [] => [x]
  | y :: r =>
      if Qle_bool (Range.start y) (Range.start x) then y :: insertRange x r
      else x :: y :: r
  end.

(** [.sort((a, b) => a.start - b.start)], a stable sort. *)
Definition sortRanges (ranges : list Range.t) : list Range.t :=
  fold_left (fun sorted x => insertRange x sorted) ranges [].

(** One round of the merge loop. *)
Definition mergeStep (merged : list Range.t) (r : Range.t) : list Range.t :=
  match JS.pop merged with
  | None => merged ++ [r]
  | Some last =>
      if Qle_bool (Range.start r) (Range.end_ last + 1)
      then removelast merged
           ++ [Range.mk (Range.start last)
                 (Math_max (Range.end_ last) (Range.end_ r))]
      else merged ++ [r]
  end.

Definition mergeRanges (validRanges : list Range.t) : list Range.t :=
  fold_left mergeStep validRanges [].

(** [l.slice(from, to)] for bounds that are not negative: a fraction is
    dropped. *)
Definition Array_slice {A : Type} (from to : Q) (l : list A) : list A :=
  let a := Z.to_nat (Qfloor from) in
  let b := Z.to_nat (Qfloor to) in
  firstn (b - a) (skipn a l).

Definition isSentenceEnder (c : ascii) : bool :=
  JS.memChar c ["."; "!"; "?"]%char.

(** [(text.match(/[.!?]+/g) || []).length]: the runs of sentence enders. *)
Fixpoint enderRuns (inRun : bool) (l : list ascii) : nat :=
  match l with
  | [] => 0
  | c :: r =>
      if isSentenceEnder c
      then ((if inRun then 0 else 1) + enderRuns true r)%nat
      else enderRuns false r
  end.

Definition splitSegmentByContent `{Runtime} `{Coercion}
  (segmentTokens : list Token.t) (blockIndex : nat) (conversationId : string)
  (reply : Reply) : result (list (list Token.t)) :=
  if Nat.eqb (List.length segmentTokens) 0 then Ok []
  else
    let text := JS.join " " (map Token.text segmentTokens) in
    let sentenceEnders := enderRuns false (JS.chars text) in
    if Nat.ltb (List.length segmentTokens) 15 || Nat.leb sentenceEnders 2
    then Ok [segmentTokens]
    else
      match reply with
      | Throws message => Err message
      | Returns response =>
          match parseObject response with
          | None => Ok [segmentTokens]
          | Some JNull =>
              Err "TypeError: Cannot read properties of null (reading 'segments')"
          | Some parsed =>
              match field parsed "segments" with
              | Some (JArray (item :: items)) =>
                  clamped <- clampRanges (List.length segmentTokens) (item :: items) ;;
                  let validRanges := sortRanges (flat_map validRange clamped) in
                  if Nat.eqb (List.length validRanges) 0 then Ok [segmentTokens]
                  else
                    let result :=
                      map (fun r => Array_slice (Range.start r) (Range.end_ r + 1)
                                      segmentTokens)
                          (mergeRanges validRanges) in
                    if Nat.eqb (List.length result) 0 then Ok [segmentTokens]
                    else Ok result
              | _ => Ok [segmentTokens]
              end
          end
      end.

(** Integer ranges that tile [from .. upto - 1]: each starts where the one
    before it ended, as the prompt asks for. *)
Fixpoint Tiles (from : Z) (ranges : list (Z * Z)) (upto : Z) : Prop :=
  match ranges with
  | [] => False
  | (a, b) :: rest =>
      a = from /\ a <= b /\
      match rest with
      | [] => b + 1 = upto
      | _ :: _ => Tiles (b + 1) rest upto
      end
  end.

(** The reply's segment objects read as the integer ranges [ranges]. *)
Definition ReadAs (items : list json) (ranges : list (Z * Z)) : Prop :=
  Forall2 (fun item range =>
             field item "startIndex" = Some (JNumber (inject_Z (fst range))) /\
             field item "endIndex" = Some (JNumber (inject_Z (snd range))))
          items ranges.


(** A runtime whose conversion of strings knows no numeral. *)
Definition noNumerals : Coercion := {| String_toNumber := fun _ => None |}.

(** Sixteen one-word sentences, and the reply that cuts them in two halves. *)
Definition sixteenSentences : list Token.t :=
  map (fun k => word_ "yes." (100 * Z.of_nat k) (100 * Z.of_nat k + 100)) (seq 0 16).

Definition twoHalvesText : string :=
  "{" ++ quoted "segments" ++ ":[{" ++ quoted "startIndex" ++ ":0,"
      ++ quoted "endIndex" ++ ":7},{" ++ quoted "startIndex" ++ ":8,"
      ++ quoted "endIndex" ++ ":15}]}".

Definition twoHalves : json :=
  JObject [("segments",
            JArray [JObject [("startIndex", JNumber 0); ("endIndex", JNumber 7)];
                    JObject [("startIndex", JNumber 8); ("endIndex", JNumber 15)]])].

(** The merge loop read from the front: [current] is the last range of
    [merged], still open. *)
Fixpoint mergeFrom (current : Range.t) (validRanges : list Range.t)
  : list Range.t :=
  match validRanges with
  | [] => [current]
  | r :: rest =>
      if Qle_bool (Range.start r) (Range.end_ current + 1)
      then mergeFrom (Range.mk (Range.start current)
                        (Math_max (Range.end_ current) (Range.end_ r))) rest
      else current :: mergeFrom r rest
  end.

Definition asRange (range : Z * Z) : Range.t :=
  Range.mk (inject_Z (fst range)) (inject_Z (snd range)).

(** A range inside a list of [length] elements. *)
Definition InBounds (length : nat) (r : Range.t) : Prop :=
  (0 <= Range.start r)%Q /\ (Range.start r <= Range.end_ r)%Q /\
  (Range.end_ r <= num length - 1)%Q.

(** A reply that names the first four and the last eight of sixteen tokens. *)
Definition twoPartsText : string :=
  "{" ++ quoted "segments" ++ ":[{" ++ quoted "startIndex" ++ ":0,"
      ++ quoted "endIndex" ++ ":3},{" ++ quoted "startIndex" ++ ":8,"
      ++ quoted "endIndex" ++ ":15}]}".

Definition twoParts : json :=
  JObject [("segments",
            JArray [JObject [("startIndex", JNumber 0); ("endIndex", JNumber 3)];
                    JObject [("startIndex", JNumber 8); ("endIndex", JNumber 15)]])].

(** A text between braces that holds no brace itself. *)
Definition FlatObject (span : string) : Prop :=
  exists body,
    JS.chars span = "{"%char :: body ++ ["}"%char] /\
    Forall (fun c => Ascii.eqb c "{" = false /\ Ascii.eqb c "}" = false) body.

(** Both ends of a range are whole numbers. *)
Definition Integral (r : Range.t) : Prop :=
  exists a b : Z,
    (Range.start r == inject_Z a)%Q /\ (Range.end_ r == inject_Z b)%Q.

(** Slices of [l] in order, not empty, with at least one element of [l]
    left out between any two of them. *)
Fixpoint Apart {A : Type} (pieces : list (list A)) (l : list A) : Prop :=
  match pieces with
  | [] => True
  | p :: ps =>
      p <> [] /\
      exists gap rest,
        l = gap ++ p ++ rest /\
        match ps with
        | [] => True
        | _ :: _ => exists dropped rest', rest = dropped :: rest' /\ Apart ps rest'
        end
  end.

(** A [Metrics] argument whose pace is NaN and whose filler rate lies
    between 2 and 3. *)
Definition paceless : AnyMetrics.t :=
  AnyMetrics.mk (Finite 60) (Finite 100) NaN (Finite 3) (Finite (5 # 2))
    (Finite 80) (Finite 130) (Finite (1 # 2)) (Finite 0).

(** A [Metrics] argument whose pace is infinite. *)
Definition endlessPace : AnyMetrics.t :=
  AnyMetrics.mk (Finite 0) (Finite 100) PositiveInfinity (Finite 3)
    (Finite (5 # 2)) (Finite 80) (Finite 130) (Finite (1 # 2)) (Finite 0).

(** * Theorems *)

(** ** Pass A *)

Lemma splitDueb_spec (s : Z) (t f : Token.t) :
  splitDueb s t f = true <-> SplitDue s t f.
Proof.
  unfold splitDueb, SplitDue.
  rewrite orb_true_iff, !Z.leb_le. reflexivity.
Qed.

Lemma splitDueb_false (s : Z) (t f : Token.t) :
  splitDueb s t f = false <-> ~ SplitDue s t f.
Proof.
  rewrite <- splitDueb_spec. destruct (splitDueb s t f); split; congruence.
Qed.

Lemma length_snoc_pos {A : Type} (l : list A) (x : A) :
  Nat.ltb 0 (List.length (l ++ [x])) = true.
Proof.
  rewrite length_app. simpl. apply Nat.ltb_lt. lia.
Qed.

(** The loop body, read through [splitDueb]. *)
Lemma splitStep_next (token following : Token.t) (st : SplitState) :
  splitStep token (Some following) st =
  if splitDueb (segmentStartMs st) token following then
    {| segments := segments st ++ [currentSegment st ++ [token]];
       pauses := pauses st ++ [pauseBetween token following];
       currentSegment := [];
       segmentStartMs := Token.start_ms following |}
  else
    {| segments := segments st; pauses := pauses st;
       currentSegment := currentSegment st ++ [token];
       segmentStartMs := segmentStartMs st |}.
Proof.
  unfold splitStep, splitDueb, activeThreshold, pauseBetween,
    LONG_SEGMENT_THRESHOLD_MS, REDUCED_PAUSE_THRESHOLD_MS,
    BASE_PAUSE_THRESHOLD_MS, MAX_SEGMENT_DURATION_MS.
  rewrite length_snoc_pos.
  set (d := Token.end_ms token - segmentStartMs st).
  set (g := Token.start_ms following - Token.end_ms token).
  destruct (Z.leb_spec 20000 d), (Z.ltb_spec d 20000); try lia;
    destruct (Z.leb_spec 25000 d); try lia;
    [ destruct (Z.leb_spec 1000 g) | destruct (Z.leb_spec 1000 g)
    | destruct (Z.leb_spec 2000 g) ]; reflexivity.
Qed.

Lemma splitStep_last (token : Token.t) (st : SplitState) :
  splitStep token None st =
  {| segments := segments st; pauses := pauses st;
     currentSegment := currentSegment st ++ [token];
     segmentStartMs := segmentStartMs st |}.
Proof. reflexivity. Qed.

Lemma blocksFrom_cons (s : Z) (token following : Token.t) (r : list Token.t) :
  blocksFrom s (token :: following :: r) =
  if splitDueb s token following then
    let (bs, ps) := blocksFrom (Token.start_ms following) (following :: r) in
    ([token] :: bs, pauseBetween token following :: ps)
  else
    match blocksFrom s (following :: r) with
    | (b :: bs, ps) => ((token :: b) :: bs, ps)
    | ([], ps) => ([[token]], ps)
    end.
Proof. reflexivity. Qed.

Lemma blocksFrom_nonempty (s : Z) (token : Token.t) (rest : list Token.t) :
  fst (blocksFrom s (token :: rest)) <> [].
Proof.
  destruct rest as [|f r].
  - discriminate.
  - rewrite blocksFrom_cons. destruct (splitDueb s token f).
    + destruct (blocksFrom (Token.start_ms f) (f :: r)); discriminate.
    + destruct (blocksFrom s (f :: r)) as [[|b bs] ps]; discriminate.
Qed.

Lemma attach_nil (blocks : list (list Token.t)) : attach [] blocks = blocks.
Proof. destruct blocks; reflexivity. Qed.

Lemma splitLoop_blocksFrom (tokens : list Token.t) :
  forall st,
    finish (splitLoop tokens st) =
    (segments st ++ attach (currentSegment st)
                      (fst (blocksFrom (segmentStartMs st) tokens)),
     pauses st ++ snd (blocksFrom (segmentStartMs st) tokens)).
Proof.
  induction tokens as [|token rest IH]; intros st.
  - simpl. unfold finish.
    destruct (Nat.ltb 0 (List.length (currentSegment st)));
      rewrite ?app_nil_r; reflexivity.
  - cbn [splitLoop]. rewrite IH. destruct rest as [|f r].
    + rewrite splitStep_last. simpl. rewrite length_snoc_pos, !app_nil_r. reflexivity.
    + cbn [hd_error]. rewrite splitStep_next, blocksFrom_cons.
      destruct (splitDueb (segmentStartMs st) token f); cbn [segments pauses currentSegment segmentStartMs].
      * rewrite attach_nil.
        destruct (blocksFrom (Token.start_ms f) (f :: r)) as [bs ps].
        cbn [fst snd attach]. rewrite <- !app_assoc. reflexivity.
      * pose proof (blocksFrom_nonempty (segmentStartMs st) f r) as Hne.
        destruct (blocksFrom (segmentStartMs st) (f :: r)) as [[|b bs] ps];
          [ exfalso; apply Hne; reflexivity |].
        cbn [fst snd attach]. rewrite <- !app_assoc. reflexivity.
Qed.

Lemma splitIntoSegmentsDynamic_blocksFrom (first : Token.t) (rest : list Token.t) :
  splitIntoSegmentsDynamic (first :: rest) =
  blocksFrom (Token.start_ms first) (first :: rest).
Proof.
  unfold splitIntoSegmentsDynamic.
  match goal with |- context [splitLoop ?ts ?st] =>
    pose proof (splitLoop_blocksFrom ts st) as H end.
  unfold finish in H. rewrite H. cbn [segments pauses currentSegment segmentStartMs].
  rewrite attach_nil. cbn [app].
  destruct (blocksFrom (Token.start_ms first) (first :: rest)); reflexivity.
Qed.

Lemma blocksFrom_head (s : Z) (token : Token.t) (rest : list Token.t) :
  exists b bs, fst (blocksFrom s (token :: rest)) = (token :: b) :: bs.
Proof.
  destruct rest as [|f r].
  - exists [], []. reflexivity.
  - rewrite blocksFrom_cons. destruct (splitDueb s token f).
    + destruct (blocksFrom (Token.start_ms f) (f :: r)) as [bs ps].
      exists [], bs. reflexivity.
    + destruct (blocksFrom s (f :: r)) as [[|b bs] ps].
      * exists [], []. reflexivity.
      * exists b, bs. reflexivity.
Qed.

Lemma blocksFrom_concat (tokens : list Token.t) :
  forall s, List.concat (fst (blocksFrom s tokens)) = tokens.
Proof.
  induction tokens as [|token rest IH]; intros s; [reflexivity|].
  destruct rest as [|f r]; [reflexivity|].
  rewrite blocksFrom_cons. destruct (splitDueb s token f).
  - specialize (IH (Token.start_ms f)).
    destruct (blocksFrom (Token.start_ms f) (f :: r)) as [bs ps].
    cbn [fst] in *. cbn [List.concat app]. now rewrite IH.
  - specialize (IH s).
    pose proof (blocksFrom_nonempty s f r) as Hne.
    destruct (blocksFrom s (f :: r)) as [[|b bs] ps].
    + exfalso. apply Hne. reflexivity.
    + cbn [fst] in *. cbn [List.concat app] in *. now rewrite IH.
Qed.

Lemma pop_cons {A : Type} (x : A) (l : list A) :
  l <> [] -> JS.pop (x :: l) = JS.pop l.
Proof.
  intros Hl. unfold JS.pop. cbn [rev].
  destruct (rev l) as [|y r] eqn:E.
  - apply (f_equal (@rev A)) in E. rewrite rev_involutive in E. now subst.
  - reflexivity.
Qed.

Lemma pop_app {A : Type} (l r : list A) :
  r <> [] -> JS.pop (l ++ r) = JS.pop r.
Proof.
  intros Hr. unfold JS.pop. rewrite rev_app_distr.
  destruct (rev r) as [|y q] eqn:E.
  - apply (f_equal (@rev A)) in E. rewrite rev_involutive in E. now subst.
  - reflexivity.
Qed.

Lemma blocksFrom_PassA (tokens : list Token.t) :
  forall s, PassA s (fst (blocksFrom s tokens)) (snd (blocksFrom s tokens)).
Proof.
  induction tokens as [|token rest IH]; intros s; [reflexivity|].
  destruct rest as [|f r].
  - cbn. repeat split; discriminate.
  - rewrite blocksFrom_cons. destruct (splitDueb s token f) eqn:Hdue.
    + specialize (IH (Token.start_ms f)).
      destruct (blocksFrom_head (Token.start_ms f) f r) as (b & bs & Hhd).
      destruct (blocksFrom (Token.start_ms f) (f :: r)) as [bs' ps].
      cbn [fst snd] in *. subst bs'.
      cbn [PassA Unsplit]. split; [discriminate|]. split; [exact I|].
      cbn [JS.pop rev app hd_error].
      split; [now apply splitDueb_spec|]. split; [reflexivity|exact IH].
    + specialize (IH s).
      destruct (blocksFrom_head s f r) as (b & bs & Hhd).
      destruct (blocksFrom s (f :: r)) as [bs' ps].
      cbn [fst snd] in *. subst bs'.
      cbn [PassA] in IH |- *. destruct IH as (_ & Hun & Hrest).
      split; [discriminate|]. split.
      * cbn [Unsplit]. split; [now apply splitDueb_false|exact Hun].
      * rewrite pop_cons by discriminate. exact Hrest.
Qed.

Lemma PassA_length (blocks : list (list Token.t)) :
  forall s pauses, PassA s blocks pauses ->
    List.length pauses = pred (List.length blocks).
Proof.
  induction blocks as [|b bs IH]; intros s pauses H.
  - cbn in H. now subst.
  - cbn [PassA] in H. destruct H as (_ & _ & H).
    destruct bs as [|b' bs']; [now subst|].
    destruct (JS.pop b), (hd_error b'), pauses as [|p ps]; try contradiction.
    destruct H as (_ & _ & H). apply IH in H. cbn [List.length pred] in *. lia.
Qed.

Lemma PassA_nonempty (blocks : list (list Token.t)) :
  forall s pauses b, PassA s blocks pauses -> In b blocks -> b <> [].
Proof.
  induction blocks as [|b0 bs IH]; intros s pauses b H Hin; [contradiction|].
  cbn [PassA] in H. destruct H as (Hne & _ & H).
  destruct Hin as [->|Hin]; [exact Hne|].
  destruct bs as [|b' bs']; [contradiction|].
  destruct (JS.pop b0), (hd_error b'), pauses as [|p ps]; try contradiction.
  destruct H as (_ & _ & H). eapply IH; eauto.
Qed.

Lemma PassA_boundary (blocks : list (list Token.t)) :
  forall s pauses k b b' first token following,
    PassA s blocks pauses -> StartsAt s blocks ->
    nth_error blocks k = Some b -> nth_error blocks (S k) = Some b' ->
    hd_error b = Some first -> JS.pop b = Some token ->
    hd_error b' = Some following ->
    SplitDue (Token.start_ms first) token following /\
    nth_error pauses k = Some (pauseBetween token following).
Proof.
  induction blocks as [|b0 bs IH];
    intros s pauses k b b' first token following H Hs Hk Hk' Hf Ht Hn.
  - destruct k; discriminate.
  - cbn [PassA] in H. destruct H as (_ & _ & H).
    destruct bs as [|b1 bs']; [destruct k as [|[|k]]; discriminate|].
    destruct (JS.pop b0) as [t0|] eqn:Ep, (hd_error b1) as [f1|] eqn:Eh,
      pauses as [|p ps]; try contradiction.
    destruct H as (Hdue & -> & H).
    destruct k as [|k].
    + cbn in Hk, Hk'. injection Hk as <-. injection Hk' as <-.
      rewrite Ep in Ht. injection Ht as <-.
      rewrite Eh in Hn. injection Hn as <-.
      rewrite (Hs b0 first eq_refl Hf). split; [exact Hdue|reflexivity].
    + cbn [nth_error] in Hk, Hk' |- *.
      eapply (IH (Token.start_ms f1)); eauto.
      intros b2 first2 E2 E2'. cbn in E2. injection E2 as <-.
      rewrite Eh in E2'. now injection E2' as <-.
Qed.

Lemma Unsplit_pair (s : Z) (l1 : list Token.t) :
  forall token following l2,
    Unsplit s (l1 ++ token :: following :: l2) -> ~ SplitDue s token following.
Proof.
  induction l1 as [|x l1 IH]; intros token following l2 H.
  - cbn in H. tauto.
  - apply (IH token following l2).
    destruct l1 as [|y l1']; cbn [app Unsplit] in H |- *; tauto.
Qed.

Lemma PassA_inside (blocks : list (list Token.t)) :
  forall s pauses b first l1 token following l2,
    PassA s blocks pauses -> StartsAt s blocks ->
    In b blocks -> hd_error b = Some first ->
    b = l1 ++ token :: following :: l2 ->
    ~ SplitDue (Token.start_ms first) token following.
Proof.
  induction blocks as [|b0 bs IH];
    intros s pauses b first l1 token following l2 H Hs Hin Hf Hb;
    [contradiction|].
  cbn [PassA] in H. destruct H as (_ & Hun & H).
  destruct Hin as [->|Hin].
  - rewrite (Hs b first eq_refl Hf). subst b. eapply Unsplit_pair; eauto.
  - destruct bs as [|b1 bs']; [contradiction|].
    destruct (JS.pop b0) as [t0|], (hd_error b1) as [f1|] eqn:Eh,
      pauses as [|p ps]; try contradiction.
    destruct H as (_ & _ & H).
    eapply (IH (Token.start_ms f1)); eauto.
    intros b2 first2 E2 E2'. cbn in E2. injection E2 as <-.
    rewrite Eh in E2'. now injection E2' as <-.
Qed.

Lemma splitIntoSegmentsDynamic_PassA (first : Token.t) (rest : list Token.t) :
  let r := splitIntoSegmentsDynamic (first :: rest) in
  PassA (Token.start_ms first) (fst r) (snd r) /\
  StartsAt (Token.start_ms first) (fst r) /\
  List.concat (fst r) = first :: rest.
Proof.
  cbv zeta. rewrite splitIntoSegmentsDynamic_blocksFrom.
  split; [apply blocksFrom_PassA|]. split; [|apply blocksFrom_concat].
  destruct (blocksFrom_head (Token.start_ms first) first rest) as (b & bs & E).
  intros b0 f0 H0 H0'. rewrite E in H0. cbn in H0. injection H0 as <-.
  cbn in H0'. now injection H0' as <-.
Qed.


(** ** Pass B *)

Lemma sentences_app (l1 l2 : list Token.t) :
  sentences (l1 ++ l2) = (sentences l1 + sentences l2)%nat.
Proof. unfold sentences. now rewrite filter_app, length_app. Qed.

Lemma sentences_one (token : Token.t) :
  sentences [token] = if endsSentence token then 1%nat else 0%nat.
Proof. unfold sentences. cbn. now destruct (endsSentence token). Qed.

Lemma sentenceLoop_spec (m : nat) (tokens : list Token.t) :
  forall segs cur n,
    n = sentences cur -> (n < m)%nat ->
    exists new cur',
      sentenceLoop m tokens segs cur n = (segs ++ new, cur') /\
      List.concat new ++ cur' = cur ++ tokens /\
      Forall (Closed m) new /\
      (sentences cur' < m)%nat /\
      ((sentences (cur ++ tokens) < m)%nat -> new = []).
Proof.
  induction tokens as [|token rest IH]; intros segs cur n Hn Hlt.
  - exists [], cur. cbn. rewrite !app_nil_r. repeat split; auto.
    subst n. exact Hlt.
  - cbn [sentenceLoop].
    assert (Hcur : sentences (cur ++ [token])
                   = (n + if endsSentence token then 1 else 0)%nat)
      by (rewrite sentences_app, sentences_one; now subst n).
    assert (Happ : forall l, (cur ++ [token]) ++ l = cur ++ token :: l)
      by (intros l; now rewrite <- app_assoc).
    destruct (endsSentence token) eqn:Hend.
    + destruct (Nat.leb_spec m (S n)).
      * destruct (IH (segs ++ [cur ++ [token]]) [] 0%nat eq_refl ltac:(lia))
          as (new & cur' & Heq & Hcat & Hclosed & Hlast & _).
        exists ((cur ++ [token]) :: new), cur'.
        rewrite Heq, <- app_assoc. cbn [app List.concat].
        split; [reflexivity|]. split.
        { rewrite <- app_assoc, Hcat. cbn [app]. apply Happ. }
        split.
        { constructor; [|exact Hclosed]. split; [lia|].
          exists cur, token. split; [reflexivity|exact Hend]. }
        split; [exact Hlast|].
        intros Hfew. rewrite <- Happ, sentences_app in Hfew. lia.
      * destruct (IH segs (cur ++ [token]) (S n) ltac:(lia) ltac:(lia))
          as (new & cur' & Heq & Hcat & Hclosed & Hlast & Hfew).
        exists new, cur'. rewrite Heq, Hcat, Happ in *. repeat split; auto.
    + destruct (IH segs (cur ++ [token]) n ltac:(lia) Hlt)
        as (new & cur' & Heq & Hcat & Hclosed & Hlast & Hfew).
      exists new, cur'. rewrite Heq, Hcat, Happ in *. repeat split; auto.
Qed.

Lemma Closed_nonempty (m : nat) (segment : list Token.t) :
  Closed m segment -> segment <> [].
Proof.
  intros (_ & front & final & -> & _). now destruct front.
Qed.

(** What [splitBySentences tokens 4] returns, in terms of the closed
    segments and the open remainder. *)
Lemma splitBySentences_shape (tokens : list Token.t) :
  exists new rest,
    List.concat new ++ rest = tokens /\
    Forall (Closed 4) new /\ (sentences rest < 4)%nat /\
    ((sentences tokens < 4)%nat -> new = []) /\
    splitBySentences tokens 4 =
      match rest, new with
      | [], [] => [tokens]
      | [], _ => new
      | _, _ => new ++ [rest]
      end.
Proof.
  destruct (sentenceLoop_spec 4 tokens [] [] 0%nat eq_refl ltac:(lia))
    as (new & rest & Heq & Hcat & Hclosed & Hlast & Hfew).
  exists new, rest. cbn [app] in *.
  repeat split; auto.
  unfold splitBySentences. rewrite Heq.
  destruct rest as [|r rs]; cbn [List.length Nat.ltb Nat.leb].
  - destruct new; reflexivity.
  - rewrite length_app. cbn [List.length].
    replace (List.length new + 1)%nat with (S (List.length new)) by lia.
    reflexivity.
Qed.

(** C6 (as the code has it). The handler gives every block of Pass A to
    [splitBySentences] with a maximum of 4, whatever its number of tokens.
    The segments returned concatenate to the block; a block with fewer
    than 4 sentence-ending tokens (so with at most 2) comes back as one
    segment; no segment holds more than 4 sentence ends; every segment
    before the last holds exactly 4 and closes on the fourth; the last
    segment either closes on a fourth sentence end too or is the
    remainder, with fewer than 4 sentence ends, so a segment is closed at
    every fourth sentence end and nowhere else; and the remainder after
    the last closed segment is kept, however short: no segment of a
    non-empty block is empty. *)
Theorem splitBySentences_at_most_four (tokens : list Token.t) :
  let out := splitBySentences tokens 4 in
  List.concat out = tokens /\
  ((sentences tokens < 4)%nat -> out = [tokens]) /\
  (forall seg, In seg out -> (sentences seg <= 4)%nat) /\
  (forall k seg, nth_error out k = Some seg -> (S k < List.length out)%nat ->
     Closed 4 seg) /\
  (forall k seg, nth_error out k = Some seg ->
     Closed 4 seg \/ (S k = List.length out /\ (sentences seg < 4)%nat)) /\
  (tokens <> [] -> forall seg, In seg out -> seg <> []).
Proof.
  cbv zeta.
  destruct (splitBySentences_shape tokens)
    as (new & rest & Hcat & Hclosed & Hlast & Hfew & ->).
  rewrite Forall_forall in Hclosed.
  destruct rest as [|r rs].
  - rewrite app_nil_r in Hcat. destruct new as [|s0 new'].
    + cbn in Hcat. subst tokens. cbn.
      split; [reflexivity|]. split; [reflexivity|].
      split; [intros seg [<-|[]]; cbn; lia|].
      split; [intros [|[|k]] seg; cbn; intros; try discriminate; lia|].
      split.
      * intros [|[|k]] seg Hk; cbn in Hk; try discriminate.
        injection Hk as <-. right. split; [reflexivity|cbn; lia].
      * intros H; now contradiction H.
    + split; [exact Hcat|].
      split; [intros H; specialize (Hfew H); discriminate|].
      split; [intros seg Hin; destruct (Hclosed seg Hin) as [-> _]; lia|].
      split; [intros k seg Hk _; apply Hclosed; eapply nth_error_In; eauto|].
      split.
      * intros k seg Hk. left. apply Hclosed. eapply nth_error_In; eauto.
      * intros _ seg Hin. eapply Closed_nonempty. apply Hclosed, Hin.
  - split; [rewrite concat_app; cbn; now rewrite app_nil_r|].
    split; [intros H; rewrite (Hfew H) in *; cbn in *; now subst|].
    split.
    { intros seg Hin. apply in_app_or in Hin. destruct Hin as [Hin|[<-|[]]].
      - destruct (Hclosed seg Hin) as [-> _]. lia.
      - lia. }
    split.
    { intros k seg Hk Hlen. rewrite length_app in Hlen. cbn in Hlen.
      apply Hclosed. rewrite nth_error_app1 in Hk by lia.
      eapply nth_error_In; eauto. }
    split.
    { intros k seg Hk. rewrite length_app. cbn [List.length].
      destruct (Nat.lt_ge_cases k (List.length new)) as [Hlt|Hge].
      - left. apply Hclosed. rewrite nth_error_app1 in Hk by exact Hlt.
        eapply nth_error_In; eauto.
      - right. rewrite nth_error_app2 in Hk by exact Hge.
        destruct (k - List.length new)%nat as [|d] eqn:Ed.
        + cbn in Hk. injection Hk as <-. split; [lia|exact Hlast].
        + cbn in Hk. destruct d; discriminate. }
    intros _ seg Hin. apply in_app_or in Hin. destruct Hin as [Hin|[<-|[]]].
    + eapply Closed_nonempty. apply Hclosed, Hin.
    + discriminate.
Qed.

(** C6 as stated fails: five one-word sentences come out of the punctuator
    and Pass A as one block of five tokens, fewer than 15, and the block is
    not kept whole; it is cut after the fourth. *)
Lemma splitBySentences_short_block_is_split :
  List.length fiveSentences = 5%nat /\
  fst (splitIntoSegments (addPunctuationToTokens fiveSentences))
    = [fiveSentences] /\
  splitBySentences fiveSentences 4
    = [firstn 4 fiveSentences; skipn 4 fiveSentences].
Proof. repeat split; vm_compute; reflexivity. Qed.

(** ** The punctuator *)

Lemma nth_error_mapiFrom {A B : Type} (f : nat -> A -> B) (l : list A) :
  forall i k,
    nth_error (JS.mapiFrom i f l) k = option_map (f (i + k)%nat) (nth_error l k).
Proof.
  induction l as [|x r IH]; intros i [|k]; cbn; try reflexivity.
  - now rewrite Nat.add_0_r.
  - rewrite IH. now rewrite Nat.add_succ_r.
Qed.

Lemma length_mapiFrom {A B : Type} (f : nat -> A -> B) (l : list A) :
  forall i, List.length (JS.mapiFrom i f l) = List.length l.
Proof. induction l; intros i; cbn; auto. Qed.

Lemma addPunctuationToTokens_nth (tokens : list Token.t) (idx : nat) :
  nth_error (addPunctuationToTokens tokens) idx
  = option_map (punctuateToken tokens idx) (nth_error tokens idx).
Proof.
  unfold addPunctuationToTokens. destruct tokens as [|t r].
  - now destruct idx.
  - cbn [List.length Nat.eqb]. unfold JS.mapi. now rewrite nth_error_mapiFrom.
Qed.

Lemma addPunctuationToTokens_length (tokens : list Token.t) :
  List.length (addPunctuationToTokens tokens) = List.length tokens.
Proof.
  unfold addPunctuationToTokens. destruct tokens as [|t r]; [reflexivity|].
  cbn [List.length Nat.eqb]. unfold JS.mapi. now rewrite length_mapiFrom.
Qed.

(** C3 (as the code has it). The punctuator keeps the number and order of
    the tokens and works on the trimmed text of each: a token whose
    trimmed text already ends in one of [. , ! ? ; :] is returned
    untouched, the last token included; otherwise only the text changes,
    to the trimmed text followed by ["."] (["?"] after an interrogative
    last word) when the gap to the next token is at least 800 ms, by [","]
    when the gap is in [300, 800) ms, by nothing when it is below 300 ms,
    and by ["."] for the last token. *)
Theorem addPunctuationToTokens_rules (tokens : list Token.t) (idx : nat)
  (token : Token.t) :
  nth_error tokens idx = Some token ->
  let text := JS.trim (Token.text token) in
  List.length (addPunctuationToTokens tokens) = List.length tokens /\
  exists out,
    nth_error (addPunctuationToTokens tokens) idx = Some out /\
    (JS.endsWithAny punctuation text = true -> out = token) /\
    (JS.endsWithAny punctuation text = false ->
       out = withText token (Token.text out) /\
       (forall following, nth_error tokens (S idx) = Some following ->
          let gap := Token.start_ms following - Token.end_ms token in
          (800 <= gap ->
             Token.text out
             = (text ++ if interrogative text then "?" else ".")%string) /\
          (300 <= gap < 800 -> Token.text out = (text ++ ",")%string) /\
          (gap < 300 -> Token.text out = text)) /\
       (nth_error tokens (S idx) = None ->
          Token.text out = (text ++ ".")%string)).
Proof.
  intros Hidx text.
  split; [apply addPunctuationToTokens_length|].
  exists (punctuateToken tokens idx token).
  split; [rewrite addPunctuationToTokens_nth, Hidx; reflexivity|].
  unfold punctuateToken. fold text.
  split.
  - intros ->. reflexivity.
  - intros ->. split; [reflexivity|]. split.
    + intros following ->. cbv zeta. cbn [withText Token.text].
      unfold LONG_PAUSE_MS, SHORT_PAUSE_MS, interrogative.
      set (gap := Token.start_ms following - Token.end_ms token).
      destruct (Z.leb_spec 800 gap), (Z.leb_spec 300 gap);
        repeat split; intros; try lia; try reflexivity.
      now destruct (has questionWords (lastWord (JS.toLowerCase text))).
    + intros ->. reflexivity.
Qed.

Lemma addPunctuationToTokens_rules_witness :
  nth_error spacedTokens 0 = Some (word_ " so" 0 100) /\
  List.length (addPunctuationToTokens spacedTokens) = List.length spacedTokens.
Proof.
  split; [reflexivity|].
  exact (proj1 (addPunctuationToTokens_rules spacedTokens 0
                  (word_ " so" 0 100) eq_refl)).
Defined.

(** C3 as stated fails twice on two tokens 50 ms apart: the text [" so"]
    does not stay unchanged under a gap below 300 ms, it is trimmed; and
    the last token, ["fine,"], ends in a comma and receives no ["."]. *)
Lemma addPunctuationToTokens_trims_and_keeps_commas :
  map Token.text spacedTokens = [" so"; "fine,"] /\
  map Token.start_ms spacedTokens = [0; 150] /\
  map Token.end_ms spacedTokens = [100; 200] /\
  map Token.text (addPunctuationToTokens spacedTokens) = ["so"; "fine,"].
Proof. repeat split; vm_compute; reflexivity. Qed.

(** ** Metrics *)

Lemma fold_left_add_nat {A : Type} (f : A -> nat) (l : list A) :
  forall a, fold_left (fun sum x => (sum + f x)%nat) l a = (a + list_sum (map f l))%nat.
Proof.
  induction l as [|x r IH]; intros a; cbn [fold_left map].
  - unfold list_sum. cbn. lia.
  - rewrite IH. unfold list_sum. cbn [fold_right]. lia.
Qed.

Lemma fold_left_add_Z {A : Type} (f : A -> Z) (l : list A) :
  forall a, fold_left (fun sum x => sum + f x) l a = a + sumZ (map f l).
Proof.
  induction l as [|x r IH]; intros a; cbn [fold_left map].
  - unfold sumZ. cbn. lia.
  - rewrite IH. unfold sumZ. cbn [fold_right]. lia.
Qed.

Lemma countFillers_sum (segments : list SegmentAnalysis.t) :
  countFillers segments
  = list_sum (map (fun s => list_sum (map fillersOf (SegmentAnalysis.tokens s)))
                  segments).
Proof.
  unfold countFillers.
  assert (H : forall a,
             fold_left
               (fun fillerCount s =>
                  fold_left (fun fillerCount t => (fillerCount + fillersOf t)%nat)
                            (SegmentAnalysis.tokens s) fillerCount)
               segments a
             = (a + list_sum
                      (map (fun s => list_sum (map fillersOf (SegmentAnalysis.tokens s)))
                           segments))%nat).
  { induction segments as [|s r IH]; intros a; cbn [fold_left map].
    - unfold list_sum. cbn. lia.
    - rewrite IH, fold_left_add_nat. unfold list_sum. cbn [fold_right]. lia. }
  now rewrite H.
Qed.

(** C8. [fillerCount] of the computed metrics is exactly the number of tags
    of kind ['filler'] on the tokens of the speech segments, summed over
    all tokens of all segments. *)
Theorem fillerCount_counts_filler_tags (segments : list SegmentAnalysis.t)
  (pauses : list Pause.t) (draws : Draws) :
  Metrics.fillerCount (calculateMetrics segments pauses draws)
  = num (list_sum
           (map (fun s =>
                   list_sum
                     (map (fun t =>
                             List.length
                               (filter (fun tag => String.eqb (Tag.kind tag) "filler")
                                       (TokenWithTags.tags t)))
                          (SegmentAnalysis.tokens s)))
                segments)).
Proof.
  unfold calculateMetrics. cbn [Metrics.fillerCount].
  now rewrite countFillers_sum.
Qed.

Lemma seconds_positive (ms : Z) :
  0 < ms -> JS.ltb 0 (inject_Z ms / 1000) = true.
Proof.
  intros H. unfold JS.ltb. apply negb_true_iff.
  destruct (Qle_bool (inject_Z ms / 1000) 0) eqn:E; [|reflexivity].
  apply Qle_bool_iff in E. unfold Qle in E. cbn in E. lia.
Qed.

(** ** Double-precision arithmetic *)

Lemma two_not_0 : ~ (2 == 0)%Q.
Proof. discriminate. Qed.

Lemma pow2_pos (e : Z) : (0 < 2 ^ e)%Q.
Proof. apply Qpower_0_lt. reflexivity. Qed.

Lemma pow2_Z (k : Z) : 0 <= k -> (2 ^ k == inject_Z (2 ^ k))%Q.
Proof. intros Hk. rewrite (Zpower_Qpower 2 k Hk). reflexivity. Qed.

Lemma pow2_succ (e : Z) : (2 ^ (e + 1) == 2 * 2 ^ e)%Q.
Proof.
  rewrite (Qpower_plus 2 e 1 two_not_0). rewrite Qpower_1_r. ring.
Qed.

Lemma pow2_le (a b : Z) : a <= b -> (2 ^ a <= 2 ^ b)%Q.
Proof. intros H. apply Qpower_le_compat_l; [exact H|discriminate]. Qed.

Lemma binade_rough (q : Q) :
  (0 < q)%Q ->
  let e := Z.log2 (Qnum q) - Z.log2 (Zpos (Qden q)) in
  (2 ^ (e - 1) < q)%Q /\ (q < 2 ^ (e + 1))%Q.
Proof.
  intros Hq. destruct q as [n d]. cbn [Qnum Qden].
  assert (Hn : 0 < n) by (unfold Qlt in Hq; cbn in Hq; lia).
  set (ln := Z.log2 n). set (ld := Z.log2 (Zpos d)).
  assert (Hln : 0 <= ln) by apply Z.log2_nonneg.
  assert (Hld : 0 <= ld) by apply Z.log2_nonneg.
  destruct (Z.log2_spec n Hn) as [Hn1 Hn2]. fold ln in Hn1, Hn2.
  destruct (Z.log2_spec (Zpos d) ltac:(lia)) as [Hd1 Hd2]. fold ld in Hd1, Hd2.
  assert (Hpn : 0 < 2 ^ ln) by (apply Z.pow_pos_nonneg; lia).
  assert (Hpd : 0 < 2 ^ ld) by (apply Z.pow_pos_nonneg; lia).
  rewrite Z.pow_succ_r in Hn2, Hd2 by lia.
  assert (E : (2 ^ (ln - ld) == inject_Z (2 ^ ln) / inject_Z (2 ^ ld))%Q).
  { rewrite (Qpower_minus 2 ln ld two_not_0), !pow2_Z by lia. reflexivity. }
  assert (Hqd : (n # d == inject_Z n / inject_Z (Zpos d))%Q) by apply Qmake_Qdiv.
  assert (HA : (0 < inject_Z (2 ^ ln))%Q) by (rewrite <- (Zlt_Qlt 0); lia).
  assert (HB : (0 < inject_Z (2 ^ ld))%Q) by (rewrite <- (Zlt_Qlt 0); lia).
  assert (HD : (0 < inject_Z (Zpos d))%Q) by (rewrite <- (Zlt_Qlt 0); lia).
  cbv zeta. split.
  - replace (ln - ld - 1) with ((ln - ld) + (-1)) by lia.
    rewrite (Qpower_plus 2 _ (-1) two_not_0), E, Hqd.
    change (2 ^ (-1))%Q with (1 # 2)%Q.
    apply Qlt_shift_div_l; [exact HD|].
    assert (X : (inject_Z (2 ^ ln) / inject_Z (2 ^ ld) * (1 # 2) * inject_Z (Z.pos d)
                 == inject_Z (2 ^ ln * Zpos d) / inject_Z (2 * 2 ^ ld))%Q).
    { rewrite !inject_Z_mult. field. intros H0. rewrite H0 in HB. discriminate. }
    rewrite X. apply Qlt_shift_div_r; [rewrite <- (Zlt_Qlt 0); lia|].
    rewrite <- inject_Z_mult, <- Zlt_Qlt. nia.
  - rewrite pow2_succ, E, Hqd.
    apply Qlt_shift_div_r; [exact HD|].
    assert (X : (2 * (inject_Z (2 ^ ln) / inject_Z (2 ^ ld)) * inject_Z (Z.pos d)
                 == inject_Z (2 * 2 ^ ln * Zpos d) / inject_Z (2 ^ ld))%Q).
    { rewrite !inject_Z_mult. field. intros H0. rewrite H0 in HB. discriminate. }
    rewrite X. apply Qlt_shift_div_l; [exact HB|].
    rewrite <- inject_Z_mult, <- Zlt_Qlt. nia.
Qed.

Lemma binade_spec (q : Q) :
  (0 < q)%Q -> (2 ^ Double.binade q <= q)%Q /\ (q < 2 ^ (Double.binade q + 1))%Q.
Proof.
  intros Hq. destruct (binade_rough q Hq) as [Hlo Hhi]. cbv zeta in Hlo, Hhi.
  unfold Double.binade.
  set (e := Z.log2 (Qnum q) - Z.log2 (Z.pos (Qden q))) in *.
  destruct (Qle_bool (2 ^ e) q) eqn:E.
  - apply Qle_bool_iff in E. now split.
  - assert (Hlt : (q < 2 ^ e)%Q).
    { apply Qnot_le_lt. intros H. apply Qle_bool_iff in H. congruence. }
    replace (e - 1 + 1) with e by lia. split; [now apply Qlt_le_weak|exact Hlt].
Qed.

Lemma roundHalfEven_floor (m : Q) :
  Double.roundHalfEven m = Qfloor m \/
  (Double.roundHalfEven m = Qfloor m + 1 /\ (inject_Z (Qfloor m) + (1 # 2) <= m)%Q).
Proof.
  unfold Double.roundHalfEven. cbv zeta.
  destruct (Qcompare_spec (m - inject_Z (Qfloor m)) (1 # 2)) as [E|E|E].
  - destruct (Z.even (Qfloor m)); [now left|]. right. split; [reflexivity|]. lra.
  - now left.
  - right. split; [reflexivity|]. lra.
Qed.

Lemma roundHalfEven_le (m : Q) (K : Z) :
  (m <= inject_Z K)%Q -> Double.roundHalfEven m <= K.
Proof.
  intros Hm. pose proof (Qfloor_le m) as Hf.
  assert (HfK : Qfloor m <= K).
  { rewrite <- (Qfloor_Z K). now apply Qfloor_resp_le. }
  destruct (roundHalfEven_floor m) as [->|[-> Hhalf]]; [exact HfK|].
  assert (Hlt : (inject_Z (Qfloor m) < inject_Z K)%Q) by lra.
  rewrite <- Zlt_Qlt in Hlt. lia.
Qed.

Lemma roundHalfEven_ge (m : Q) (K : Z) :
  (inject_Z K <= m)%Q -> K <= Double.roundHalfEven m.
Proof.
  intros Hm.
  assert (HfK : K <= Qfloor m).
  { rewrite <- (Qfloor_Z K). now apply Qfloor_resp_le. }
  destruct (roundHalfEven_floor m) as [->|[-> _]]; lia.
Qed.

Lemma roundHalfEven_monotone (m m' : Q) :
  (m <= m')%Q -> Double.roundHalfEven m <= Double.roundHalfEven m'.
Proof.
  intros Hm. pose proof (Qfloor_resp_le _ _ Hm) as Hf.
  destruct (Z.eq_dec (Qfloor m) (Qfloor m')) as [E|E].
  - unfold Double.roundHalfEven. cbv zeta. rewrite <- E.
    destruct (Qcompare_spec (m - inject_Z (Qfloor m)) (1 # 2)) as [E1|E1|E1];
    destruct (Qcompare_spec (m' - inject_Z (Qfloor m)) (1 # 2)) as [E2|E2|E2];
      try lia; try (destruct (Z.even (Qfloor m)); lia); exfalso; lra.
  - apply Z.le_trans with (Qfloor m + 1).
    + destruct (roundHalfEven_floor m) as [->|[-> _]]; lia.
    + apply Z.le_trans with (Qfloor m'); [lia|].
      destruct (roundHalfEven_floor m') as [->|[-> _]]; lia.
Qed.

Lemma scaled_range (q : Q) (e : Z) :
  (2 ^ e <= q)%Q -> (q < 2 ^ (e + 1))%Q ->
  (inject_Z (2 ^ 52) <= q / 2 ^ (e - 52))%Q /\
  (q / 2 ^ (e - 52) <= inject_Z (2 ^ 53))%Q.
Proof.
  intros Hlo Hhi. pose proof (pow2_pos (e - 52)) as Hu.
  assert (E1 : (2 ^ e == inject_Z (2 ^ 52) * 2 ^ (e - 52))%Q).
  { rewrite <- pow2_Z by lia. rewrite <- (Qpower_plus 2 52 (e - 52) two_not_0).
    now replace (52 + (e - 52)) with e by lia. }
  assert (E2 : (2 ^ (e + 1) == inject_Z (2 ^ 53) * 2 ^ (e - 52))%Q).
  { rewrite <- pow2_Z by lia. rewrite <- (Qpower_plus 2 53 (e - 52) two_not_0).
    now replace (53 + (e - 52)) with (e + 1) by lia. }
  split.
  - apply Qle_shift_div_l; [exact Hu|]. now rewrite <- E1.
  - apply Qle_shift_div_r; [exact Hu|]. rewrite <- E2. now apply Qlt_le_weak.
Qed.

Lemma nearestPositive_bounds (q : Q) :
  (0 < q)%Q ->
  (2 ^ Double.binade q <= Double.nearestPositive q)%Q /\
  (Double.nearestPositive q <= 2 ^ (Double.binade q + 1))%Q.
Proof.
  intros Hq. destruct (binade_spec q Hq) as [Hlo Hhi].
  set (e := Double.binade q) in *.
  destruct (scaled_range q e Hlo Hhi) as [Hm1 Hm2].
  unfold Double.nearestPositive. cbv zeta. fold e.
  pose proof (pow2_pos (e - 52)) as Hu.
  pose proof (roundHalfEven_ge _ _ Hm1) as H1.
  pose proof (roundHalfEven_le _ _ Hm2) as H2.
  rewrite Zle_Qle in H1, H2.
  assert (E1 : (2 ^ e == inject_Z (2 ^ 52) * 2 ^ (e - 52))%Q).
  { rewrite <- pow2_Z by lia. rewrite <- (Qpower_plus 2 52 (e - 52) two_not_0).
    now replace (52 + (e - 52)) with e by lia. }
  assert (E2 : (2 ^ (e + 1) == inject_Z (2 ^ 53) * 2 ^ (e - 52))%Q).
  { rewrite <- pow2_Z by lia. rewrite <- (Qpower_plus 2 53 (e - 52) two_not_0).
    now replace (53 + (e - 52)) with (e + 1) by lia. }
  rewrite E1, E2. split; apply Qmult_le_compat_r; try assumption;
    now apply Qlt_le_weak.
Qed.

Lemma nearestPositive_monotone (q r : Q) :
  (0 < q)%Q -> (q <= r)%Q ->
  (Double.nearestPositive q <= Double.nearestPositive r)%Q.
Proof.
  intros Hq Hqr. assert (Hr : (0 < r)%Q) by lra.
  destruct (binade_spec q Hq) as [Hq1 Hq2].
  destruct (binade_spec r Hr) as [Hr1 Hr2].
  assert (He : Double.binade q <= Double.binade r).
  { assert (Hlt : (2 ^ Double.binade q < 2 ^ (Double.binade r + 1))%Q) by lra.
    apply Qpower_lt_compat_l_inv in Hlt; [lia|reflexivity]. }
  destruct (Z.eq_dec (Double.binade q) (Double.binade r)) as [E|E].
  - unfold Double.nearestPositive. cbv zeta. rewrite E.
    pose proof (pow2_pos (Double.binade r - 52)) as Hu.
    apply Qmult_le_compat_r; [|now apply Qlt_le_weak].
    rewrite <- Zle_Qle. apply roundHalfEven_monotone.
    apply Qmult_le_compat_r; [exact Hqr|].
    apply Qlt_le_weak, Qinv_lt_0_compat, Hu.
  - destruct (nearestPositive_bounds q Hq) as [_ Hb].
    destruct (nearestPositive_bounds r Hr) as [Ha _].
    eapply Qle_trans; [exact Hb|]. eapply Qle_trans; [|exact Ha].
    apply pow2_le. lia.
Qed.

Lemma Qnum_pos (q : Q) : (0 < q)%Q -> exists p, Qnum q = Zpos p.
Proof.
  destruct q as [[|p|p] d]; unfold Qlt; cbn; intros H; try lia. now exists p.
Qed.

Lemma nearest_pos (q : Q) : (0 < q)%Q -> (0 < Double.nearest q)%Q.
Proof.
  intros Hq. destruct (Qnum_pos q Hq) as [p Hp]. unfold Double.nearest.
  rewrite Hp. destruct (nearestPositive_bounds q Hq) as [H _].
  pose proof (pow2_pos (Double.binade q)). lra.
Qed.

Lemma nearest_nonneg (q : Q) : (0 <= q)%Q -> (0 <= Double.nearest q)%Q.
Proof.
  intros Hq. destruct q as [[|p|p] d].
  - apply Qle_refl.
  - apply Qlt_le_weak, nearest_pos. reflexivity.
  - unfold Qle in Hq. cbn in Hq. lia.
Qed.

Lemma nearest_monotone (q r : Q) :
  (0 <= q)%Q -> (q <= r)%Q -> (Double.nearest q <= Double.nearest r)%Q.
Proof.
  intros Hq Hqr. destruct q as [[|p|p] d].
  - apply (nearest_nonneg r). lra.
  - assert (Hpos : (0 < Z.pos p # d)%Q) by reflexivity.
    assert (Hr : (0 < r)%Q) by lra.
    destruct (Qnum_pos r Hr) as [p' Hp']. unfold Double.nearest at 2.
    rewrite Hp'. now apply nearestPositive_monotone.
  - unfold Qle in Hq. cbn in Hq. lia.
Qed.

Lemma roundHalfEven_error (m : Q) :
  (inject_Z (Double.roundHalfEven m) - m <= 1 # 2)%Q /\
  (m - inject_Z (Double.roundHalfEven m) <= 1 # 2)%Q.
Proof.
  pose proof (Qfloor_le m) as Hlo. pose proof (Qlt_floor m) as Hhi.
  rewrite inject_Z_plus in Hhi. change (inject_Z 1) with 1%Q in Hhi.
  unfold Double.roundHalfEven. cbv zeta.
  destruct (Qcompare_spec (m - inject_Z (Qfloor m)) (1 # 2)) as [E|E|E].
  - destruct (Z.even (Qfloor m)); [split; lra|].
    rewrite inject_Z_plus. change (inject_Z 1) with 1%Q. split; lra.
  - split; lra.
  - rewrite inject_Z_plus. change (inject_Z 1) with 1%Q. split; lra.
Qed.

Lemma scaled_back (q : Q) (e : Z) : (q / 2 ^ e * 2 ^ e == q)%Q.
Proof.
  field. intros H. pose proof (pow2_pos e) as Hp. rewrite H in Hp. discriminate.
Qed.

Lemma nearestPositive_error (q : Q) :
  (0 < q)%Q ->
  (Double.nearestPositive q - q <= 2 ^ (Double.binade q - 53))%Q /\
  (q - Double.nearestPositive q <= 2 ^ (Double.binade q - 53))%Q.
Proof.
  intros Hq. unfold Double.nearestPositive. cbv zeta.
  set (e := Double.binade q). set (u := (2 ^ (e - 52))%Q).
  pose proof (pow2_pos (e - 52)) as Hu. fold u in Hu.
  destruct (roundHalfEven_error (q / u)) as [H1 H2].
  pose proof (scaled_back q (e - 52)) as Hback. fold u in Hback.
  assert (Eu : (2 ^ (e - 53) == (1 # 2) * u)%Q).
  { subst u. replace (e - 53) with ((-1) + (e - 52)) by lia.
    rewrite (Qpower_plus 2 (-1) (e - 52) two_not_0). reflexivity. }
  rewrite Eu.
  set (n := inject_Z (Double.roundHalfEven (q / u))) in *.
  assert (A : ((n - q / u) * u <= (1 # 2) * u)%Q)
    by (apply Qmult_le_compat_r; [exact H1|lra]).
  assert (B : ((q / u - n) * u <= (1 # 2) * u)%Q)
    by (apply Qmult_le_compat_r; [exact H2|lra]).
  assert (A' : ((n - q / u) * u == n * u - q)%Q)
    by (rewrite <- Hback at 2; ring).
  assert (B' : ((q / u - n) * u == q - n * u)%Q)
    by (rewrite <- Hback at 2; ring).
  rewrite A' in A. rewrite B' in B. split; assumption.
Qed.

Lemma nearestPositive_exact (q : Q) (K : Z) :
  (0 < q)%Q -> (q / 2 ^ (Double.binade q - 52) == inject_Z K)%Q ->
  (Double.nearestPositive q == q)%Q.
Proof.
  intros Hq HK. unfold Double.nearestPositive. cbv zeta.
  assert (E : Double.roundHalfEven (q / 2 ^ (Double.binade q - 52)) = K).
  { apply Z.le_antisymm.
    - apply roundHalfEven_le. rewrite HK. apply Qle_refl.
    - apply roundHalfEven_ge. rewrite HK. apply Qle_refl. }
  rewrite E, <- HK. apply scaled_back.
Qed.

Lemma Qfloor_unique (x : Q) (k : Z) :
  (inject_Z k <= x)%Q -> (x < inject_Z (k + 1))%Q -> Qfloor x = k.
Proof.
  intros Hlo Hhi. pose proof (Qfloor_le x) as H1. pose proof (Qlt_floor x) as H2.
  assert (A : (inject_Z k < inject_Z (Qfloor x + 1))%Q) by lra.
  assert (B : (inject_Z (Qfloor x) < inject_Z (k + 1))%Q) by lra.
  rewrite <- Zlt_Qlt in A, B. lia.
Qed.

(** A positive quotient of a safe integer by 1000 and the double nearest
    to it: less than 1/1000 apart, and equal at a half-integer. *)
Lemma near_milliseconds (q : Q) (z : Z) :
  0 < z < 2 ^ 53 -> (q == inject_Z z / 1000)%Q ->
  let f := Double.nearestPositive q in
  (f - q <= 1 # 1024)%Q /\ (q - f <= 1 # 1024)%Q /\
  (forall j, 2 * z = 1000 * j -> (f == q)%Q).
Proof.
  intros [Hz0 Hz1] Hqz. cbv zeta.
  assert (Hq : (0 < q)%Q).
  { rewrite Hqz. apply Qlt_shift_div_l; [reflexivity|]. rewrite Qmult_0_l.
    now rewrite <- (Zlt_Qlt 0). }
  destruct (binade_spec q Hq) as [Hb1 Hb2].
  set (e := Double.binade q) in *.
  assert (He : e <= 43).
  { assert (Hlt : (q < 2 ^ 44)%Q).
    { rewrite Hqz. apply Qlt_shift_div_r; [reflexivity|].
      assert (E : (2 ^ 44 * 1000 == inject_Z (2 ^ 44 * 1000))%Q)
        by (apply Qeq_bool_iff; vm_compute; reflexivity).
      rewrite E, <- Zlt_Qlt.
      assert (2 ^ 53 < 2 ^ 44 * 1000) by (vm_compute; reflexivity). lia. }
    assert (Hlt' : (2 ^ e < 2 ^ 44)%Q) by lra.
    apply Qpower_lt_compat_l_inv in Hlt'; [lia|reflexivity]. }
  destruct (nearestPositive_error q Hq) as [E1 E2]. fold e in E1, E2.
  assert (Hu : (2 ^ (e - 53) <= 1 # 1024)%Q).
  { assert (H : (2 ^ (e - 53) <= 2 ^ (-10))%Q) by (apply pow2_le; lia).
    exact H. }
  split; [lra|]. split; [lra|].
  intros j Hj. apply (nearestPositive_exact q (j * 2 ^ (51 - e)) Hq). fold e.
  assert (Ep : (2 ^ (e - 52) == / inject_Z (2 * 2 ^ (51 - e)))%Q).
  { replace (e - 52) with (- (52 - e)) by lia. rewrite Qpower_opp.
    rewrite pow2_Z by lia. replace (52 - e) with (Z.succ (51 - e)) by lia.
    rewrite Z.pow_succ_r by lia. reflexivity. }
  rewrite Ep, Hqz.
  assert (Hp : 0 < 2 ^ (51 - e)) by (apply Z.pow_pos_nonneg; lia).
  assert (Hpq : ~ (inject_Z (2 * 2 ^ (51 - e)) == 0)%Q).
  { intros H0. assert (H1 : (0 < inject_Z (2 * 2 ^ (51 - e)))%Q)
      by (rewrite <- (Zlt_Qlt 0); lia).
    rewrite H0 in H1. discriminate. }
  assert (Ez : (inject_Z z == inject_Z 500 * inject_Z j)%Q).
  { rewrite <- inject_Z_mult. apply inject_Z_injective. lia. }
  rewrite Ez, !inject_Z_mult. change (inject_Z 500) with 500%Q.
  change (inject_Z 2) with 2%Q. field.
  intros H0. apply Hpq. rewrite inject_Z_mult. change (inject_Z 2) with 2%Q.
  rewrite H0. reflexivity.
Qed.

Lemma rounds_alike (q f : Q) (z : Z) :
  (q * 1000 == inject_Z z)%Q ->
  (f - q <= 1 # 1024)%Q -> (q - f <= 1 # 1024)%Q ->
  (forall j, 2 * z = 1000 * j -> (f == q)%Q) ->
  JS.Math_round f = JS.Math_round q /\ JS.Math_round (- f) = JS.Math_round (- q).
Proof.
  intros Hz E1 E2 Htie. unfold JS.Math_round. split.
  - set (k := Qfloor (q + (1 # 2))).
    pose proof (Qfloor_le (q + (1 # 2))) as Hlo.
    pose proof (Qlt_floor (q + (1 # 2))) as Hhi. fold k in Hlo, Hhi.
    rewrite inject_Z_plus in Hhi. change (inject_Z 1) with 1%Q in Hhi.
    assert (A : k * 1000 <= z + 500).
    { rewrite Zle_Qle, inject_Z_plus, inject_Z_mult, <- Hz.
      change (inject_Z 1000) with 1000%Q. change (inject_Z 500) with 500%Q. lra. }
    assert (B : z + 500 < (k + 1) * 1000).
    { rewrite Zlt_Qlt, inject_Z_plus, inject_Z_mult, inject_Z_plus, <- Hz.
      change (inject_Z 1000) with 1000%Q. change (inject_Z 500) with 500%Q.
      change (inject_Z 1) with 1%Q. lra. }
    apply Qfloor_unique.
    + destruct (Z.eq_dec (z + 500) (k * 1000)) as [T|T].
      * rewrite (Htie (2 * k - 1)) by lia. exact Hlo.
      * assert (A' : k * 1000 + 1 <= z + 500) by lia.
        rewrite Zle_Qle, !inject_Z_plus, inject_Z_mult, <- Hz in A'.
        change (inject_Z 1000) with 1000%Q in A'.
        change (inject_Z 500) with 500%Q in A'.
        change (inject_Z 1) with 1%Q in A'. lra.
    + assert (B' : z + 500 <= (k + 1) * 1000 - 1) by lia.
      rewrite Zle_Qle in B'. unfold Z.sub in B'.
      rewrite !inject_Z_plus, inject_Z_mult, inject_Z_plus, !inject_Z_opp, <- Hz in B'.
      change (inject_Z 1000) with 1000%Q in B'.
      change (inject_Z 500) with 500%Q in B'.
      change (inject_Z 1) with 1%Q in B'.
      rewrite inject_Z_plus. change (inject_Z 1) with 1%Q. lra.
  - set (k := Qfloor (- q + (1 # 2))).
    pose proof (Qfloor_le (- q + (1 # 2))) as Hlo.
    pose proof (Qlt_floor (- q + (1 # 2))) as Hhi. fold k in Hlo, Hhi.
    rewrite inject_Z_plus in Hhi. change (inject_Z 1) with 1%Q in Hhi.
    assert (A : k * 1000 <= - z + 500).
    { rewrite Zle_Qle, inject_Z_plus, inject_Z_mult, inject_Z_opp, <- Hz.
      change (inject_Z 1000) with 1000%Q. change (inject_Z 500) with 500%Q. lra. }
    assert (B : - z + 500 < (k + 1) * 1000).
    { rewrite Zlt_Qlt, inject_Z_plus, inject_Z_mult, inject_Z_plus, inject_Z_opp, <- Hz.
      change (inject_Z 1000) with 1000%Q. change (inject_Z 500) with 500%Q.
      change (inject_Z 1) with 1%Q. lra. }
    apply Qfloor_unique.
    + destruct (Z.eq_dec (- z + 500) (k * 1000)) as [T|T].
      * rewrite (Htie (1 - 2 * k)) by lia. exact Hlo.
      * assert (A' : k * 1000 + 1 <= - z + 500) by lia.
        rewrite Zle_Qle, !inject_Z_plus, inject_Z_mult, inject_Z_opp, <- Hz in A'.
        change (inject_Z 1000) with 1000%Q in A'.
        change (inject_Z 500) with 500%Q in A'.
        change (inject_Z 1) with 1%Q in A'. lra.
    + assert (B' : - z + 500 <= (k + 1) * 1000 - 1) by lia.
      rewrite Zle_Qle in B'. unfold Z.sub in B'.
      rewrite !inject_Z_plus, inject_Z_mult, inject_Z_plus, !inject_Z_opp, <- Hz in B'.
      change (inject_Z 1000) with 1000%Q in B'.
      change (inject_Z 500) with 500%Q in B'.
      change (inject_Z 1) with 1%Q in B'.
      rewrite inject_Z_plus. change (inject_Z 1) with 1%Q. lra.
Qed.

Lemma Math_round_comp (a b : Q) : (a == b)%Q -> JS.Math_round a = JS.Math_round b.
Proof. intros E. unfold JS.Math_round. apply Qfloor_comp. now rewrite E. Qed.

(** For a span that is a safe integer, [Math.round] of the double nearest
    to [ms / 1000] is the rounding of the quotient itself. *)
Lemma duration_rounds_alike (ms : Z) :
  Z.abs ms < 2 ^ 53 ->
  JS.Math_round (Double.div (inject_Z ms) 1000) = JS.Math_round (inject_Z ms / 1000).
Proof.
  intros Hms. unfold Double.div. destruct ms as [|p|p].
  - reflexivity.
  - change (Double.nearest (inject_Z (Z.pos p) / 1000))
      with (Double.nearestPositive (inject_Z (Z.pos p) / 1000)).
    destruct (near_milliseconds (inject_Z (Z.pos p) / 1000) (Z.pos p))
      as (E1 & E2 & Htie); [lia|reflexivity|].
    apply (rounds_alike _ _ (Z.pos p)); try assumption. field.
  - change (Double.nearest (inject_Z (Z.neg p) / 1000))
      with (- Double.nearestPositive (- (inject_Z (Z.neg p) / 1000)))%Q.
    assert (Hq : (- (inject_Z (Z.neg p) / 1000) == inject_Z (Z.pos p) / 1000)%Q).
    { change (inject_Z (Z.neg p)) with (- inject_Z (Z.pos p))%Q. field. }
    destruct (near_milliseconds (- (inject_Z (Z.neg p) / 1000)) (Z.pos p))
      as (E1 & E2 & Htie); [lia|exact Hq|].
    assert (Hz : (- (inject_Z (Z.neg p) / 1000) * 1000 == inject_Z (Z.pos p))%Q)
      by (rewrite Hq; field).
    destruct (rounds_alike _ _ (Z.pos p) Hz E1 E2 Htie) as [_ R].
    rewrite R. apply Math_round_comp. ring.
Qed.

Lemma seconds_positive_double (ms : Z) :
  0 < ms -> JS.ltb 0 (Double.div (inject_Z ms) 1000) = true.
Proof.
  intros H. unfold JS.ltb. apply negb_true_iff.
  destruct (Qle_bool (Double.div (inject_Z ms) 1000) 0) eqn:E; [|reflexivity].
  apply Qle_bool_iff in E.
  assert (Hq : (0 < inject_Z ms / 1000)%Q).
  { apply Qlt_shift_div_l; [reflexivity|]. rewrite Qmult_0_l.
    now rewrite <- (Zlt_Qlt 0). }
  pose proof (nearest_pos _ Hq) as Hp. unfold Double.div in E. lra.
Qed.

(** C7. [avgWpm] is the word count divided by the speaking time (the sum of
    the segments' own durations) in seconds, times 60, rounded;
    [fillerPerMinute] is the filler count divided by the wall-clock time
    (end of the last segment minus start of the first) in seconds, times
    60, to one decimal; each quotient and product is the double one of the
    code.  The two times differ as soon as there is silence between
    segments: for two one-second segments two seconds apart, four words
    and one filler give 120 words per minute over 2 s but 15 fillers per
    minute over 4 s.  In doubles, fourteen words and seven fillers in
    4480 ms give 187 words and 93.7 fillers per minute, where the exact
    quotients 187.5 and 93.75 would round to 188 and 93.8. *)
Theorem metrics_use_two_denominators (segments : list SegmentAnalysis.t)
  (pauses : list Pause.t) (draws : Draws) :
  let m := calculateMetrics segments pauses draws in
  let words :=
    num (list_sum (map (fun s => List.length (SegmentAnalysis.tokens s)) segments)) in
  let speakingMs :=
    sumZ (map (fun s => SegmentAnalysis.endMs s - SegmentAnalysis.startMs s)
              segments) in
  (0 < speakingMs ->
     Metrics.avgWpm m
     = inject_Z (JS.Math_round
                   (Double.mul
                      (Double.div words (Double.div (inject_Z speakingMs) 1000))
                      60))) /\
  (forall first final,
     hd_error segments = Some first -> JS.pop segments = Some final ->
     let wallClockMs := SegmentAnalysis.endMs final - SegmentAnalysis.startMs first in
     0 < wallClockMs ->
     Metrics.fillerPerMinute m
     = JS.roundTo 1
         (Double.mul
            (Double.div (Metrics.fillerCount m)
               (Double.div (inject_Z wallClockMs) 1000))
            60)) /\
  (speakingDurationMs twoSegments = 2000 /\
   totalDurationMs twoSegments = 4000 /\
   Metrics.avgWpm (calculateMetrics twoSegments pauses draws) = inject_Z 120 /\
   Metrics.fillerPerMinute (calculateMetrics twoSegments pauses draws) = (150 # 10)%Q) /\
  (speakingDurationMs fourteenWords = 4480 /\
   totalDurationMs fourteenWords = 4480 /\
   Metrics.totalWords (calculateMetrics fourteenWords pauses draws) = inject_Z 14 /\
   Metrics.fillerCount (calculateMetrics fourteenWords pauses draws) = inject_Z 7 /\
   Metrics.avgWpm (calculateMetrics fourteenWords pauses draws) = inject_Z 187 /\
   Metrics.fillerPerMinute (calculateMetrics fourteenWords pauses draws) = (937 # 10)%Q /\
   JS.Math_round (14 / (4480 / 1000) * 60)%Q = 188 /\
   JS.roundTo 1 (7 / (4480 / 1000) * 60)%Q = (938 # 10)%Q).
Proof.
  cbv zeta. split; [|split; [|split]].
  - intros Hpos. unfold calculateMetrics. cbn [Metrics.avgWpm].
    unfold speakingDurationMs, totalWords.
    rewrite fold_left_add_Z, fold_left_add_nat. cbn [Z.add Nat.add].
    apply Z.ltb_lt in Hpos. now rewrite Hpos.
  - intros first final Hfirst Hfinal Hpos.
    unfold calculateMetrics. cbn [Metrics.fillerPerMinute Metrics.fillerCount].
    assert (Hms : totalDurationMs segments
                  = SegmentAnalysis.endMs final - SegmentAnalysis.startMs first).
    { unfold totalDurationMs.
      destruct segments as [|s r]; [discriminate|].
      rewrite Hfinal. cbn in Hfirst. now injection Hfirst as ->. }
    rewrite Hms, (seconds_positive_double _ Hpos). reflexivity.
  - repeat split; vm_compute; reflexivity.
  - repeat split; vm_compute; reflexivity.
Qed.

(** ** The local fallback for the highlights *)

Lemma Qle_bool_total (a b : Q) : Qle_bool a b = false -> Qle_bool b a = true.
Proof.
  intros H. apply Qle_bool_iff. apply Qlt_le_weak, Qnot_le_lt.
  intros Hle. apply Qle_bool_iff in Hle. congruence.
Qed.

Lemma paceFeedback_one `{Runtime} (metrics : AnyMetrics.t) :
  AnyMetrics.avgWpm metrics <> NaN ->
  exists h,
    paceFeedback metrics = [h] /\
    In (CoachingHighlight.title h)
       ["Good speaking pace"; "Slow down your pace"; "Speed up your pace"].
Proof.
  unfold paceFeedback. cbv zeta.
  destruct (AnyMetrics.avgWpm metrics) as [| | |w]; intros Hnan.
  - now contradiction Hnan.
  - eexists. split; [reflexivity|]. cbn. auto.
  - eexists. split; [reflexivity|]. cbn. auto.
  - unfold atMost, lessThan, JS.leb, JS.ltb.
    destruct (Qle_bool 110 w) eqn:E1; [destruct (Qle_bool w 160) eqn:E2|];
      cbn [andb negb].
    + eexists. split; [reflexivity|]. cbn. auto.
    + eexists. split; [reflexivity|]. cbn. auto.
    + apply Qle_bool_total in E1.
      assert (E3 : Qle_bool w 160 = true).
      { apply Qle_bool_iff. apply Qle_bool_iff in E1.
        eapply Qle_trans; [exact E1|]. discriminate. }
      rewrite E3. cbn [negb]. eexists. split; [reflexivity|]. cbn. auto.
Qed.

(** C10 (as the code has it). For every [Metrics] argument whose [avgWpm]
    is not NaN, finite or infinite, and so for every [Metrics] that
    [calculateMetrics] has computed, the local fallback generator returns
    a list that is not empty: the three bands of [avgWpm] (within 110 to
    160, above 160, below 110) leave no gap among the numbers, so its
    first highlight is one of the three on pace, whatever the issues
    passed and whatever the enrichment calls did. *)
Theorem generateFallbackHighlights_nonempty `{Runtime} (metrics : AnyMetrics.t)
  (issues : list Issue.t) :
  AnyMetrics.avgWpm metrics <> NaN ->
  exists h rest,
    generateFallbackHighlights metrics issues = h :: rest /\
    In (CoachingHighlight.title h)
       ["Good speaking pace"; "Slow down your pace"; "Speed up your pace"].
Proof.
  intros Hnan. unfold generateFallbackHighlights.
  destruct (paceFeedback_one metrics Hnan) as (h & -> & Hin).
  exists h. cbv zeta. cbn [app].
  destruct (_ && _); [destruct (sortIssues issues)|];
    eexists; (split; [reflexivity|exact Hin]).
Qed.

Lemma generateFallbackHighlights_nonempty_witness :
  (exists h rest,
     @generateFallbackHighlights integerRuntime endlessPace [] = h :: rest /\
     In (CoachingHighlight.title h)
        ["Good speaking pace"; "Slow down your pace"; "Speed up your pace"]) /\
  (forall m : Metrics.t,
   exists h rest,
     @generateFallbackHighlights integerRuntime m [] = h :: rest /\
     In (CoachingHighlight.title h)
        ["Good speaking pace"; "Slow down your pace"; "Speed up your pace"]).
Proof.
  split.
  - apply (@generateFallbackHighlights_nonempty integerRuntime endlessPace []).
    discriminate.
  - intros m.
    apply (@generateFallbackHighlights_nonempty integerRuntime (computed m) []).
    discriminate.
Defined.

(** C10 as stated fails: the third band is tested too ([avgWpm < 110]),
    and every comparison with NaN is false.  With [avgWpm] NaN, a filler
    rate of 2.5 and no issues, no branch pushes a highlight and the list
    is empty. *)
Lemma generateFallbackHighlights_empty_for_NaN :
  AnyMetrics.avgWpm paceless = NaN /\
  AnyMetrics.fillerPerMinute paceless = Finite (5 # 2) /\
  (forall rt : Runtime, @generateFallbackHighlights rt paceless [] = []).
Proof. split; [reflexivity|]. split; [reflexivity|]. intros rt. reflexivity. Qed.

(** ** Assembly *)

Lemma PassA_durations (blocks : list (list Token.t)) :
  forall s pauses, PassA s blocks pauses ->
    Forall (fun p => Pause.durationMs p = Pause.end_ p - Pause.start p) pauses.
Proof.
  induction blocks as [|b bs IH]; intros s pauses H.
  - cbn in H. subst. constructor.
  - cbn [PassA] in H. destruct H as (_ & _ & H).
    destruct bs as [|b' bs']; [subst; constructor|].
    destruct (JS.pop b), (hd_error b'), pauses as [|p ps]; try contradiction.
    destruct H as (_ & -> & H). constructor; [reflexivity|]. eapply IH; eauto.
Qed.

Lemma splitIntoSegmentsDynamic_shape (tokens : list Token.t) :
  exists s,
    PassA s (fst (splitIntoSegmentsDynamic tokens))
            (snd (splitIntoSegmentsDynamic tokens)) /\
    StartsAt s (fst (splitIntoSegmentsDynamic tokens)) /\
    List.concat (fst (splitIntoSegmentsDynamic tokens)) = tokens.
Proof.
  destruct tokens as [|first rest].
  - exists 0. cbn. repeat split. intros b f Hb. discriminate.
  - exists (Token.start_ms first). apply splitIntoSegmentsDynamic_PassA.
Qed.

Lemma analyzeSegment_ok `{Runtime} (tokens : list Token.t) (i : nat)
  (conversationId : string) :
  tokens <> [] ->
  exists s, analyzeSegment tokens i conversationId = Ok s /\ Spans s tokens.
Proof.
  intros Hne. unfold analyzeSegment.
  destruct tokens as [|first rest]; [contradiction|].
  destruct (JS.pop (first :: rest)) as [final|] eqn:Ep.
  - eexists. split; [reflexivity|]. split; [reflexivity|].
    exists first, final. repeat split. exact Ep.
  - unfold JS.pop in Ep. destruct (rev (first :: rest)) eqn:Er; [|discriminate].
    apply (f_equal (@rev _)) in Er. rewrite rev_involutive in Er. discriminate.
Qed.

Lemma analyzeFrom_ok `{Runtime} (conversationId : string)
  (pieces : list (list Token.t)) :
  Forall (fun piece => piece <> []) pieces ->
  forall g, exists l,
    analyzeFrom g conversationId pieces = Ok l /\ Forall2 Spans l pieces.
Proof.
  induction 1 as [|piece rest Hne _ IH]; intros g.
  - exists []. split; [reflexivity|constructor].
  - destruct (analyzeSegment_ok piece g conversationId Hne) as (s & Hs & Hspan).
    destruct (IH (S g)) as (l & Hl & Hall).
    exists (s :: l). cbn [analyzeFrom]. rewrite Hs. cbn [bind]. rewrite Hl.
    split; [reflexivity|]. now constructor.
Qed.

Lemma splitBySentences_pieces (tokens : list Token.t) :
  List.concat (splitBySentences tokens 4) = tokens /\
  (tokens <> [] ->
   Forall (fun piece => piece <> []) (splitBySentences tokens 4)).
Proof.
  destruct (splitBySentences_shape tokens)
    as (new & rest & Hcat & Hclosed & _ & _ & ->).
  assert (Hnew : Forall (fun piece : list Token.t => piece <> []) new).
  { eapply Forall_impl; [|exact Hclosed]. intros a. apply Closed_nonempty. }
  destruct rest as [|r rs].
  - rewrite app_nil_r in Hcat. destruct new as [|s0 new'].
    + cbn in Hcat. subst tokens. split; [reflexivity|].
      intros Hne. now contradiction Hne.
    + split; [exact Hcat|]. intros _. exact Hnew.
  - split; [rewrite concat_app; cbn; now rewrite app_nil_r|].
    intros _. apply Forall_app. split; [exact Hnew|].
    constructor; [discriminate|constructor].
Qed.

Lemma contentSegments_nonempty (blocks : list (list Token.t)) :
  Forall (fun b => b <> []) blocks ->
  Forall (fun piece => piece <> [])
         (List.concat (map (fun b => splitBySentences b 4) blocks)).
Proof.
  induction 1 as [|b bs Hb _ IH]; cbn [map List.concat]; [constructor|].
  apply Forall_app. split; [|exact IH].
  now apply splitBySentences_pieces.
Qed.

(** The handler's steps 0 to 3 never throw. *)
Lemma buildSegments_total `{Runtime} (conversationId : string)
  (tokens : list Token.t) :
  exists analyzed,
    analyzeFrom 0 conversationId
      (List.concat
         (map (fun b => splitBySentences b 4)
              (fst (splitIntoSegmentsDynamic (addPunctuationToTokens tokens)))))
    = Ok analyzed /\
    Forall2 Spans analyzed
      (List.concat
         (map (fun b => splitBySentences b 4)
              (fst (splitIntoSegmentsDynamic (addPunctuationToTokens tokens))))) /\
    buildSegments conversationId tokens =
      Ok (interleave conversationId 0
            (map (fun b => splitBySentences b 4)
                 (fst (splitIntoSegmentsDynamic (addPunctuationToTokens tokens))))
            analyzed
            (snd (splitIntoSegmentsDynamic (addPunctuationToTokens tokens))),
          analyzed,
          snd (splitIntoSegmentsDynamic (addPunctuationToTokens tokens))).
Proof.
  destruct (splitIntoSegmentsDynamic_shape (addPunctuationToTokens tokens))
    as (s & HP & _ & _).
  assert (Hne : Forall (fun b : list Token.t => b <> [])
                  (fst (splitIntoSegmentsDynamic (addPunctuationToTokens tokens)))).
  { apply Forall_forall. intros b Hb. eapply PassA_nonempty; eauto. }
  destruct (analyzeFrom_ok conversationId _ (contentSegments_nonempty _ Hne) 0%nat)
    as (analyzed & Ha & Hspans).
  exists analyzed. split; [exact Ha|]. split; [exact Hspans|].
  unfold buildSegments, splitIntoSegments.
  destruct (splitIntoSegmentsDynamic (addPunctuationToTokens tokens)) as [blocks ps].
  cbn [fst snd] in *. rewrite Ha. reflexivity.
Qed.

Lemma In_firstn {A : Type} (n : nat) (l : list A) (x : A) :
  In x (firstn n l) -> In x l.
Proof.
  intros Hin. rewrite <- (firstn_skipn n l). apply in_or_app. now left.
Qed.

Lemma In_skipn {A : Type} (n : nat) (l : list A) (x : A) :
  In x (skipn n l) -> In x l.
Proof.
  intros Hin. rewrite <- (firstn_skipn n l). apply in_or_app. now right.
Qed.

Lemma interleave_In `{Runtime} (conversationId : string)
  (perBlock : list (list (list Token.t))) (pauses : list Pause.t) :
  forall blockIdx analyzed s,
    In s (interleave conversationId blockIdx perBlock analyzed pauses) ->
    In s analyzed \/
    exists k p, nth_error pauses k = Some p /\ s = pauseSegment conversationId k p.
Proof.
  induction perBlock as [|cs rest IH]; intros blockIdx analyzed s Hin;
    [contradiction|].
  cbn [interleave] in Hin.
  apply in_app_or in Hin. destruct Hin as [Hin|Hin].
  - left. eapply In_firstn; eauto.
  - apply in_app_or in Hin. destruct Hin as [Hin|Hin].
    + destruct (nth_error pauses blockIdx) as [p|] eqn:Ep; [|contradiction].
      destruct Hin as [<-|[]]. right. eauto.
    + apply IH in Hin. destruct Hin as [Hin|Hin]; [|now right].
      left. eapply In_skipn; eauto.
Qed.

(** C9. Every pause segment of the assembled list has no tokens and
    exactly one tag; the tag records the duration of the pause it stands
    for, which is the length of the segment, and its severity is [medium]
    exactly when that duration exceeds 4000 ms and [low] exactly when it
    does not. *)
Theorem pause_segment_has_one_tag `{Runtime} (conversationId : string)
  (tokens : list Token.t)
  (allSegments speechSegments : list SegmentAnalysis.t)
  (pauses : list Pause.t) (s : SegmentAnalysis.t) :
  buildSegments conversationId tokens = Ok (allSegments, speechSegments, pauses) ->
  In s allSegments -> SegmentAnalysis.kind s = pause ->
  SegmentAnalysis.tokens s = [] /\
  exists tag p,
    SegmentAnalysis.tags s = [tag] /\
    In p pauses /\
    Tag.data tag = Duration (Pause.durationMs p) /\
    Pause.durationMs p = SegmentAnalysis.endMs s - SegmentAnalysis.startMs s /\
    (Tag.severity tag = medium <-> 4000 < Pause.durationMs p) /\
    (Tag.severity tag = low <-> Pause.durationMs p <= 4000).
Proof.
  intros Hbuild Hin Hkind.
  destruct (buildSegments_total conversationId tokens)
    as (analyzed & _ & Hspans & Heq).
  rewrite Heq in Hbuild. injection Hbuild as <- <- <-.
  apply interleave_In in Hin. destruct Hin as [Hin|(k & p & Hk & ->)].
  - exfalso.
    assert (Hsp : Forall (fun x => SegmentAnalysis.kind x = speech) analyzed).
    { clear -Hspans. induction Hspans as [|x y l l' [Hx _] _ IH]; constructor; auto. }
    rewrite Forall_forall in Hsp. specialize (Hsp s Hin). congruence.
  - split; [reflexivity|].
    destruct (splitIntoSegmentsDynamic_shape (addPunctuationToTokens tokens))
      as (s0 & HP & _ & _).
    pose proof (PassA_durations _ _ _ HP) as Hd.
    rewrite Forall_forall in Hd.
    assert (Hp : In p (snd (splitIntoSegmentsDynamic (addPunctuationToTokens tokens))))
      by (eapply nth_error_In; eauto).
    eexists _, p. split; [reflexivity|]. split; [exact Hp|].
    split; [reflexivity|]. split; [exact (Hd p Hp)|].
    cbn [Tag.severity].
    destruct (Z.ltb_spec 4000 (Pause.durationMs p)); split; split;
      intros; try lia; try reflexivity; try discriminate.
Qed.

Lemma pause_segment_has_one_tag_witness :
  timeline (@buildSegments integerRuntime "c" specExample)
    = [(0, 200, speech); (200, 2500, pause); (2500, 3100, speech)] /\
  SegmentAnalysis.tokens
    (@pauseSegment integerRuntime "c" 0 (Pause.mk 200 2500 2300)) = [].
Proof.
  split; [vm_compute; reflexivity|].
  destruct (@buildSegments integerRuntime "c" specExample)
    as [[[allSegments speechSegments] pauses]|e] eqn:Hb.
  - refine (proj1 (@pause_segment_has_one_tag integerRuntime "c" specExample
                     allSegments speechSegments pauses
                     (@pauseSegment integerRuntime "c" 0 (Pause.mk 200 2500 2300))
                     Hb _ eq_refl)).
    vm_compute in Hb. injection Hb as <- <- <-. right. left. reflexivity.
  - vm_compute in Hb. discriminate.
Defined.

(** ** The timeline of the assembled segments *)

Lemma Ordered_app (l1 l2 : list Token.t) :
  Ordered (l1 ++ l2) ->
  Ordered l1 /\ Ordered l2 /\
  (forall a b, JS.pop l1 = Some a -> hd_error l2 = Some b ->
     Token.end_ms a <= Token.start_ms b).
Proof.
  induction l1 as [|t r IH]; intros H.
  - cbn in *. repeat split; auto. intros a b Ha. discriminate.
  - cbn [app Ordered] in H. destruct H as (Ht & Hnext & Hrest).
    destruct (IH Hrest) as (H1 & H2 & H3).
    split; [|split; [exact H2|]].
    + cbn [Ordered]. split; [exact Ht|]. split; [|exact H1].
      destruct r; [exact I|exact Hnext].
    + intros a b Ha Hb. destruct r as [|t' r'].
      * cbn in Ha. injection Ha as <-. cbn in Hnext.
        destruct l2; [discriminate|]. cbn in Hb. now injection Hb as <-.
      * rewrite pop_cons in Ha by discriminate. eauto.
Qed.

Lemma Ordered_span (l : list Token.t) :
  forall first final,
    Ordered l -> hd_error l = Some first -> JS.pop l = Some final ->
    Token.start_ms first <= Token.end_ms final.
Proof.
  induction l as [|t r IH]; intros first final H Hf Hl; [discriminate|].
  cbn in Hf. injection Hf as <-.
  cbn [Ordered] in H. destruct H as (Ht & Hnext & Hrest).
  destruct r as [|t' r'].
  - cbn in Hl. now injection Hl as <-.
  - rewrite pop_cons in Hl by discriminate.
    specialize (IH t' final Hrest eq_refl Hl). lia.
Qed.

Lemma hd_error_app_nonempty {A : Type} (l1 l2 : list A) :
  l1 <> [] -> hd_error (l1 ++ l2) = hd_error l1.
Proof. now destruct l1. Qed.

Lemma pop_nonempty {A : Type} (l : list A) :
  l <> [] -> exists x, JS.pop l = Some x.
Proof.
  intros Hne. unfold JS.pop. destruct (rev l) as [|x r] eqn:E; [|eauto].
  apply (f_equal (@rev A)) in E. rewrite rev_involutive in E. now subst.
Qed.

Lemma Spans_nonempty (s : SegmentAnalysis.t) (tokens : list Token.t) :
  Spans s tokens -> tokens <> [].
Proof. intros (_ & f & g & Hf & _) ->. discriminate. Qed.

Lemma Chain_app (l1 l2 : list SegmentAnalysis.t) :
  Chain l1 -> Chain l2 ->
  (forall a b, JS.pop l1 = Some a -> hd_error l2 = Some b -> Adjacent a b) ->
  Chain (l1 ++ l2).
Proof.
  induction l1 as [|x r IH]; intros H1 H2 Hadj; [exact H2|].
  destruct r as [|y r'].
  - cbn [app]. destruct l2 as [|b l2']; [exact I|].
    cbn [Chain]. split; [apply Hadj; reflexivity|exact H2].
  - cbn [app Chain] in H1 |- *. destruct H1 as [Hxy Hr]. split; [exact Hxy|].
    apply IH; [exact Hr|exact H2|].
    intros a b Ha Hb. apply Hadj; [|exact Hb].
    rewrite pop_cons by discriminate. exact Ha.
Qed.

Lemma Chain_nth (l : list SegmentAnalysis.t) :
  forall k a b,
    Chain l -> nth_error l k = Some a -> nth_error l (S k) = Some b ->
    Adjacent a b.
Proof.
  induction l as [|x r IH]; intros k a b H Ha Hb; [destruct k; discriminate|].
  destruct r as [|y r']; [destruct k as [|[|k]]; discriminate|].
  cbn [Chain] in H. destruct H as [Hxy Hr].
  destruct k as [|k].
  - cbn in Ha, Hb. injection Ha as <-. injection Hb as <-. exact Hxy.
  - cbn [nth_error] in Ha, Hb. eapply IH; eauto.
Qed.

(** The analysed segments of consecutive pieces of an ordered token list. *)
Lemma pieces_chain (segs : list SegmentAnalysis.t) (pieces : list (list Token.t)) :
  Forall2 Spans segs pieces -> Ordered (List.concat pieces) ->
  Chain segs /\
  Forall (fun s => SegmentAnalysis.kind s = speech /\
                   SegmentAnalysis.startMs s <= SegmentAnalysis.endMs s) segs /\
  (forall s0 first, hd_error segs = Some s0 ->
     hd_error (List.concat pieces) = Some first ->
     SegmentAnalysis.startMs s0 = Token.start_ms first) /\
  (forall s1 final, JS.pop segs = Some s1 ->
     JS.pop (List.concat pieces) = Some final ->
     SegmentAnalysis.endMs s1 = Token.end_ms final).
Proof.
  induction 1 as [|s piece segs pieces Hs Hall IH]; intros Hord.
  - cbn. repeat split; auto; intros; discriminate.
  - cbn [List.concat] in Hord |- *.
    destruct (Ordered_app _ _ Hord) as (Hp & Hrest & Hbound).
    destruct (IH Hrest) as (Hchain & Hwf & Hhd & Hlast).
    pose proof (Spans_nonempty _ _ Hs) as Hne.
    destruct Hs as (Hk & f & g & Hf & Hg & Hsf & Hsg).
    pose proof (Ordered_span _ _ _ Hp Hf Hg) as Hfg.
    split; [|split; [|split]].
    + destruct Hall as [|s' piece' segs' pieces' Hs' Hall']; [exact I|].
      cbn [Chain]. split; [|exact Hchain].
      destruct Hs' as (Hk' & f' & g' & Hf' & Hg' & Hsf' & Hsg').
      assert (Hb : Token.end_ms g <= Token.start_ms f').
      { apply Hbound; [exact Hg|]. cbn [List.concat].
        rewrite hd_error_app_nonempty; [exact Hf'|]. intros ->. discriminate. }
      unfold Adjacent. rewrite Hk, Hk'.
      split; [lia|]. split; [lia|]. intros [?|?]; discriminate.
    + constructor; [split; [exact Hk|lia]|exact Hwf].
    + intros s0 first Hs0 Hfirst. cbn in Hs0. injection Hs0 as <-.
      rewrite hd_error_app_nonempty in Hfirst by exact Hne. congruence.
    + intros s1 final Hs1 Hfinal.
      destruct Hall as [|s' piece' segs' pieces' Hs' Hall'].
      * cbn in Hs1. injection Hs1 as <-. cbn [List.concat] in Hfinal.
        rewrite app_nil_r in Hfinal. congruence.
      * rewrite pop_cons in Hs1 by discriminate.
        apply (Hlast s1 final Hs1).
        rewrite pop_app in Hfinal; [exact Hfinal|].
        pose proof (Spans_nonempty _ _ Hs') as Hne'.
        cbn [List.concat]. destruct piece'; [contradiction|discriminate].
Qed.

Lemma firstn_skipn_exact {A : Type} (l1 l2 : list A) (n : nat) :
  List.length l1 = n ->
  firstn n (l1 ++ l2) = l1 /\ skipn n (l1 ++ l2) = l2.
Proof.
  intros <-. induction l1 as [|x r IH]; cbn; [now split|].
  destruct IH as [-> ->]. now split.
Qed.

Lemma nth_error_length_app {A : Type} (pre ps : list A) :
  nth_error (pre ++ ps) (List.length pre) = hd_error ps.
Proof.
  induction pre as [|x r IH]; cbn; [now destruct ps|exact IH].
Qed.

Lemma interleave_chain `{Runtime} (conversationId : string)
  (blocks : list (list Token.t)) :
  forall s pre ps segs,
    PassA s blocks ps -> Ordered (List.concat blocks) ->
    Forall2 Spans segs
      (List.concat (map (fun b => splitBySentences b 4) blocks)) ->
    let out :=
      interleave conversationId (List.length pre)
        (map (fun b => splitBySentences b 4) blocks) segs (pre ++ ps) in
    Chain out /\
    (forall s0 first, hd_error out = Some s0 ->
       hd_error (List.concat blocks) = Some first ->
       SegmentAnalysis.startMs s0 = Token.start_ms first) /\
    (forall s1 final, JS.pop out = Some s1 ->
       JS.pop (List.concat blocks) = Some final ->
       SegmentAnalysis.endMs s1 = Token.end_ms final) /\
    (blocks <> [] -> out <> []).
Proof.
  induction blocks as [|b bs IH]; intros s pre ps segs HP Hord Hsegs out.
  - subst out. cbn. repeat split; auto; intros; try discriminate.
  - cbn [PassA] in HP. destruct HP as (Hb & _ & HP).
    cbn [map List.concat] in Hsegs, Hord.
    destruct (Ordered_app _ _ Hord) as (Hordb & Hordbs & Hbound).
    destruct (splitBySentences_pieces b) as (Hcat & Hpieces).
    specialize (Hpieces Hb).
    apply Forall2_app_inv_r in Hsegs.
    destruct Hsegs as (segs1 & segs2 & H1 & H2 & ->).
    pose proof (Forall2_length H1) as Hlen.
    destruct (firstn_skipn_exact segs1 segs2 _ Hlen) as (Hfirst & Hskip).
    assert (Hordp : Ordered (List.concat (splitBySentences b 4)))
      by (now rewrite Hcat).
    destruct (pieces_chain _ _ H1 Hordp) as (Hc1 & Hwf1 & Hhd1 & Hlast1).
    rewrite Hcat in Hhd1, Hlast1.
    assert (Hsegs1 : segs1 <> []).
    { intros ->. destruct (splitBySentences b 4) as [|x l] eqn:E.
      - cbn in Hcat. congruence.
      - inversion H1. }
    destruct (pop_nonempty segs1 Hsegs1) as (z1 & Hz1).
    destruct (pop_nonempty b Hb) as (g & Hg).
    pose proof (Hlast1 z1 g Hz1 Hg) as Hz1g.
    assert (Hz1wf : SegmentAnalysis.startMs z1 <= SegmentAnalysis.endMs z1).
    { rewrite Forall_forall in Hwf1. apply Hwf1.
      unfold JS.pop in Hz1. destruct (rev segs1) as [|x r] eqn:E; [discriminate|].
      injection Hz1 as ->. apply in_rev. rewrite E. now left. }
    subst out. cbn [interleave map]. rewrite Hfirst, Hskip, nth_error_length_app.
    destruct bs as [|b' bs'].
    + subst ps. cbn [hd_error interleave map app List.concat].
      rewrite !app_nil_r.
      split; [exact Hc1|]. split; [|split].
      * intros s0 first Hs0 Hf. eauto.
      * intros s1 final Hs1 Hf. eauto.
      * intros _. exact Hsegs1.
    + destruct (JS.pop b) as [t|] eqn:Ept; [|contradiction].
      destruct (hd_error b') as [t'|] eqn:Eht; [|contradiction].
      destruct ps as [|p ps']; [contradiction|].
      destruct HP as (_ & -> & HP).
      injection Hg as <-.
      assert (Hb' : b' <> []) by (intros ->; discriminate).
      assert (Hhdbs : hd_error (List.concat (b' :: bs')) = Some t').
      { cbn [List.concat]. now rewrite hd_error_app_nonempty. }
      assert (Hpre : (pre ++ pauseBetween t t' :: ps')
                     = ((pre ++ [pauseBetween t t']) ++ ps'))
        by (now rewrite <- app_assoc).
      assert (HSlen : S (List.length pre) = List.length (pre ++ [pauseBetween t t']))
        by (rewrite length_app; cbn; lia).
      rewrite Hpre, HSlen.
      destruct (IH (Token.start_ms t') (pre ++ [pauseBetween t t']) ps' segs2
                   HP Hordbs H2) as (Hc2 & Hhd2 & Hlast2 & Hne2).
      cbv zeta in Hc2, Hhd2, Hlast2, Hne2.
      set (rec := interleave conversationId
                    (List.length (pre ++ [pauseBetween t t']))
                    (map (fun b0 => splitBySentences b0 4) (b' :: bs')) segs2
                    ((pre ++ [pauseBetween t t']) ++ ps')) in *.
      specialize (Hne2 ltac:(discriminate)).
      cbn [hd_error].
      set (ps := pauseSegment conversationId (List.length pre) (pauseBetween t t')).
      assert (Hgap : Token.end_ms t <= Token.start_ms t')
        by (apply Hbound; [reflexivity|exact Hhdbs]).
      split; [|split; [|split]].
      * apply Chain_app; [exact Hc1| |].
        { change ([ps] ++ rec) with (ps :: rec).
          destruct rec as [|r0 rec'] eqn:Erec; [now contradiction Hne2|].
          cbn [Chain]. split; [|exact Hc2].
          pose proof (Hhd2 r0 t' eq_refl Hhdbs) as Hr0.
          unfold Adjacent. subst ps. cbn [pauseSegment SegmentAnalysis.endMs
            SegmentAnalysis.startMs SegmentAnalysis.kind pauseBetween
            Pause.start Pause.end_].
          rewrite Hr0. split; [lia|]. split; [lia|]. intros _. reflexivity. }
        { intros a b0 Ha Hb0. cbn in Hb0. injection Hb0 as <-.
          rewrite Hz1 in Ha. injection Ha as <-.
          unfold Adjacent. subst ps. cbn [pauseSegment SegmentAnalysis.endMs
            SegmentAnalysis.startMs SegmentAnalysis.kind pauseBetween
            Pause.start Pause.end_].
          rewrite Hz1g. split; [lia|]. split; [lia|]. intros _. reflexivity. }
      * intros s0 first Hs0 Hf.
        rewrite hd_error_app_nonempty in Hs0 by exact Hsegs1.
        cbn [List.concat] in Hf.
        rewrite hd_error_app_nonempty in Hf by exact Hb. eauto.
      * intros s1 final Hs1 Hf.
        rewrite pop_app in Hs1 by (destruct rec; discriminate).
        change ([ps] ++ rec) with (ps :: rec) in Hs1.
        rewrite pop_cons in Hs1 by exact Hne2.
        apply (Hlast2 s1 final Hs1).
        change (List.concat (b :: b' :: bs')) with (b ++ List.concat (b' :: bs')) in Hf.
        rewrite pop_app in Hf; [exact Hf|].
        intros E. rewrite E in Hhdbs. discriminate.
      * intros _ E. apply app_eq_nil in E. now destruct E.
Qed.

Lemma map_times_mapiFrom (f : nat -> Token.t -> Token.t) (l : list Token.t) :
  (forall i x, times (f i x) = times x) ->
  forall i, map times (JS.mapiFrom i f l) = map times l.
Proof.
  intros Hf. induction l as [|x r IH]; intros i; cbn; [reflexivity|].
  now rewrite Hf, IH.
Qed.

Lemma punctuateToken_times (tokens : list Token.t) (i : nat) (x : Token.t) :
  times (punctuateToken tokens i x) = times x.
Proof.
  unfold punctuateToken.
  destruct (JS.endsWithAny punctuation (JS.trim (Token.text x))); reflexivity.
Qed.

Lemma addPunctuationToTokens_times (tokens : list Token.t) :
  map times (addPunctuationToTokens tokens) = map times tokens.
Proof.
  unfold addPunctuationToTokens.
  destruct (Nat.eqb (List.length tokens) 0); [reflexivity|].
  apply map_times_mapiFrom. apply punctuateToken_times.
Qed.

Lemma times_eq (x y : Token.t) :
  times x = times y ->
  Token.start_ms x = Token.start_ms y /\ Token.end_ms x = Token.end_ms y.
Proof. unfold times. intros E. split; congruence. Qed.

Lemma Ordered_times (a : list Token.t) :
  forall b, map times a = map times b -> Ordered a -> Ordered b.
Proof.
  induction a as [|x r IH]; intros [|y q] E H; try discriminate; [exact I|].
  cbn [map] in E.
  assert (Exy : times x = times y) by congruence.
  assert (Erq : map times r = map times q) by congruence.
  apply times_eq in Exy. destruct Exy as [Hs He].
  cbn [Ordered] in H |- *. destruct H as (H1 & H2 & H3).
  split; [lia|]. split; [|eapply IH; eauto].
  destruct r as [|x' r'], q as [|y' q']; try discriminate; [exact I|].
  cbn [map] in Erq.
  assert (Ex' : times x' = times y') by congruence.
  apply times_eq in Ex'. lia.
Qed.

Lemma hd_error_map {A B : Type} (f : A -> B) (l : list A) :
  hd_error (map f l) = option_map f (hd_error l).
Proof. now destruct l. Qed.

Lemma pop_map {A B : Type} (f : A -> B) (l : list A) :
  JS.pop (map f l) = option_map f (JS.pop l).
Proof.
  unfold JS.pop. rewrite <- map_rev. now destruct (rev l).
Qed.

(** C2 (as the code has it). For a non-empty token list whose tokens are
    in order and do not overlap, the run builds its segments and the
    assembled list starts at the first token's start, ends at the last
    token's end, and has, for every two consecutive segments, no overlap
    (the first ends no later than the second starts) and starts that do
    not decrease; where one of the two is a pause there is no gap either,
    the first ends exactly where the second starts. *)
Theorem assembled_segments_timeline `{Runtime} (conversationId : string)
  (tokens : list Token.t) (first final : Token.t) :
  hd_error tokens = Some first -> JS.pop tokens = Some final ->
  Ordered tokens ->
  exists allSegments speechSegments pauses,
    buildSegments conversationId tokens
      = Ok (allSegments, speechSegments, pauses) /\
    option_map SegmentAnalysis.startMs (hd_error allSegments)
      = Some (Token.start_ms first) /\
    option_map SegmentAnalysis.endMs (JS.pop allSegments)
      = Some (Token.end_ms final) /\
    forall k a b,
      nth_error allSegments k = Some a -> nth_error allSegments (S k) = Some b ->
      SegmentAnalysis.endMs a <= SegmentAnalysis.startMs b /\
      SegmentAnalysis.startMs a <= SegmentAnalysis.startMs b /\
      (SegmentAnalysis.kind a = pause \/ SegmentAnalysis.kind b = pause ->
       SegmentAnalysis.endMs a = SegmentAnalysis.startMs b).
Proof.
  intros Hfirst Hfinal Hord.
  destruct (buildSegments_total conversationId tokens)
    as (analyzed & _ & Hspans & Heq).
  set (punctuated := addPunctuationToTokens tokens) in *.
  pose proof (addPunctuationToTokens_times tokens) as Htimes.
  fold punctuated in Htimes.
  assert (Hordp : Ordered punctuated)
    by (eapply Ordered_times; [symmetry; exact Htimes|exact Hord]).
  destruct (splitIntoSegmentsDynamic_shape punctuated) as (s & HP & _ & Hcat).
  set (blocks := fst (splitIntoSegmentsDynamic punctuated)) in *.
  set (ps := snd (splitIntoSegmentsDynamic punctuated)) in *.
  rewrite <- Hcat in Hordp.
  destruct (interleave_chain conversationId blocks s [] ps analyzed HP Hordp Hspans)
    as (Hchain & Hhd & Hlast & Hne).
  cbv zeta in Hchain, Hhd, Hlast, Hne. cbn [List.length app] in *.
  set (out := interleave conversationId 0
                (map (fun b => splitBySentences b 4) blocks) analyzed ps) in *.
  assert (Hpf : exists pf, hd_error punctuated = Some pf /\
                           Token.start_ms pf = Token.start_ms first).
  { pose proof (f_equal (@hd_error _) Htimes) as E.
    rewrite !hd_error_map, Hfirst in E.
    destruct (hd_error punctuated) as [pf|]; [|discriminate].
    exists pf. split; [reflexivity|]. cbn in E. unfold times in E. congruence. }
  assert (Hpl : exists pl, JS.pop punctuated = Some pl /\
                           Token.end_ms pl = Token.end_ms final).
  { pose proof (f_equal (@JS.pop _) Htimes) as E.
    rewrite !pop_map, Hfinal in E.
    destruct (JS.pop punctuated) as [pl|]; [|discriminate].
    exists pl. split; [reflexivity|]. cbn in E. unfold times in E. congruence. }
  destruct Hpf as (pf & Hpf & Hpfs). destruct Hpl as (pl & Hpl & Hple).
  assert (Hblocks : blocks <> []).
  { intros E. rewrite E in Hcat. cbn in Hcat. rewrite <- Hcat in Hpf. discriminate. }
  specialize (Hne Hblocks).
  exists out, analyzed, ps. split; [exact Heq|].
  rewrite <- Hcat in Hpf, Hpl.
  split; [|split].
  - destruct out as [|s0 out'] eqn:Eout; [now contradiction Hne|].
    cbn. f_equal. rewrite <- Hpfs. apply Hhd; [reflexivity|exact Hpf].
  - destruct (pop_nonempty out Hne) as (s1 & Hs1). rewrite Hs1. cbn. f_equal.
    rewrite <- Hple. apply Hlast; [exact Hs1|exact Hpl].
  - intros k a b Ha Hb. exact (Chain_nth out k a b Hchain Ha Hb).
Qed.

Lemma assembled_segments_timeline_witness :
  hd_error specExample = Some (word_ "ok" 0 200) /\
  JS.pop specExample = Some (word_ "great" 2900 3100) /\
  Ordered specExample /\
  exists allSegments speechSegments pauses,
    @buildSegments integerRuntime "c" specExample
      = Ok (allSegments, speechSegments, pauses) /\
    option_map SegmentAnalysis.startMs (hd_error allSegments) = Some 0 /\
    option_map SegmentAnalysis.endMs (JS.pop allSegments) = Some 3100.
Proof.
  assert (Hord : Ordered specExample)
    by (unfold specExample, word_; cbn [Ordered Token.start_ms Token.end_ms]; lia).
  split; [reflexivity|]. split; [reflexivity|]. split; [exact Hord|].
  destruct (@assembled_segments_timeline integerRuntime "c" specExample
              (word_ "ok" 0 200) (word_ "great" 2900 3100) eq_refl eq_refl Hord)
    as (allSegments & speechSegments & pauses & Hb & Hs & He & _).
  exists allSegments, speechSegments, pauses. auto.
Defined.

(** C2 as stated fails twice.  Five one-word sentences 100 ms apart form
    one block that the sentence splitter cuts after the fourth: the two
    speech segments leave the 100 ms between 700 and 800 uncovered, and no
    pause segment stands there.  A token that reaches the 25 s cap and is
    followed without silence gets a pause of length zero behind it, which
    starts where the next speech segment starts: the starts are not
    strictly increasing. *)
Lemma assembled_segments_gap_and_tie :
  (Ordered fiveSentences /\
   forall rt : Runtime,
     timeline (@buildSegments rt "c" fiveSentences)
     = [(0, 700, speech); (800, 900, speech)]) /\
  (Ordered cappedTokens /\
   forall rt : Runtime,
     timeline (@buildSegments rt "c" cappedTokens)
     = [(0, 25000, speech); (25000, 25000, pause); (25000, 25100, speech)]).
Proof.
  split; split;
    try (unfold fiveSentences, cappedTokens, word_;
         cbn [Ordered Token.start_ms Token.end_ms]; lia);
    intros rt; vm_compute; reflexivity.
Qed.

(** ** The join of the enrichment derivations *)

Lemma failed_parses_leave_nothing `{Runtime} (spans : list string) :
  (forall obj, In obj spans -> JSON_parse obj = None) ->
  filter truthy
    (map (fun obj => match JSON_parse obj with Some v => v | None => JNull end)
         spans) = [].
Proof.
  induction spans as [|obj rest IH]; intros Hall; [reflexivity|].
  cbn [map filter]. rewrite (Hall obj (or_introl eq_refl)). cbn [truthy].
  apply IH. intros o Ho. apply Hall. now right.
Qed.

Lemma parseIssuesData_unparseable `{Runtime} (response : string) :
  Unparseable response -> parseIssuesData response = Ok [].
Proof.
  unfold Unparseable, parseIssuesData.
  destruct (greedySpan "[" "]" response) as [arrayText|].
  - now intros ->.
  - intros Hall. now rewrite failed_parses_leave_nothing.
Qed.

(** A call for the issues that throws is not caught: the join rejects and
    the run ends in the handler's error response. *)
Lemma issues_call_failure_fails_the_run `{Runtime} (conversationId : string)
  (draws : Draws) (replies : Replies) (tokens : list Token.t)
  (message : string) :
  tokens <> [] -> issuesReply replies = Throws message ->
  analyze conversationId draws replies tokens = Err message.
Proof.
  intros Hne Hreply. destruct tokens as [|first rest]; [contradiction|].
  unfold analyze. cbn [List.length Nat.eqb].
  destruct (buildSegments_total conversationId (first :: rest))
    as (analyzed & _ & _ & ->).
  cbn [bind]. unfold enrich, generateOverallIssues. rewrite Hreply. reflexivity.
Qed.

(** C1 (as the code has it). When the reply to the issues prompt is
    unparseable, the run still completes: the orchestrator returns all
    three outputs, the title and the highlights are what their own
    derivations produce from their own replies, and the issues list is
    empty, whatever the metrics are: the issues have no local fallback
    generator. *)
Theorem unparseable_issues_reply_yields_no_issues `{Runtime}
  (conversationId : string) (draws : Draws) (replies : Replies)
  (tokens : list Token.t) (response : string) :
  tokens <> [] ->
  issuesReply replies = Returns response -> Unparseable response ->
  exists allSegments speechSegments pauses,
    buildSegments conversationId tokens
      = Ok (allSegments, speechSegments, pauses) /\
    let metrics := calculateMetrics speechSegments pauses draws in
    enrich speechSegments metrics conversationId replies
      = Ok ([],
            generateSessionTitle speechSegments metrics (titleReply replies),
            generateCoachingHighlights speechSegments metrics [] conversationId
              (highlightsReply replies)) /\
    analyze conversationId draws replies tokens
      = Ok (AnalysisResult.mk
              (generateSessionTitle speechSegments metrics (titleReply replies))
              allSegments metrics []
              (generateCoachingHighlights speechSegments metrics []
                 conversationId (highlightsReply replies))).
Proof.
  intros Hne Hreply Hbad.
  destruct (buildSegments_total conversationId tokens)
    as (analyzed & _ & _ & Hb).
  eexists _, _, _. split; [exact Hb|]. cbv zeta.
  assert (He : forall m,
             enrich analyzed m conversationId replies
             = Ok ([], generateSessionTitle analyzed m (titleReply replies),
                   generateCoachingHighlights analyzed m [] conversationId
                     (highlightsReply replies))).
  { intros m. unfold enrich, generateOverallIssues.
    rewrite Hreply, (parseIssuesData_unparseable _ Hbad). reflexivity. }
  split; [apply He|].
  unfold analyze. destruct tokens as [|t r]; [contradiction|].
  cbn [List.length Nat.eqb]. rewrite Hb. cbn [bind]. rewrite He. reflexivity.
Qed.

Lemma unparseable_issues_reply_witness :
  specExample <> [] /\
  @Unparseable integerRuntime "I could not find any issue." /\
  exists allSegments speechSegments pauses,
    @buildSegments integerRuntime "c" specExample
      = Ok (allSegments, speechSegments, pauses) /\
    @enrich integerRuntime speechSegments
       (calculateMetrics speechSegments pauses (Build_Draws 0 0 0)) "c" proseReplies
    = Ok ([],
          @generateSessionTitle integerRuntime speechSegments
             (calculateMetrics speechSegments pauses (Build_Draws 0 0 0))
             (titleReply proseReplies),
          @generateCoachingHighlights integerRuntime speechSegments
             (calculateMetrics speechSegments pauses (Build_Draws 0 0 0)) [] "c"
             (highlightsReply proseReplies)).
Proof.
  assert (Hne : specExample <> []) by discriminate.
  assert (Hbad : @Unparseable integerRuntime "I could not find any issue.")
    by (intros obj []).
  split; [exact Hne|]. split; [exact Hbad|].
  destruct (@unparseable_issues_reply_yields_no_issues integerRuntime "c"
              (Build_Draws 0 0 0) proseReplies specExample
              "I could not find any issue." Hne eq_refl Hbad)
    as (allSegments & speechSegments & pauses & Hb & He & _).
  exists allSegments, speechSegments, pauses. split; [exact Hb|exact He].
Defined.

(** C1 as stated fails: on the specification's own example, with a reply to
    the issues prompt that holds no JSON at all, the run completes with 19.4
    fillers per minute and 225 words per minute, both outside the ranges
    named, and with an empty issues list. *)
Lemma issues_have_no_local_fallback :
  (forall (rt : Runtime) (draws : Draws),
     exists r,
       @analyze rt "c" draws proseReplies specExample = Ok r /\
       AnalysisResult.issues r = [] /\
       Metrics.fillerPerMinute (AnalysisResult.metrics r) = (194 # 10)%Q /\
       Metrics.avgWpm (AnalysisResult.metrics r) = inject_Z 225) /\
  (3 < 194 # 10)%Q /\ (160 < inject_Z 225)%Q.
Proof.
  split; [|split; reflexivity].
  intros rt draws.
  assert (Hb : exists allSegments speechSegments pauses,
             @buildSegments rt "c" specExample
               = Ok (allSegments, speechSegments, pauses) /\
             Metrics.fillerPerMinute (calculateMetrics speechSegments pauses draws)
               = (194 # 10)%Q /\
             Metrics.avgWpm (calculateMetrics speechSegments pauses draws)
               = inject_Z 225).
  { destruct (@buildSegments rt "c" specExample)
      as [[[allSegments speechSegments] pauses]|e] eqn:Eb.
    - vm_compute in Eb. injection Eb as <- <- <-.
      do 3 eexists. split; [reflexivity|]. split; vm_compute; reflexivity.
    - vm_compute in Eb. discriminate. }
  destruct Hb as (allSegments & speechSegments & pauses & Eb & Hf & Hw).
  unfold analyze. cbn [specExample List.length Nat.eqb]. rewrite Eb.
  cbn [bind]. unfold enrich.
  replace (generateOverallIssues speechSegments "c" (issuesReply proseReplies))
    with (@Ok (list Issue.t) []) by (vm_compute; reflexivity).
  cbn [bind]. eexists. split; [reflexivity|].
  cbn [AnalysisResult.issues AnalysisResult.metrics]. auto.
Qed.

(** ** The span of a speech segment *)

Lemma Ordered_starts (l1 : list Token.t) :
  forall x l2 first,
    Ordered (l1 ++ x :: l2) -> hd_error (l1 ++ x :: l2) = Some first ->
    Token.start_ms first <= Token.start_ms x.
Proof.
  induction l1 as [|y r IH]; intros x l2 first Hord Hf.
  - cbn in Hf. injection Hf as <-. lia.
  - cbn in Hf. injection Hf as <-.
    cbn [app Ordered] in Hord. destruct Hord as (Hy & Hnext & Hrest).
    destruct r as [|z r'].
    + cbn in Hnext. lia.
    + cbn in Hnext. specialize (IH x l2 z Hrest eq_refl). lia.
Qed.

Lemma passA_inner_tokens (tokens b : list Token.t) (first : Token.t) :
  In b (fst (splitIntoSegmentsDynamic tokens)) -> hd_error b = Some first ->
  forall l1 token l2, b = l1 ++ token :: l2 -> l2 <> [] ->
    Token.end_ms token - Token.start_ms first < 25000.
Proof.
  intros Hin Hf l1 token [|following l2] Hb Hl2; [contradiction|].
  destruct tokens as [|t0 rest]; [contradiction|].
  destruct (splitIntoSegmentsDynamic_PassA t0 rest) as (HP & HS & _).
  cbv zeta in HP, HS.
  pose proof (PassA_inside _ _ _ _ _ _ _ _ _ HP HS Hin Hf Hb) as Hno.
  unfold SplitDue in Hno. lia.
Qed.

Lemma Ordered_block (tokens b : list Token.t) :
  Ordered tokens -> In b (fst (splitIntoSegmentsDynamic tokens)) -> Ordered b.
Proof.
  intros Hord Hin.
  destruct (splitIntoSegmentsDynamic_shape tokens) as (s & _ & _ & Hcat).
  apply in_split in Hin. destruct Hin as (pre & post & E).
  rewrite E, concat_app in Hcat. cbn [List.concat] in Hcat.
  rewrite <- Hcat in Hord.
  apply Ordered_app in Hord. destruct Hord as (_ & Hord & _).
  apply Ordered_app in Hord. tauto.
Qed.

(** C5 (as the code has it). In every block of Pass A, each token other
    than the block's last ends less than 25 000 ms after the block's first
    token starts; so a block's span stays below 25 000 ms plus what its
    last token adds (the gap before it and its own duration).  When the
    tokens are in order, the same bound holds inside every speech segment
    the sentence split cuts from the block, measured from that segment's
    own first token. *)
Theorem segmenter_span_bound (tokens : list Token.t) (b : list Token.t)
  (first : Token.t) :
  In b (fst (splitIntoSegmentsDynamic tokens)) -> hd_error b = Some first ->
  (forall l1 token l2, b = l1 ++ token :: l2 -> l2 <> [] ->
     Token.end_ms token - Token.start_ms first < 25000) /\
  (forall l1 previous final, b = l1 ++ [previous; final] ->
     Token.end_ms final - Token.start_ms first
       < 25000 + (Token.end_ms final - Token.end_ms previous)) /\
  (Ordered tokens ->
   forall segment head l1 token l2,
     In segment (splitBySentences b 4) -> hd_error segment = Some head ->
     segment = l1 ++ token :: l2 -> l2 <> [] ->
     Token.end_ms token - Token.start_ms head < 25000).
Proof.
  intros Hin Hf.
  pose proof (passA_inner_tokens tokens b first Hin Hf) as Hmain.
  split; [exact Hmain|]. split.
  - intros l1 previous final Hb.
    specialize (Hmain l1 previous [final] Hb ltac:(discriminate)). lia.
  - intros Hord segment head l1 token l2 Hseg Hhead Hsplit Hl2.
    pose proof (Ordered_block tokens b Hord Hin) as Hordb.
    destruct (splitBySentences_pieces b) as (Hcat & _).
    apply in_split in Hseg. destruct Hseg as (pre & post & E).
    rewrite E, concat_app in Hcat. cbn [List.concat] in Hcat.
    assert (Hhd : segment = head :: tl segment)
      by (destruct segment; [discriminate|cbn in Hhead |- *; congruence]).
    assert (Hstart : Token.start_ms first <= Token.start_ms head).
    { apply (Ordered_starts (List.concat pre) head
               (tl segment ++ List.concat post) first).
      - rewrite app_comm_cons, <- Hhd, Hcat. exact Hordb.
      - rewrite app_comm_cons, <- Hhd, Hcat. exact Hf. }
    assert (Hb : b = (List.concat pre ++ l1) ++ token :: (l2 ++ List.concat post)).
    { rewrite <- Hcat, Hsplit, <- !app_assoc. reflexivity. }
    assert (Hrest : l2 ++ List.concat post <> [])
      by (destruct l2; [contradiction|discriminate]).
    specialize (Hmain _ _ _ Hb Hrest). lia.
Qed.

(** The witness of the span bound: in the first block of [thirtySeconds]
    the token before the last ends at 24 000 ms. *)
Lemma segmenter_span_bound_witness :
  In (firstn 25 thirtySeconds) (fst (splitIntoSegmentsDynamic thirtySeconds)) /\
  hd_error (firstn 25 thirtySeconds) = Some (Token.mk "" "" 0 1000 "w" [] "") /\
  24000 - 0 < 25000.
Proof.
  assert (Hin : In (firstn 25 thirtySeconds)
                   (fst (splitIntoSegmentsDynamic thirtySeconds)))
    by (vm_compute; left; reflexivity).
  split; [exact Hin|]. split; [reflexivity|].
  refine (proj1 (segmenter_span_bound thirtySeconds (firstn 25 thirtySeconds)
                   (Token.mk "" "" 0 1000 "w" [] "") Hin eq_refl)
            (firstn 23 thirtySeconds)
            (Token.mk "" "" 23000 24000 "w" [] "")
            [Token.mk "" "" 24000 25000 "w" [] ""] _ _).
  - vm_compute. reflexivity.
  - discriminate.
Defined.

(** C5 as stated fails: of thirty contiguous tokens of 900 ms each, Pass A
    makes a first block that runs from 0 to 25 200 ms, above 25 000 ms and
    so above 25 000 ms minus a token's duration. *)
Lemma passA_span_counterexample :
  Forall (fun t => Token.end_ms t - Token.start_ms t = 900) briskTokens /\
  fst (splitIntoSegmentsDynamic briskTokens)
    = [firstn 28 briskTokens; skipn 28 briskTokens] /\
  option_map Token.start_ms (hd_error (firstn 28 briskTokens)) = Some 0 /\
  option_map Token.end_ms (JS.pop (firstn 28 briskTokens)) = Some 25200 /\
  25000 - 900 < 25200 - 0.
Proof.
  split; [repeat constructor|].
  split; [vm_compute; reflexivity|].
  split; [reflexivity|]. split; [reflexivity|]. lia.
Qed.


(** ** Filler tags written by the tagger *)

Lemma hedging_tags_are_no_fillers (token : Token.t) (idx : nat)
  (hedging : list Hedge) :
  filter isFiller
    (flat_map (fun h =>
                 if Nat.leb (startIndex h) idx && Nat.leb idx (endIndex h)
                 then [hedgingTag token h] else [])
              hedging) = [].
Proof.
  induction hedging as [|h r IH]; [reflexivity|].
  cbn [flat_map]. rewrite filter_app, IH, app_nil_r.
  now destruct (Nat.leb (startIndex h) idx && Nat.leb idx (endIndex h)).
Qed.

Lemma filler_tags_count (token : Token.t) (idx : nat) (fillerWords : list Filler) :
  List.length
    (filter isFiller
       (flat_map (fun filler =>
                    if Nat.eqb (index filler) idx
                    then [fillerTag token filler] else [])
                 fillerWords))
  = List.length (filter (fun filler => Nat.eqb (index filler) idx) fillerWords).
Proof.
  induction fillerWords as [|f r IH]; [reflexivity|].
  cbn [flat_map filter]. rewrite filter_app, length_app, IH.
  now destruct (Nat.eqb (index f) idx).
Qed.

Lemma fillers_at_index (l : list Token.t) :
  forall i idx,
    List.length
      (filter (fun filler => Nat.eqb (index filler) idx)
              (List.concat (JS.mapiFrom i fillerAt l)))
    = match (if Nat.leb i idx then nth_error l (idx - i) else None) with
      | Some token =>
          if has FILLER_WORDS (normalize (Token.text token)) then 1%nat else 0%nat
      | None => 0%nat
      end.
Proof.
  induction l as [|x r IH]; intros i idx.
  - cbn. destruct (Nat.leb i idx); [|reflexivity]. now destruct (idx - i)%nat.
  - cbn [JS.mapiFrom List.concat]. rewrite filter_app, length_app, IH.
    unfold fillerAt.
    destruct (Nat.leb_spec i idx) as [Hle|Hlt].
    + destruct (Nat.eq_dec i idx) as [->|Hneq].
      * rewrite Nat.sub_diag. cbn [nth_error].
        assert (E : Nat.leb (S idx) idx = false) by (apply Nat.leb_gt; lia).
        rewrite E.
        destruct (has FILLER_WORDS (normalize (Token.text x)));
          cbn [filter index List.length]; rewrite ?Nat.eqb_refl; reflexivity.
      * assert (E : Nat.leb (S i) idx = true) by (apply Nat.leb_le; lia).
        rewrite E.
        replace (idx - i)%nat with (S (idx - S i)) by lia. cbn [nth_error].
        assert (En : Nat.eqb i idx = false) by (now apply Nat.eqb_neq).
        destruct (has FILLER_WORDS (normalize (Token.text x)));
          cbn [filter index List.length]; rewrite ?En; reflexivity.
    + assert (E : Nat.leb (S i) idx = false) by (apply Nat.leb_gt; lia).
      rewrite E.
      assert (En : Nat.eqb i idx = false) by (apply Nat.eqb_neq; lia).
      destruct (has FILLER_WORDS (normalize (Token.text x)));
        cbn [filter index List.length]; rewrite ?En; reflexivity.
Qed.

Lemma tagged_suffix (fillerWords : list Filler) (hedging : list Hedge)
  (tokens : list Token.t) :
  fillerWords = List.concat (JS.mapi fillerAt tokens) ->
  forall pre rest,
    tokens = pre ++ rest ->
    map fillersOf
      (JS.mapiFrom (List.length pre)
         (fun idx token =>
            TokenWithTags.mk (Token.id token) (Token.start_ms token)
              (Token.end_ms token) (Token.text token)
              (tokenTags fillerWords hedging idx token))
         rest)
    = map (fun token =>
             if has FILLER_WORDS (normalize (Token.text token))
             then 1%nat else 0%nat)
          rest.
Proof.
  intros Hfw pre rest. revert pre.
  induction rest as [|x r IH]; intros pre Hsplit; [reflexivity|].
  cbn [JS.mapiFrom map]. f_equal.
  - unfold fillersOf, tokenTags. cbn [TokenWithTags.tags].
    rewrite filter_app, hedging_tags_are_no_fillers, app_nil_r.
    rewrite filler_tags_count, Hfw. unfold JS.mapi.
    rewrite fillers_at_index. cbn [Nat.leb]. rewrite Nat.sub_0_r, Hsplit.
    rewrite nth_error_app2 by lia. now rewrite Nat.sub_diag.
  - replace (S (List.length pre)) with (List.length (pre ++ [x]))
      by (rewrite length_app; cbn; lia).
    apply IH. rewrite Hsplit, <- app_assoc. reflexivity.
Qed.

(** The tagger puts one tag of kind ['filler'] on a token whose normalised
    text is a filler word and none on any other token. *)
Lemma analyzeSegment_filler_tags `{Runtime} (segmentTokens : list Token.t)
  (segmentIndex : nat) (conversationId : string) (s : SegmentAnalysis.t) :
  analyzeSegment segmentTokens segmentIndex conversationId = Ok s ->
  map fillersOf (SegmentAnalysis.tokens s)
  = map (fun token =>
           if has FILLER_WORDS (normalize (Token.text token))
           then 1%nat else 0%nat)
        segmentTokens.
Proof.
  unfold analyzeSegment. intros Hs.
  destruct segmentTokens as [|first rest]; [discriminate|].
  destruct (JS.pop (first :: rest)); [|discriminate].
  injection Hs as <-. cbn [SegmentAnalysis.tokens].
  exact (tagged_suffix _ _ (first :: rest) eq_refl [] (first :: rest) eq_refl).
Qed.

(** * Further properties of the pipeline *)

(** ** [identifyPauses] *)

Lemma identifyPausesFrom_step (t f : Token.t) (r : list Token.t) (m : Z)
  (pauses : list Pause.t) :
  identifyPausesFrom (t :: f :: r) m pauses
  = identifyPausesFrom (f :: r) m
      (if m <=? Token.start_ms f - Token.end_ms t
       then pauses ++ [pauseBetween t f] else pauses).
Proof. reflexivity. Qed.

Lemma identifyPausesFrom_app (tokens : list Token.t) (m : Z) :
  forall pauses,
    identifyPausesFrom tokens m pauses = pauses ++ identifyPausesFrom tokens m [].
Proof.
  induction tokens as [|t rest IH]; intros pauses; [now rewrite app_nil_r|].
  destruct rest as [|f r]; [now rewrite app_nil_r|].
  rewrite !identifyPausesFrom_step.
  destruct (m <=? Token.start_ms f - Token.end_ms t); [|apply IH].
  rewrite IH, (IH ([] ++ _)). cbn [app]. now rewrite <- app_assoc.
Qed.

Lemma identifyPausesFrom_cons (t f : Token.t) (r : list Token.t) (m : Z) :
  identifyPausesFrom (t :: f :: r) m []
  = (if m <=? Token.start_ms f - Token.end_ms t then [pauseBetween t f] else [])
    ++ identifyPausesFrom (f :: r) m [].
Proof.
  rewrite identifyPausesFrom_step, identifyPausesFrom_app.
  now destruct (m <=? Token.start_ms f - Token.end_ms t).
Qed.

(** X1. [identifyPauses] records exactly the gaps between adjacent tokens
    that reach the minimum (2000 ms when none is given), each as the pause
    from the end of the earlier token to the start of the later one; so it
    finds nothing in a list of fewer than two tokens, and never more pauses
    than there are adjacent pairs. *)
Theorem identifyPauses_finds_the_long_gaps (tokens : list Token.t)
  (minPauseMs : option Z) (p : Pause.t) :
  let m := match minPauseMs with Some m => m | None => 2000 end in
  (In p (identifyPauses tokens minPauseMs) <->
   exists l1 token following l2,
     tokens = l1 ++ token :: following :: l2 /\
     m <= Token.start_ms following - Token.end_ms token /\
     p = pauseBetween token following) /\
  (List.length (identifyPauses tokens minPauseMs) <= pred (List.length tokens))%nat.
Proof.
  cbv zeta. unfold identifyPauses.
  set (m := match minPauseMs with Some m => m | None => 2000 end).
  induction tokens as [|t rest IH]; [cbn; split; [split|lia]|].
  - intros [].
  - intros (l1 & a & b & l2 & E & _). now destruct l1.
  - destruct rest as [|f r].
    + cbn. split; [split|lia]; [intros []|].
      intros (l1 & a & b & l2 & E & _). destruct l1 as [|x [|y l1]]; discriminate.
    + rewrite identifyPausesFrom_cons. destruct IH as [IHin IHlen]. split.
      * rewrite in_app_iff. split.
        { intros [Hin|Hin].
          - destruct (Z.leb_spec m (Token.start_ms f - Token.end_ms t));
              [|contradiction].
            destruct Hin as [<-|[]]. exists [], t, f, r. auto.
          - apply IHin in Hin. destruct Hin as (l1 & a & b & l2 & E & Hg & Hp).
            exists (t :: l1), a, b, l2. rewrite E. auto. }
        { intros (l1 & a & b & l2 & E & Hg & Hp). destruct l1 as [|x l1].
          - cbn in E. injection E as <- <- <-. left.
            apply Z.leb_le in Hg. rewrite Hg. now left.
          - cbn in E. injection E as <- E. right. apply IHin.
            exists l1, a, b, l2. auto. }
      * rewrite length_app. cbn [List.length pred] in *.
        destruct (m <=? Token.start_ms f - Token.end_ms t); cbn [List.length]; lia.
Qed.

Lemma activeThreshold_at_most (d : Z) : 1000 <= activeThreshold d <= 2000.
Proof. unfold activeThreshold. destruct (d <? 20000); lia. Qed.

Lemma identifyPauses_blocksFrom (tokens : list Token.t) :
  forall s,
    identifyPausesFrom tokens 2000 []
    = filter (fun p => 2000 <=? Pause.durationMs p) (snd (blocksFrom s tokens)).
Proof.
  induction tokens as [|t rest IH]; intros s; [reflexivity|].
  destruct rest as [|f r]; [reflexivity|].
  rewrite identifyPausesFrom_cons, blocksFrom_cons.
  destruct (splitDueb s t f) eqn:Hdue.
  - rewrite (IH (Token.start_ms f)).
    destruct (blocksFrom (Token.start_ms f) (f :: r)) as [bs ps].
    cbn [snd filter pauseBetween Pause.durationMs].
    now destruct (2000 <=? Token.start_ms f - Token.end_ms t).
  - rewrite (IH s).
    apply splitDueb_false in Hdue. unfold SplitDue in Hdue.
    pose proof (activeThreshold_at_most (Token.end_ms t - s)).
    destruct (Z.leb_spec 2000 (Token.start_ms f - Token.end_ms t)); [lia|].
    cbn [app]. now destruct (blocksFrom s (f :: r)) as [[|b bs] ps].
Qed.

(** X2. With its default minimum, [identifyPauses] returns exactly the
    pauses of Pass A that last at least 2000 ms, in the same order: Pass A
    misses no gap of two seconds, and what it records beyond them are the
    shorter pauses of long segments and the markers of forced splits. *)
Theorem identifyPauses_are_the_long_pauses_of_passA (tokens : list Token.t) :
  identifyPauses tokens None
  = filter (fun p => 2000 <=? Pause.durationMs p)
           (snd (splitIntoSegmentsDynamic tokens)).
Proof.
  unfold identifyPauses. destruct tokens as [|first rest]; [reflexivity|].
  rewrite splitIntoSegmentsDynamic_blocksFrom. apply identifyPauses_blocksFrom.
Qed.

(** ** The punctuator, further *)

Lemma chars_str (l : list ascii) : JS.chars (JS.str l) = l.
Proof. apply list_ascii_of_string_of_list_ascii. Qed.

Lemma str_chars (s : string) : JS.str (JS.chars s) = s.
Proof. apply string_of_list_ascii_of_string. Qed.

Lemma chars_append (a b : string) :
  JS.chars (a ++ b)%string = JS.chars a ++ JS.chars b.
Proof.
  unfold JS.chars. induction a as [|c a IH]; cbn; [reflexivity|now rewrite IH].
Qed.

Lemma dropWhile_head {A : Type} (p : A -> bool) (l : list A) :
  match JS.dropWhile p l with [] => True | c :: _ => p c = false end.
Proof.
  induction l as [|x r IH]; cbn; [exact I|].
  destruct (p x) eqn:E; [exact IH|exact E].
Qed.

Lemma dropWhile_id {A : Type} (p : A -> bool) (l : list A) :
  match l with [] => True | c :: _ => p c = false end -> JS.dropWhile p l = l.
Proof. destruct l as [|x r]; cbn; [reflexivity|now intros ->]. Qed.

Lemma dropWhile_suffix {A : Type} (p : A -> bool) (l : list A) :
  exists w, l = w ++ JS.dropWhile p l.
Proof.
  induction l as [|x r [w IH]]; [now exists []|]. cbn.
  destruct (p x); [|now exists []].
  exists (x :: w). cbn. now rewrite <- IH.
Qed.

Lemma trim_Trimmed (s : string) : Trimmed (JS.chars (JS.trim s)).
Proof.
  unfold JS.trim. rewrite chars_str.
  set (a := JS.dropWhile JS.isWhitespace (JS.chars s)).
  pose proof (dropWhile_head JS.isWhitespace (JS.chars s)) as Ha. fold a in Ha.
  pose proof (dropWhile_head JS.isWhitespace (rev a)) as Hd.
  destruct (dropWhile_suffix JS.isWhitespace (rev a)) as [w Hw].
  set (d := JS.dropWhile JS.isWhitespace (rev a)) in *.
  unfold Trimmed. rewrite rev_involutive. split; [|exact Hd].
  apply (f_equal (@rev _)) in Hw. rewrite rev_involutive, rev_app_distr in Hw.
  destruct (rev d) as [|c q]; [exact I|].
  rewrite Hw in Ha. exact Ha.
Qed.

Lemma Trimmed_fix (s : string) : Trimmed (JS.chars s) -> JS.trim s = s.
Proof.
  intros [Hh Hl]. unfold JS.trim.
  rewrite (dropWhile_id _ _ Hh), (dropWhile_id _ _ Hl), rev_involutive.
  apply str_chars.
Qed.

Lemma Trimmed_snoc (l : list ascii) (c : ascii) :
  Trimmed l -> JS.isWhitespace c = false -> Trimmed (l ++ [c]).
Proof.
  intros [Hh _] Hc. unfold Trimmed. rewrite rev_unit. split; [|exact Hc].
  destruct l; [exact Hc|exact Hh].
Qed.

Lemma endsWithAny_snoc (set : list ascii) (s : string) (c : ascii) :
  JS.endsWithAny set (s ++ String c "")%string = JS.memChar c set.
Proof.
  unfold JS.endsWithAny. rewrite chars_append.
  change (JS.chars (String c "")) with [c]. now rewrite rev_unit.
Qed.

(** A mark the punctuator appended stays: the text is trimmed already and
    ends in punctuation. *)
Lemma appended_mark_stays (text : string) (c : ascii) :
  Trimmed (JS.chars text) -> JS.isWhitespace c = false ->
  JS.memChar c punctuation = true ->
  JS.trim (text ++ String c "")%string = (text ++ String c "")%string /\
  JS.endsWithAny punctuation (text ++ String c "")%string = true.
Proof.
  intros Ht Hc Hm. split; [|now rewrite endsWithAny_snoc].
  apply Trimmed_fix. rewrite chars_append. now apply Trimmed_snoc.
Qed.

Lemma punctuateToken_marked (P : list Token.t) (i : nat) (t : Token.t)
  (text : string) (c : ascii) :
  Trimmed (JS.chars text) -> JS.isWhitespace c = false ->
  JS.memChar c punctuation = true ->
  punctuateToken P i (withText t (text ++ String c "")%string)
  = withText t (text ++ String c "")%string.
Proof.
  intros Ht Hc Hm. destruct (appended_mark_stays text c Ht Hc Hm) as [E1 E2].
  unfold punctuateToken. cbn [withText Token.text]. now rewrite E1, E2.
Qed.

Lemma punctuateToken_stable (tokens P : list Token.t) (i : nat) (t : Token.t) :
  option_map times (nth_error P (S i))
    = option_map times (nth_error tokens (S i)) ->
  punctuateToken P i (punctuateToken tokens i t) = punctuateToken tokens i t.
Proof.
  intros Hnext. unfold punctuateToken at 2 3.
  pose proof (trim_Trimmed (Token.text t)) as Ht.
  set (text := JS.trim (Token.text t)) in *.
  destruct (JS.endsWithAny punctuation text) eqn:E.
  - unfold punctuateToken. fold text. now rewrite E.
  - destruct (nth_error tokens (S i)) as [f|] eqn:Ef.
    + cbv zeta.
      destruct (LONG_PAUSE_MS <=? Token.start_ms f - Token.end_ms t) eqn:E800.
      * destruct (has questionWords (lastWord (JS.toLowerCase text)));
          now apply punctuateToken_marked.
      * destruct (SHORT_PAUSE_MS <=? Token.start_ms f - Token.end_ms t) eqn:E300;
          [now apply punctuateToken_marked|].
        unfold punctuateToken. cbn [withText Token.text Token.end_ms].
        fold text. rewrite (Trimmed_fix text Ht), E.
        destruct (nth_error P (S i)) as [f'|]; [|discriminate].
        cbn in Hnext. injection Hnext as Hs _. cbv zeta.
        rewrite Hs, E800, E300. reflexivity.
    + now apply punctuateToken_marked.
Qed.

Lemma mapiFrom_ext_nth {A B : Type} (f g : nat -> A -> B) (l : list A) :
  forall i,
    (forall k x, nth_error l k = Some x -> f (i + k)%nat x = g (i + k)%nat x) ->
    JS.mapiFrom i f l = JS.mapiFrom i g l.
Proof.
  induction l as [|x r IH]; intros i H; [reflexivity|].
  cbn [JS.mapiFrom]. f_equal.
  - specialize (H 0%nat x eq_refl). now rewrite Nat.add_0_r in H.
  - apply IH. intros k y Hk. specialize (H (S k) y Hk).
    now rewrite Nat.add_succ_r in H.
Qed.

Lemma mapiFrom_mapiFrom {A B C : Type} (f : nat -> A -> B) (g : nat -> B -> C)
  (l : list A) :
  forall i,
    JS.mapiFrom i g (JS.mapiFrom i f l) = JS.mapiFrom i (fun k x => g k (f k x)) l.
Proof. induction l as [|x r IH]; intros i; cbn; [reflexivity|now rewrite IH]. Qed.

(** X3. Running the punctuator on its own output changes nothing: a mark
    it appended is recognised as punctuation the second time, and a text
    it left bare is trimmed already and stands before the same gap. *)
Theorem addPunctuationToTokens_idempotent (tokens : list Token.t) :
  addPunctuationToTokens (addPunctuationToTokens tokens)
  = addPunctuationToTokens tokens.
Proof.
  destruct tokens as [|t0 r]; [reflexivity|].
  set (tokens := t0 :: r).
  assert (Htimes : forall k,
             option_map times (nth_error (addPunctuationToTokens tokens) k)
             = option_map times (nth_error tokens k)).
  { intros k. rewrite <- !nth_error_map.
    now rewrite addPunctuationToTokens_times. }
  assert (HP : addPunctuationToTokens tokens
               = JS.mapi (punctuateToken tokens) tokens) by reflexivity.
  assert (Hlen : Nat.eqb (List.length (addPunctuationToTokens tokens)) 0 = false)
    by (rewrite addPunctuationToTokens_length; reflexivity).
  unfold addPunctuationToTokens at 1. rewrite Hlen.
  set (P := addPunctuationToTokens tokens) in *.
  rewrite HP at 2. rewrite HP at 2. unfold JS.mapi. rewrite mapiFrom_mapiFrom.
  apply mapiFrom_ext_nth. intros k x _. cbn [Nat.add].
  apply punctuateToken_stable. apply Htimes.
Qed.

Lemma map_frame_mapiFrom (f : nat -> Token.t -> Token.t) (l : list Token.t) :
  (forall i x, frame (f i x) = frame x) ->
  forall i, map frame (JS.mapiFrom i f l) = map frame l.
Proof.
  intros Hf. induction l as [|x r IH]; intros i; cbn; [reflexivity|].
  now rewrite Hf, IH.
Qed.

(** X4. The punctuator is a pure transform of the texts: it returns as
    many tokens as it was given, in the same order, each with the id,
    conversation, offsets, tags and creation time it had. *)
Theorem addPunctuationToTokens_changes_only_text (tokens : list Token.t) :
  map frame (addPunctuationToTokens tokens) = map frame tokens.
Proof.
  unfold addPunctuationToTokens.
  destruct (Nat.eqb (List.length tokens) 0); [reflexivity|].
  apply map_frame_mapiFrom. intros i x. unfold punctuateToken.
  destruct (JS.endsWithAny punctuation (JS.trim (Token.text x))); reflexivity.
Qed.

(** X5. After the punctuator, the last token and every token followed by
    a gap of at least 300 ms carry a punctuation mark at the end of their
    trimmed text. *)
Theorem punctuated_before_every_pause (tokens : list Token.t) (i : nat)
  (out : Token.t) :
  nth_error (addPunctuationToTokens tokens) i = Some out ->
  (forall following,
     nth_error (addPunctuationToTokens tokens) (S i) = Some following ->
     300 <= Token.start_ms following - Token.end_ms out) ->
  JS.endsWithAny punctuation (JS.trim (Token.text out)) = true.
Proof.
  intros Hout Hgap.
  rewrite addPunctuationToTokens_nth in Hout.
  destruct (nth_error tokens i) as [t|] eqn:Et; [|discriminate].
  cbn in Hout. injection Hout as <-.
  assert (Hgap' : forall f, nth_error tokens (S i) = Some f ->
            300 <= Token.start_ms f - Token.end_ms t).
  { intros f Hf. specialize (Hgap (punctuateToken tokens (S i) f)).
    rewrite addPunctuationToTokens_nth, Hf in Hgap. specialize (Hgap eq_refl).
    destruct (times_eq _ _ (punctuateToken_times tokens (S i) f)) as [Hs _].
    destruct (times_eq _ _ (punctuateToken_times tokens i t)) as [_ He].
    lia. }
  clear Hgap.
  pose proof (trim_Trimmed (Token.text t)) as Ht.
  unfold punctuateToken.
  set (text := JS.trim (Token.text t)) in *.
  destruct (JS.endsWithAny punctuation text) eqn:E; [exact E|].
  cbn [withText Token.text].
  assert (Hmark : forall c, JS.isWhitespace c = false ->
            JS.memChar c punctuation = true ->
            JS.endsWithAny punctuation
              (JS.trim (text ++ String c "")%string) = true).
  { intros c Hc Hm. destruct (appended_mark_stays text c Ht Hc Hm) as [-> ->].
    reflexivity. }
  destruct (nth_error tokens (S i)) as [f|] eqn:Ef; [|now apply Hmark].
  cbv zeta. specialize (Hgap' f eq_refl).
  unfold LONG_PAUSE_MS, SHORT_PAUSE_MS.
  destruct (Z.leb_spec 800 (Token.start_ms f - Token.end_ms t)).
  - destruct (has questionWords (lastWord (JS.toLowerCase text))); now apply Hmark.
  - destruct (Z.leb_spec 300 (Token.start_ms f - Token.end_ms t)); [|lia].
    now apply Hmark.
Qed.

Lemma punctuated_before_every_pause_witness :
  nth_error (addPunctuationToTokens specExample) 0 = Some (word_ "ok." 0 200) /\
  JS.endsWithAny punctuation (JS.trim "ok.") = true.
Proof.
  split; [reflexivity|].
  refine (punctuated_before_every_pause specExample 0 (word_ "ok." 0 200)
            eq_refl _).
  intros following Hf. vm_compute in Hf. injection Hf as <-. vm_compute.
  discriminate.
Defined.

(** ** Pass A, further *)

Lemma Ordered_ends (l : list Token.t) :
  forall final t,
    Ordered l -> JS.pop l = Some final -> In t l ->
    Token.end_ms t <= Token.end_ms final.
Proof.
  induction l as [|x r IH]; intros final t Hord Hpop Hin; [contradiction|].
  cbn [Ordered] in Hord. destruct Hord as (Hx & Hnext & Hrest).
  destruct r as [|y r'].
  - cbn in Hpop. injection Hpop as <-. destruct Hin as [<-|[]]. lia.
  - rewrite pop_cons in Hpop by discriminate.
    destruct Hin as [<-|Hin]; [|now apply IH].
    specialize (IH final y Hrest Hpop (or_introl eq_refl)).
    cbn [Ordered] in Hrest. lia.
Qed.

Lemma quiet_tokens_one_block (tokens : list Token.t) :
  forall s,
    tokens <> [] ->
    (forall t, In t tokens -> Token.end_ms t - s < 20000) ->
    identifyPausesFrom tokens 2000 [] = [] ->
    blocksFrom s tokens = ([tokens], []).
Proof.
  induction tokens as [|t rest IH]; intros s Hne Hshort Hquiet; [contradiction|].
  destruct rest as [|f r]; [reflexivity|].
  rewrite identifyPausesFrom_cons in Hquiet.
  apply app_eq_nil in Hquiet. destruct Hquiet as [Hgap Hrest].
  rewrite blocksFrom_cons.
  assert (Hdue : splitDueb s t f = false).
  { apply splitDueb_false. unfold SplitDue, activeThreshold.
    pose proof (Hshort t (or_introl eq_refl)) as Ht.
    destruct (Z.ltb_spec (Token.end_ms t - s) 20000); [|lia].
    destruct (Z.leb_spec 2000 (Token.start_ms f - Token.end_ms t));
      [discriminate|lia]. }
  rewrite Hdue, (IH s); [reflexivity|discriminate| |exact Hrest].
  intros x Hx. apply Hshort. now right.
Qed.

(** X6. A recording in which [identifyPauses] finds no pause of two
    seconds and whose tokens, in order, span less than 20 s from the first
    start to the last end is not cut by Pass A: it comes back as one block
    with no pause. *)
Theorem short_quiet_recording_is_one_block (tokens : list Token.t)
  (first final : Token.t) :
  hd_error tokens = Some first -> JS.pop tokens = Some final ->
  Ordered tokens ->
  Token.end_ms final - Token.start_ms first < 20000 ->
  identifyPauses tokens None = [] ->
  splitIntoSegmentsDynamic tokens = ([tokens], []).
Proof.
  intros Hfirst Hfinal Hord Hshort Hquiet.
  destruct tokens as [|t0 rest]; [discriminate|].
  cbn in Hfirst. injection Hfirst as ->.
  rewrite splitIntoSegmentsDynamic_blocksFrom.
  apply quiet_tokens_one_block; [discriminate| |exact Hquiet].
  intros t Ht. pose proof (Ordered_ends _ _ _ Hord Hfinal Ht). lia.
Qed.

Lemma short_quiet_recording_witness :
  Ordered fiveSentences /\
  identifyPauses fiveSentences None = [] /\
  splitIntoSegmentsDynamic fiveSentences = ([fiveSentences], []).
Proof.
  assert (Hord : Ordered fiveSentences)
    by (unfold fiveSentences, word_; cbn [Ordered Token.start_ms Token.end_ms]; lia).
  split; [exact Hord|]. split; [reflexivity|].
  refine (short_quiet_recording_is_one_block fiveSentences
            (word_ "a." 0 100) (word_ "e." 800 900) eq_refl eq_refl Hord _ eq_refl).
  cbn. lia.
Defined.

(** X7. A pause of Pass A shorter than 1000 ms is the marker of a forced
    split: the block before it has run for at least 25 000 ms from the
    start of its first token to the end of its last. *)
Theorem short_pause_marks_a_forced_split (tokens : list Token.t) (k : nat)
  (p : Pause.t) (b : list Token.t) (first final : Token.t) :
  nth_error (snd (splitIntoSegmentsDynamic tokens)) k = Some p ->
  Pause.durationMs p < 1000 ->
  nth_error (fst (splitIntoSegmentsDynamic tokens)) k = Some b ->
  hd_error b = Some first -> JS.pop b = Some final ->
  25000 <= Token.end_ms final - Token.start_ms first.
Proof.
  intros Hp Hshort Hb Hfirst Hfinal.
  destruct (splitIntoSegmentsDynamic_shape tokens) as (s & HP & HS & _).
  pose proof (PassA_length _ _ _ HP) as Hlen.
  assert (Hk : (k < List.length (snd (splitIntoSegmentsDynamic tokens)))%nat)
    by (apply nth_error_Some; congruence).
  destruct (nth_error (fst (splitIntoSegmentsDynamic tokens)) (S k))
    as [b'|] eqn:Eb'; [|apply nth_error_None in Eb'; lia].
  assert (Hb' : b' <> [])
    by (eapply PassA_nonempty; [exact HP|eapply nth_error_In; eauto]).
  destruct b' as [|following r]; [contradiction|].
  destruct (PassA_boundary _ _ _ _ _ _ _ _ _ HP HS Hb Eb' Hfirst Hfinal eq_refl)
    as [Hdue Hpause].
  rewrite Hp in Hpause. injection Hpause as ->.
  cbn [pauseBetween Pause.durationMs] in Hshort.
  unfold SplitDue in Hdue.
  pose proof (activeThreshold_at_most (Token.end_ms final - Token.start_ms first)).
  lia.
Qed.

Lemma short_pause_marks_a_forced_split_witness :
  nth_error (snd (splitIntoSegmentsDynamic cappedTokens)) 0
    = Some (Pause.mk 25000 25000 0) /\
  25000 <= 25000 - 0.
Proof.
  split; [reflexivity|].
  exact (short_pause_marks_a_forced_split cappedTokens 0 (Pause.mk 25000 25000 0)
           [word_ "long" 0 25000] (word_ "long" 0 25000) (word_ "long" 0 25000)
           eq_refl eq_refl eq_refl eq_refl eq_refl).
Defined.

(** ** Pass B, further *)

Lemma Closed_sentences (new : list (list Token.t)) :
  Forall (Closed 4) new ->
  sentences (List.concat new) = (4 * List.length new)%nat.
Proof.
  induction 1 as [|seg rest [Hseg _] _ IH]; [reflexivity|].
  cbn [List.concat List.length]. rewrite sentences_app, Hseg, IH. lia.
Qed.

(** X8. A block with [k] sentence-ending tokens comes back from the
    sentence split in [k / 4] segments, plus one when tokens remain after
    the last closed segment, and never in none: an empty block or one
    without a fourth sentence end is one segment. *)
Theorem splitBySentences_segment_count (tokens : list Token.t) :
  let n := List.length (splitBySentences tokens 4) in
  let k := sentences tokens in
  (1 <= n)%nat /\ (k / 4 <= n <= k / 4 + 1)%nat /\
  ((k mod 4 <> 0)%nat -> n = (k / 4 + 1)%nat).
Proof.
  cbv zeta.
  destruct (splitBySentences_shape tokens)
    as (new & rest & Hcat & Hclosed & Hlast & _ & ->).
  pose proof (Closed_sentences new Hclosed) as Hnew.
  assert (Hk : sentences tokens = (4 * List.length new + sentences rest)%nat)
    by (rewrite <- Hcat, sentences_app, Hnew; reflexivity).
  assert (Hdiv : (sentences tokens / 4 = List.length new)%nat).
  { symmetry. apply (Nat.div_unique _ 4 _ (sentences rest)); [exact Hlast|].
    rewrite Hk. lia. }
  assert (Hmod : (sentences tokens mod 4 = sentences rest)%nat).
  { symmetry. apply (Nat.mod_unique _ 4 (List.length new)); [exact Hlast|].
    rewrite Hk. lia. }
  rewrite Hdiv, Hmod.
  destruct rest as [|r rs].
  - destruct new as [|s0 new']; cbn [List.length].
    + split; [lia|]. split; [lia|]. intros H. now contradiction H.
    + split; [lia|]. split; [lia|]. intros H. now contradiction H.
  - rewrite length_app. cbn [List.length]. lia.
Qed.

(** ** The tagger, further *)

Lemma spoken_mapiFrom (g : nat -> Token.t -> list Tag.t) (l : list Token.t) :
  forall n,
    map spoken
      (JS.mapiFrom n
         (fun idx token =>
            TokenWithTags.mk (Token.id token) (Token.start_ms token)
              (Token.end_ms token) (Token.text token) (g idx token))
         l)
    = map asSpoken l.
Proof.
  induction l as [|x r IH]; intros n; [reflexivity|].
  cbn [JS.mapiFrom map]. now rewrite IH.
Qed.

Lemma analyzeSegment_tokens `{Runtime} (segmentTokens : list Token.t)
  (segmentIndex : nat) (conversationId : string) (s : SegmentAnalysis.t) :
  analyzeSegment segmentTokens segmentIndex conversationId = Ok s ->
  map spoken (SegmentAnalysis.tokens s) = map asSpoken segmentTokens.
Proof.
  unfold analyzeSegment. intros Hs.
  destruct segmentTokens as [|first rest]; [discriminate|].
  destruct (JS.pop (first :: rest)); [|discriminate].
  injection Hs as <-. cbn [SegmentAnalysis.tokens]. unfold JS.mapi at 1.
  apply spoken_mapiFrom.
Qed.

(** X9. The tagger keeps the tokens of a segment one for one, in order,
    with id, offsets and text, and gives a token exactly one tag of kind
    ['filler'] when its text, lower-cased and stripped of punctuation, is
    one of the filler words, and none otherwise. *)
Theorem tagger_marks_filler_words `{Runtime} (segmentTokens : list Token.t)
  (segmentIndex : nat) (conversationId : string) (s : SegmentAnalysis.t)
  (i : nat) (token : Token.t) :
  analyzeSegment segmentTokens segmentIndex conversationId = Ok s ->
  nth_error segmentTokens i = Some token ->
  exists tagged,
    nth_error (SegmentAnalysis.tokens s) i = Some tagged /\
    spoken tagged = asSpoken token /\
    List.length
      (filter (fun tag => String.eqb (Tag.kind tag) "filler")
              (TokenWithTags.tags tagged))
    = if has FILLER_WORDS (normalize (Token.text token)) then 1%nat else 0%nat.
Proof.
  intros Hs Hi.
  pose proof (analyzeSegment_tokens _ _ _ _ Hs) as Htok.
  pose proof (analyzeSegment_filler_tags _ _ _ _ Hs) as Hfill.
  apply (f_equal (fun l => nth_error l i)) in Htok, Hfill.
  rewrite !nth_error_map, Hi in Htok, Hfill.
  destruct (nth_error (SegmentAnalysis.tokens s) i) as [tagged|]; [|discriminate].
  exists tagged. cbn [option_map] in Htok, Hfill.
  split; [reflexivity|]. split; [congruence|].
  injection Hfill as Hfill. exact Hfill.
Qed.

Lemma tagger_marks_filler_words_witness :
  @analyzeSegment integerRuntime [word_ "Um," 0 400; word_ "great." 400 600] 0 "c"
    = Ok (match @analyzeSegment integerRuntime
                  [word_ "Um," 0 400; word_ "great." 400 600] 0 "c"
          with Ok s => s | Err _ => SegmentAnalysis.mk "" 0 0 speech "" [] [] end) /\
  has FILLER_WORDS (normalize "Um,") = true.
Proof.
  split; [vm_compute; reflexivity|].
  destruct (@tagger_marks_filler_words integerRuntime
              [word_ "Um," 0 400; word_ "great." 400 600] 0 "c"
              (match @analyzeSegment integerRuntime
                       [word_ "Um," 0 400; word_ "great." 400 600] 0 "c"
               with Ok s => s | Err _ => SegmentAnalysis.mk "" 0 0 speech "" [] [] end)
              0 (word_ "Um," 0 400) eq_refl eq_refl) as (tagged & _ & _ & _).
  reflexivity.
Defined.

Lemma ltb_true (a b : Q) : JS.ltb a b = true <-> (a < b)%Q.
Proof.
  unfold JS.ltb. rewrite negb_true_iff. split.
  - intros E. apply Qnot_le_lt. intros Hle. apply Qle_bool_iff in Hle. congruence.
  - intros Hlt. destruct (Qle_bool b a) eqn:E; [|reflexivity].
    apply Qle_bool_iff in E. apply Qlt_not_le in Hlt. contradiction.
Qed.

Lemma ltb_false (a b : Q) : JS.ltb a b = false <-> (b <= a)%Q.
Proof.
  unfold JS.ltb. rewrite negb_false_iff. apply Qle_bool_iff.
Qed.

Lemma length_mapi {A B : Type} (f : nat -> A -> B) (l : list A) :
  List.length (JS.mapi f l) = List.length l.
Proof. apply length_mapiFrom. Qed.

(** X10. The pace tag of a segment follows its words per minute (tokens
    per second of span, times 60; 0 for a span of no duration): ['slow']
    exactly below 110, ['very_fast'] exactly above 200, ['fast'] exactly
    above 160 and up to 200; so a segment never carries two pace tags and
    one within 110 to 160 carries none. *)
Theorem pace_tag_follows_wpm `{Runtime} (segmentTokens : list Token.t)
  (segmentIndex : nat) (conversationId : string) (s : SegmentAnalysis.t) :
  analyzeSegment segmentTokens segmentIndex conversationId = Ok s ->
  hasKind "slow" s = JS.ltb (segmentWpm s) 110 /\
  hasKind "very_fast" s = JS.ltb 200 (segmentWpm s) /\
  hasKind "fast" s = (JS.ltb 160 (segmentWpm s) && JS.leb (segmentWpm s) 200).
Proof.
  unfold analyzeSegment. intros Hs.
  destruct segmentTokens as [|first rest]; [discriminate|].
  destruct (JS.pop (first :: rest)) as [final|]; [|discriminate].
  injection Hs as <-.
  unfold segmentWpm, hasKind.
  cbn [SegmentAnalysis.tags SegmentAnalysis.tokens SegmentAnalysis.startMs
       SegmentAnalysis.endMs].
  rewrite length_mapi.
  set (wpm := if JS.ltb 0 _ then _ else 0%Q).
  unfold segmentTags, pace.
  set (fillerPart := if Nat.ltb 2 _ then _ else _).
  set (hedgePart := if Nat.ltb 1 _ then _ else _).
  assert (Hother : forall kind,
             String.eqb "filler" kind = false -> String.eqb "hedging" kind = false ->
             existsb (fun t => String.eqb (Tag.kind t) kind)
                     (fillerPart ++ hedgePart) = false).
  { intros kind Hf Hh. rewrite existsb_app. subst fillerPart hedgePart.
    destruct (Nat.ltb 2 _), (Nat.ltb 1 _); cbn [existsb Tag.kind];
      rewrite ?Hf, ?Hh; reflexivity. }
  assert (H110 : (JS.ltb wpm 110 = true -> JS.ltb 200 wpm = false)
                 /\ (JS.ltb wpm 110 = true -> JS.ltb 160 wpm = false)).
  { split; intros E; apply ltb_true in E; apply ltb_false; lra. }
  assert (H200 : JS.ltb 200 wpm = true -> JS.ltb 160 wpm = true
                                          /\ JS.leb wpm 200 = false).
  { intros E. apply ltb_true in E. split; [apply ltb_true; lra|].
    unfold JS.leb. destruct (Qle_bool wpm 200) eqn:E'; [|reflexivity].
    apply Qle_bool_iff in E'. lra. }
  assert (Hle : JS.ltb 200 wpm = false -> JS.leb wpm 200 = true).
  { intros E. apply ltb_false in E. now apply Qle_bool_iff. }
  destruct (JS.ltb wpm 110) eqn:E1.
  - destruct H110 as [Ha Hb]. rewrite (Ha eq_refl), (Hb eq_refl).
    cbn [String.eqb orb app existsb Tag.kind Ascii.eqb Bool.eqb andb].
    rewrite !Hother by reflexivity. auto.
  - destruct (JS.ltb 200 wpm) eqn:E2.
    + destruct (H200 eq_refl) as [-> ->].
      cbn [String.eqb orb app existsb Tag.kind Ascii.eqb Bool.eqb andb].
      rewrite !Hother by reflexivity. auto.
    + rewrite (Hle eq_refl). destruct (JS.ltb 160 wpm) eqn:E3;
        cbn [String.eqb orb app existsb Tag.kind Ascii.eqb Bool.eqb andb];
        rewrite !Hother by reflexivity; auto.
Qed.

Lemma pace_tag_follows_wpm_witness :
  @analyzeSegment integerRuntime [word_ "ok." 0 200] 0 "c"
    = Ok (match @analyzeSegment integerRuntime [word_ "ok." 0 200] 0 "c"
          with Ok s => s | Err _ => SegmentAnalysis.mk "" 0 0 speech "" [] [] end) /\
  hasKind "very_fast"
    (match @analyzeSegment integerRuntime [word_ "ok." 0 200] 0 "c"
     with Ok s => s | Err _ => SegmentAnalysis.mk "" 0 0 speech "" [] [] end) = true.
Proof.
  split; [vm_compute; reflexivity|].
  destruct (@pace_tag_follows_wpm integerRuntime [word_ "ok." 0 200] 0 "c"
              (match @analyzeSegment integerRuntime [word_ "ok." 0 200] 0 "c"
               with Ok s => s | Err _ => SegmentAnalysis.mk "" 0 0 speech "" [] [] end)
              eq_refl) as (_ & Hv & _).
  rewrite Hv. vm_compute. reflexivity.
Defined.

Lemma In_concat_mapiFrom {A B : Type} (f : nat -> A -> list B) (l : list A)
  (y : B) :
  forall i,
    In y (List.concat (JS.mapiFrom i f l)) ->
    exists k x, nth_error l k = Some x /\ In y (f (i + k)%nat x).
Proof.
  induction l as [|x r IH]; intros i Hin; [contradiction|].
  cbn [JS.mapiFrom List.concat] in Hin. apply in_app_or in Hin.
  destruct Hin as [Hin|Hin].
  - exists 0%nat, x. rewrite Nat.add_0_r. auto.
  - apply IH in Hin. destruct Hin as (k & z & Hk & Hz).
    exists (S k), z. rewrite Nat.add_succ_r. auto.
Qed.

Lemma hedge_phrases_are_short :
  Forall (fun hedge =>
            (1 <= List.length (JS.split " " hedge) <= 2)%nat)
         HEDGING_STARTERS.
Proof. repeat constructor. Qed.

(** X11. Every hedging phrase the tagger finds in a segment is one of the
    fixed phrases, starts before the segment's last token and covers one
    or two tokens, so its range stays inside the segment; the last token
    of a segment never starts one. *)
Theorem hedges_stay_inside_the_segment (segmentTokens : list Token.t) (h : Hedge) :
  In h (hedgesOf segmentTokens) ->
  In (phrase h) HEDGING_STARTERS /\
  (startIndex h <= endIndex h <= startIndex h + 1)%nat /\
  (S (startIndex h) < List.length segmentTokens)%nat /\
  (endIndex h < List.length segmentTokens)%nat.
Proof.
  unfold hedgesOf, JS.mapi. intros Hin.
  apply In_concat_mapiFrom in Hin. destruct Hin as (k & x & Hk & Hin).
  cbn [Nat.add] in Hin. unfold hedgeAt in Hin.
  destruct (nth_error segmentTokens (S k)) as [f|] eqn:Ef; [|contradiction].
  cbv zeta in Hin.
  destruct (find _ HEDGING_STARTERS) as [hedge|] eqn:Efind; [|contradiction].
  destruct Hin as [<-|[]]. cbn [phrase startIndex endIndex].
  apply find_some in Efind. destruct Efind as [Hmem _].
  pose proof hedge_phrases_are_short as Hshort.
  rewrite Forall_forall in Hshort. specialize (Hshort hedge Hmem).
  assert (Hlen : (S k < List.length segmentTokens)%nat)
    by (apply nth_error_Some; congruence).
  split; [exact Hmem|]. lia.
Qed.

Lemma hedges_stay_inside_the_segment_witness :
  In {| phrase := "i think"; startIndex := 0; endIndex := 1 |}
     (hedgesOf [word_ "I" 0 100; word_ "think" 100 200; word_ "so." 200 300]) /\
  (1 < 3)%nat.
Proof.
  assert (Hin : In {| phrase := "i think"; startIndex := 0; endIndex := 1 |}
                   (hedgesOf [word_ "I" 0 100; word_ "think" 100 200;
                              word_ "so." 200 300]))
    by (vm_compute; left; reflexivity).
  split; [exact Hin|].
  exact (proj2 (proj2 (proj2 (hedges_stay_inside_the_segment _ _ Hin)))).
Defined.

(** ** The assembled run, further *)

Lemma analyzeFrom_cons_inv `{Runtime} (g : nat) (conversationId : string)
  (piece : list Token.t) (rest : list (list Token.t))
  (l : list SegmentAnalysis.t) :
  analyzeFrom g conversationId (piece :: rest) = Ok l ->
  exists s l',
    analyzeSegment piece g conversationId = Ok s /\
    analyzeFrom (S g) conversationId rest = Ok l' /\ l = s :: l'.
Proof.
  cbn [analyzeFrom]. intros Hl.
  destruct (analyzeSegment piece g conversationId) as [s|e]; [|discriminate].
  cbn [bind] in Hl.
  destruct (analyzeFrom (S g) conversationId rest) as [l'|e]; [|discriminate].
  cbn [bind] in Hl. injection Hl as <-. eauto.
Qed.

Lemma analyzeFrom_tokens `{Runtime} (conversationId : string)
  (pieces : list (list Token.t)) :
  forall g l,
    analyzeFrom g conversationId pieces = Ok l ->
    map spoken (List.concat (map SegmentAnalysis.tokens l))
      = map asSpoken (List.concat pieces) /\
    map fillersOf (List.concat (map SegmentAnalysis.tokens l))
      = map (fun token => if isFillerWord token then 1%nat else 0%nat)
            (List.concat pieces).
Proof.
  induction pieces as [|piece rest IH]; intros g l Hl.
  - cbn in Hl. injection Hl as <-. split; reflexivity.
  - apply analyzeFrom_cons_inv in Hl. destruct Hl as (s & l' & Hs & Hl' & ->).
    destruct (IH _ _ Hl') as [IH1 IH2].
    cbn [map List.concat]. rewrite !map_app, IH1, IH2.
    rewrite (analyzeSegment_tokens _ _ _ _ Hs).
    rewrite (analyzeSegment_filler_tags _ _ _ _ Hs). split; reflexivity.
Qed.

Lemma pieces_concat (blocks : list (list Token.t)) :
  List.concat (List.concat (map (fun b => splitBySentences b 4) blocks))
  = List.concat blocks.
Proof.
  induction blocks as [|b bs IH]; [reflexivity|].
  cbn [map List.concat]. rewrite concat_app, IH.
  now rewrite (proj1 (splitBySentences_pieces b)).
Qed.

Lemma buildSegments_inv `{Runtime} (conversationId : string)
  (tokens : list Token.t) (allSegments speechSegments : list SegmentAnalysis.t)
  (pauses : list Pause.t) :
  buildSegments conversationId tokens = Ok (allSegments, speechSegments, pauses) ->
  let blocks := fst (splitIntoSegmentsDynamic (addPunctuationToTokens tokens)) in
  let perBlock := map (fun b => splitBySentences b 4) blocks in
  analyzeFrom 0 conversationId (List.concat perBlock) = Ok speechSegments /\
  Forall2 Spans speechSegments (List.concat perBlock) /\
  pauses = snd (splitIntoSegmentsDynamic (addPunctuationToTokens tokens)) /\
  allSegments = interleave conversationId 0 perBlock speechSegments pauses.
Proof.
  intros Hb. cbv zeta.
  destruct (buildSegments_total conversationId tokens) as (analyzed & Ha & Hs & Heq).
  rewrite Heq in Hb. injection Hb as <- <- <-. auto.
Qed.

Lemma punctuated_blocks_concat (tokens : list Token.t) :
  List.concat (fst (splitIntoSegmentsDynamic (addPunctuationToTokens tokens)))
  = addPunctuationToTokens tokens.
Proof.
  destruct (splitIntoSegmentsDynamic_shape (addPunctuationToTokens tokens))
    as (s & _ & _ & Hcat). exact Hcat.
Qed.

(** X12. Every token belongs to exactly one speech segment: read in order,
    the tokens of the speech segments of a run are the punctuated input
    tokens, one for one, with id, offsets and text. *)
Theorem speech_segments_partition_the_tokens `{Runtime} (conversationId : string)
  (tokens : list Token.t) (allSegments speechSegments : list SegmentAnalysis.t)
  (pauses : list Pause.t) :
  buildSegments conversationId tokens = Ok (allSegments, speechSegments, pauses) ->
  map spoken (List.concat (map SegmentAnalysis.tokens speechSegments))
  = map asSpoken (addPunctuationToTokens tokens).
Proof.
  intros Hb. apply buildSegments_inv in Hb. destruct Hb as (Ha & _).
  apply analyzeFrom_tokens in Ha. destruct Ha as [Ha _].
  now rewrite Ha, pieces_concat, punctuated_blocks_concat.
Qed.

Lemma speech_segments_partition_witness :
  timeline (@buildSegments integerRuntime "c" specExample)
    = [(0, 200, speech); (200, 2500, pause); (2500, 3100, speech)] /\
  map asSpoken (addPunctuationToTokens specExample)
    = [("", 0, 200, "ok."); ("", 2500, 2900, "um"); ("", 2900, 3100, "great.")].
Proof.
  split; [vm_compute; reflexivity|].
  destruct (@buildSegments integerRuntime "c" specExample)
    as [[[allSegments speechSegments] pauses]|e] eqn:Hb.
  - rewrite <- (@speech_segments_partition_the_tokens integerRuntime "c"
                  specExample allSegments speechSegments pauses Hb).
    vm_compute in Hb. injection Hb as <- <- <-. reflexivity.
  - vm_compute in Hb. discriminate.
Defined.

Lemma analyze_inv `{Runtime} (conversationId : string) (draws : Draws)
  (replies : Replies) (tokens : list Token.t) (r : AnalysisResult.t) :
  analyze conversationId draws replies tokens = Ok r ->
  exists allSegments speechSegments pauses issues,
    tokens <> [] /\
    buildSegments conversationId tokens
      = Ok (allSegments, speechSegments, pauses) /\
    generateOverallIssues speechSegments conversationId (issuesReply replies)
      = Ok issues /\
    r = AnalysisResult.mk
          (generateSessionTitle speechSegments
             (calculateMetrics speechSegments pauses draws) (titleReply replies))
          allSegments (calculateMetrics speechSegments pauses draws) issues
          (generateCoachingHighlights speechSegments
             (calculateMetrics speechSegments pauses draws) [] conversationId
             (highlightsReply replies)).
Proof.
  unfold analyze. intros Hr.
  destruct tokens as [|t0 rest]; [discriminate|].
  cbn [List.length Nat.eqb] in Hr.
  destruct (buildSegments conversationId (t0 :: rest))
    as [[[allSegments speechSegments] pauses]|e] eqn:Eb; [|discriminate].
  cbn [bind] in Hr. unfold enrich in Hr.
  destruct (generateOverallIssues speechSegments conversationId
              (issuesReply replies)) as [issues|e] eqn:Ei; [|discriminate].
  cbn [bind] in Hr. injection Hr as <-.
  exists allSegments, speechSegments, pauses, issues.
  split; [discriminate|]. split; [reflexivity|]. split; [exact Ei|reflexivity].
Qed.

Lemma list_sum_concat (ll : list (list nat)) :
  list_sum (List.concat ll) = list_sum (map list_sum ll).
Proof.
  induction ll as [|l r IH]; [reflexivity|].
  cbn [List.concat map]. rewrite list_sum_app, IH. reflexivity.
Qed.

Lemma list_sum_indicator {A : Type} (p : A -> bool) (l : list A) :
  list_sum (map (fun x => if p x then 1%nat else 0%nat) l)
  = List.length (filter p l).
Proof.
  induction l as [|x r IH]; [reflexivity|].
  cbn [map filter]. destruct (p x); cbn [List.length];
    change (list_sum (?a :: ?l)) with (a + list_sum l)%nat; rewrite IH; reflexivity.
Qed.

Lemma totalWords_length (segments : list SegmentAnalysis.t) :
  totalWords segments
  = List.length (List.concat (map SegmentAnalysis.tokens segments)).
Proof.
  unfold totalWords. rewrite fold_left_add_nat. cbn [Nat.add].
  induction segments as [|s r IH]; [reflexivity|].
  cbn [map List.concat]. rewrite length_app, <- IH. reflexivity.
Qed.

(** X13. In the metrics of a completed run, [totalWords] is the number of
    input tokens and [fillerCount] is the number of tokens whose
    punctuated text, lower-cased and stripped of punctuation, is a filler
    word: neither segmentation pass loses or repeats a token. *)
Theorem run_counts_every_token_once `{Runtime} (conversationId : string)
  (draws : Draws) (replies : Replies) (tokens : list Token.t)
  (r : AnalysisResult.t) :
  analyze conversationId draws replies tokens = Ok r ->
  Metrics.totalWords (AnalysisResult.metrics r) = num (List.length tokens) /\
  Metrics.fillerCount (AnalysisResult.metrics r)
  = num (List.length (filter isFillerWord (addPunctuationToTokens tokens))).
Proof.
  intros Hr. apply analyze_inv in Hr.
  destruct Hr as (allSegments & speechSegments & pauses & issues
                  & _ & Hb & _ & ->).
  cbn [AnalysisResult.metrics]. unfold calculateMetrics.
  cbn [Metrics.totalWords Metrics.fillerCount].
  apply buildSegments_inv in Hb. destruct Hb as (Ha & _).
  apply analyzeFrom_tokens in Ha. destruct Ha as [Hsp Hfill].
  rewrite pieces_concat, punctuated_blocks_concat in Hsp, Hfill.
  split; f_equal.
  - rewrite totalWords_length.
    rewrite <- (length_map spoken), Hsp, length_map.
    apply addPunctuationToTokens_length.
  - rewrite countFillers_sum.
    rewrite <- (map_map SegmentAnalysis.tokens (fun l => list_sum (map fillersOf l))).
    rewrite <- (map_map (map fillersOf) list_sum), <- list_sum_concat.
    rewrite <- concat_map, Hfill. apply list_sum_indicator.
Qed.

Lemma run_counts_every_token_once_witness :
  (exists r, @analyze integerRuntime "c" (Build_Draws 0 0 0) proseReplies
               specExample = Ok r) /\
  num (List.length specExample) = inject_Z 3.
Proof.
  split; [eexists; vm_compute; reflexivity|].
  destruct (@analyze integerRuntime "c" (Build_Draws 0 0 0) proseReplies
              specExample) as [r|e] eqn:Hr.
  - rewrite <- (proj1 (@run_counts_every_token_once integerRuntime "c"
                         (Build_Draws 0 0 0) proseReplies specExample r Hr)).
    vm_compute in Hr. injection Hr as <-. reflexivity.
  - vm_compute in Hr. discriminate.
Defined.

Lemma group_by_blocks (ll : list (list (list Token.t))) :
  forall l,
    Forall2 Spans l (List.concat ll) ->
    exists groups,
      l = List.concat groups /\ Forall2 (Forall2 Spans) groups ll.
Proof.
  induction ll as [|cs rest IH]; intros l Hl.
  - cbn in Hl. inversion Hl. exists []. split; [reflexivity|constructor].
  - cbn [List.concat] in Hl. apply Forall2_app_inv_r in Hl.
    destruct Hl as (l1 & l2 & H1 & H2 & ->).
    destruct (IH _ H2) as (groups & -> & Hg).
    exists (l1 :: groups). split; [reflexivity|now constructor].
Qed.

Lemma interleave_weave `{Runtime} (conversationId : string)
  (pauses : list Pause.t) (perBlock : list (list (list Token.t))) :
  forall k groups,
    Forall2 (Forall2 Spans) groups perBlock ->
    interleave conversationId k perBlock (List.concat groups) pauses
    = weave conversationId k groups pauses.
Proof.
  induction perBlock as [|cs rest IH]; intros k groups Hg.
  - inversion Hg. reflexivity.
  - inversion Hg as [|g cs' groups' rest' Hgc Hrest]; subst.
    cbn [interleave weave List.concat].
    destruct (firstn_skipn_exact g (List.concat groups') _ (Forall2_length Hgc))
      as [-> ->].
    now rewrite IH.
Qed.

Lemma isSpeech_pauseSegment `{Runtime} (conversationId : string) (k : nat)
  (p : Pause.t) :
  isSpeech (pauseSegment conversationId k p) = false /\
  isPause (pauseSegment conversationId k p) = true.
Proof. split; reflexivity. Qed.

Lemma filter_all {A : Type} (p : A -> bool) (l : list A) :
  Forall (fun x => p x = true) l -> filter p l = l.
Proof.
  induction 1 as [|x r Hx _ IH]; [reflexivity|]. cbn. now rewrite Hx, IH.
Qed.

Lemma filter_none {A : Type} (p : A -> bool) (l : list A) :
  Forall (fun x => p x = false) l -> filter p l = [].
Proof.
  induction 1 as [|x r Hx _ IH]; [reflexivity|]. cbn. now rewrite Hx, IH.
Qed.

Lemma NoAdjacentPauses_app (l1 l2 : list SegmentAnalysis.t) :
  NoAdjacentPauses l1 -> NoAdjacentPauses l2 ->
  (forall a b, JS.pop l1 = Some a -> hd_error l2 = Some b ->
     SegmentAnalysis.kind a = speech \/ SegmentAnalysis.kind b = speech) ->
  NoAdjacentPauses (l1 ++ l2).
Proof.
  induction l1 as [|x r IH]; intros H1 H2 Hadj; [exact H2|].
  destruct r as [|y r'].
  - cbn [app]. destruct l2 as [|b l2']; [exact I|].
    cbn [NoAdjacentPauses]. split; [apply Hadj; reflexivity|exact H2].
  - cbn [app NoAdjacentPauses] in H1 |- *. destruct H1 as [Hxy Hr].
    split; [exact Hxy|]. apply IH; [exact Hr|exact H2|].
    intros a b Ha Hb. apply Hadj; [|exact Hb].
    rewrite pop_cons by discriminate. exact Ha.
Qed.

Lemma speech_run (g : list SegmentAnalysis.t) :
  Forall (fun s => SegmentAnalysis.kind s = speech) g -> NoAdjacentPauses g.
Proof.
  induction 1 as [|x r Hx Hr IH]; [exact I|].
  destruct r; [exact I|]. cbn [NoAdjacentPauses]. auto.
Qed.

Lemma speech_group (g : list SegmentAnalysis.t) (cs : list (list Token.t)) :
  Forall2 Spans g cs -> Forall (fun s => SegmentAnalysis.kind s = speech) g.
Proof. induction 1 as [|x y l l' [Hx _] _ IH]; constructor; auto. Qed.

Lemma weave_shape `{Runtime} (conversationId : string)
  (groups : list (list SegmentAnalysis.t)) :
  forall pre qs,
    Forall (fun g => g <> [] /\
                     Forall (fun s => SegmentAnalysis.kind s = speech) g) groups ->
    List.length qs = pred (List.length groups) ->
    let out := weave conversationId (List.length pre) groups (pre ++ qs) in
    filter isSpeech out = List.concat groups /\
    List.length (filter isPause out) = List.length qs /\
    NoAdjacentPauses out /\
    (forall s, hd_error out = Some s -> SegmentAnalysis.kind s = speech) /\
    (forall s, JS.pop out = Some s -> SegmentAnalysis.kind s = speech) /\
    (groups <> [] -> out <> []).
Proof.
  induction groups as [|g rest IH]; intros pre qs Hall Hlen out.
  - subst out. destruct qs; [|discriminate]. cbn.
    repeat split; auto; intros; discriminate.
  - inversion Hall as [|g' rest' [Hne Hsp] Hrest]; subst g' rest'.
    assert (Hfs : filter isSpeech g = g).
    { apply filter_all. eapply Forall_impl; [|exact Hsp].
      intros a Ha. unfold isSpeech. now rewrite Ha. }
    assert (Hfp : filter isPause g = []).
    { apply filter_none. eapply Forall_impl; [|exact Hsp].
      intros a Ha. unfold isPause. now rewrite Ha. }
    assert (Hhd : forall l s, hd_error (g ++ l) = Some s ->
                    SegmentAnalysis.kind s = speech).
    { intros l s Hs. rewrite hd_error_app_nonempty in Hs by exact Hne.
      rewrite Forall_forall in Hsp. apply Hsp.
      destruct g; [discriminate|]. cbn in Hs. injection Hs as <-. now left. }
    assert (Hlast : forall s, JS.pop g = Some s ->
                      SegmentAnalysis.kind s = speech).
    { intros s Hs. rewrite Forall_forall in Hsp. apply Hsp.
      unfold JS.pop in Hs. destruct (rev g) as [|x r] eqn:E; [discriminate|].
      injection Hs as ->. apply in_rev. rewrite E. now left. }
    subst out. cbn [weave]. rewrite nth_error_length_app.
    destruct rest as [|g2 rest2].
    + destruct qs; [|discriminate]. cbn [hd_error weave app List.concat].
      rewrite !app_nil_r. rewrite Hfs, Hfp.
      split; [reflexivity|]. split; [reflexivity|].
      split; [now apply speech_run|].
      split; [intros s Hs; apply (Hhd [] s); now rewrite app_nil_r|].
      split; [exact Hlast|]. intros _. exact Hne.
    + destruct qs as [|p qs']; [discriminate|]. cbn [hd_error].
      assert (Hpre : pre ++ p :: qs' = (pre ++ [p]) ++ qs')
        by (now rewrite <- app_assoc).
      assert (HS : S (List.length pre) = List.length (pre ++ [p]))
        by (rewrite length_app; cbn; lia).
      rewrite Hpre, HS.
      destruct (IH (pre ++ [p]) qs' Hrest ltac:(cbn in *; lia))
        as (IHs & IHp & IHn & IHh & IHl & IHne).
      cbv zeta in IHs, IHp, IHn, IHh, IHl, IHne.
      set (rec := weave conversationId (List.length (pre ++ [p])) (g2 :: rest2)
                    ((pre ++ [p]) ++ qs')) in *.
      specialize (IHne ltac:(discriminate)).
      set (ps := pauseSegment conversationId (List.length pre) p).
      rewrite !filter_app, Hfs, Hfp, IHs. cbn [filter].
      change (isSpeech ps) with false. change (isPause ps) with true.
      cbn [app List.concat List.length]. rewrite IHp.
      split; [reflexivity|]. split; [reflexivity|].
      split; [|split; [intros s; apply Hhd|split]].
      * apply NoAdjacentPauses_app; [now apply speech_run| |].
        { destruct rec as [|r0 rec'] eqn:Erec; [now contradiction IHne|].
          cbn [NoAdjacentPauses]. split; [|exact IHn].
          right. apply IHh. reflexivity. }
        { intros a b Ha _. left. now apply Hlast. }
      * intros s Hs.
        rewrite pop_app in Hs by (destruct rec; discriminate).
        rewrite pop_cons in Hs by exact IHne. now apply IHl.
      * intros _ E. apply app_eq_nil in E. destruct E as [E _]. now apply Hne.
Qed.

(** X14. In the assembled list of a run the speech segments are, in order,
    exactly the analysed speech segments; there are as many pause segments
    as Pass A recorded pauses; the list begins and ends with a speech
    segment; and no two pause segments stand next to each other. *)
Theorem pauses_stand_between_speech_segments `{Runtime} (conversationId : string)
  (tokens : list Token.t) (allSegments speechSegments : list SegmentAnalysis.t)
  (pauses : list Pause.t) :
  buildSegments conversationId tokens = Ok (allSegments, speechSegments, pauses) ->
  filter isSpeech allSegments = speechSegments /\
  List.length (filter isPause allSegments) = List.length pauses /\
  NoAdjacentPauses allSegments /\
  (forall s, hd_error allSegments = Some s -> SegmentAnalysis.kind s = speech) /\
  (forall s, JS.pop allSegments = Some s -> SegmentAnalysis.kind s = speech).
Proof.
  intros Hb. apply buildSegments_inv in Hb. cbv zeta in Hb.
  destruct Hb as (_ & Hspans & Hp & ->).
  destruct (splitIntoSegmentsDynamic_shape (addPunctuationToTokens tokens))
    as (s & HP & _ & _).
  set (blocks := fst (splitIntoSegmentsDynamic (addPunctuationToTokens tokens))) in *.
  rewrite <- Hp in HP.
  destruct (group_by_blocks _ _ Hspans) as (groups & -> & Hg).
  rewrite (interleave_weave conversationId pauses _ 0 groups Hg).
  assert (Hlen : List.length groups = List.length blocks)
    by (rewrite (Forall2_length Hg); apply length_map).
  assert (Hall : Forall (fun g => g <> [] /\
                   Forall (fun s => SegmentAnalysis.kind s = speech) g) groups).
  { assert (Hne : Forall (fun cs : list (list Token.t) => cs <> [])
                    (map (fun b => splitBySentences b 4) blocks)).
    { apply Forall_forall. intros cs Hcs. apply in_map_iff in Hcs.
      destruct Hcs as (b & <- & Hb).
      pose proof (PassA_nonempty _ _ _ _ HP Hb) as Hbne.
      destruct (splitBySentences_pieces b) as (Hcat & _).
      intros E. rewrite E in Hcat. cbn in Hcat. congruence. }
    clear -Hg Hne. induction Hg as [|g cs gs css Hgc _ IH]; [constructor|].
    inversion Hne as [|? ? Hcs Hcss]; subst. constructor; [|now apply IH].
    split; [|eapply speech_group; eauto].
    intros ->. inversion Hgc. congruence. }
  destruct (weave_shape conversationId groups [] pauses Hall
              ltac:(rewrite Hlen; eapply PassA_length; eauto))
    as (Hs & Hps & Hn & Hh & Hl & _).
  cbn [List.length app] in Hs, Hps, Hn, Hh, Hl. auto.
Qed.

Lemma pauses_stand_between_speech_segments_witness :
  timeline (@buildSegments integerRuntime "c" cappedTokens)
    = [(0, 25000, speech); (25000, 25000, pause); (25000, 25100, speech)] /\
  (exists allSegments speechSegments pauses,
     @buildSegments integerRuntime "c" cappedTokens
       = Ok (allSegments, speechSegments, pauses) /\
     List.length (filter isPause allSegments) = List.length pauses).
Proof.
  split; [vm_compute; reflexivity|].
  destruct (@buildSegments integerRuntime "c" cappedTokens)
    as [[[allSegments speechSegments] pauses]|e] eqn:Hb.
  - exists allSegments, speechSegments, pauses. split; [reflexivity|].
    exact (proj1 (proj2 (@pauses_stand_between_speech_segments integerRuntime "c"
                           cappedTokens allSegments speechSegments pauses Hb))).
  - vm_compute in Hb. discriminate.
Defined.

(** ** The metrics calculator, further *)

Lemma hd_error_concat {A : Type} (l : list A) (ll : list (list A)) :
  l <> [] -> hd_error (List.concat (l :: ll)) = hd_error l.
Proof. intros Hl. cbn [List.concat]. now apply hd_error_app_nonempty. Qed.

Lemma pop_concat {A : Type} (ll : list (list A)) :
  Forall (fun l => l <> []) ll ->
  JS.pop (List.concat ll)
  = match JS.pop ll with Some l => JS.pop l | None => None end.
Proof.
  induction 1 as [|p rest Hp Hrest IH]; [reflexivity|].
  destruct rest as [|q rest'].
  - cbn [List.concat]. now rewrite app_nil_r.
  - rewrite (pop_cons p (q :: rest')) by discriminate. rewrite <- IH.
    cbn [List.concat]. apply pop_app.
    inversion Hrest as [|? ? Hq _]; subst. cbn [List.concat].
    destruct q; [now contradiction Hq|discriminate].
Qed.

Lemma Forall2_pop {A B : Type} (R : A -> B -> Prop) (l : list A) (l' : list B) :
  Forall2 R l l' ->
  forall b, JS.pop l' = Some b -> exists a, JS.pop l = Some a /\ R a b.
Proof.
  induction 1 as [|x y r r' Hxy Hr IH]; intros b Hb; [discriminate|].
  destruct r' as [|y' r''].
  - inversion Hr; subst. cbn in Hb. injection Hb as <-. exists x. now split.
  - rewrite pop_cons in Hb by discriminate.
    destruct (IH b Hb) as (a & Ha & Hab). exists a. split; [|exact Hab].
    rewrite pop_cons; [exact Ha|]. inversion Hr; discriminate.
Qed.

Lemma spans_total_duration (segments : list SegmentAnalysis.t)
  (pieces : list (list Token.t)) (first final : Token.t) :
  Forall2 Spans segments pieces ->
  Forall (fun piece => piece <> []) pieces ->
  hd_error (List.concat pieces) = Some first ->
  JS.pop (List.concat pieces) = Some final ->
  totalDurationMs segments = Token.end_ms final - Token.start_ms first.
Proof.
  intros Hspans Hne Hfirst Hfinal.
  rewrite (pop_concat _ Hne) in Hfinal.
  destruct (JS.pop pieces) as [lastPiece|] eqn:Hlast; [|discriminate].
  destruct (Forall2_pop _ _ _ Hspans _ Hlast) as (sl & Hsl & _ & f2 & l2 & _ & Hl2 & _ & He).
  rewrite Hfinal in Hl2. injection Hl2 as <-.
  destruct Hspans as [|s0 p0 segs ps (_ & f1 & l1 & Hf1 & _ & Hs & _) Hrest];
    [discriminate|].
  inversion Hne as [|? ? Hp0 _]; subst.
  rewrite (hd_error_concat p0 ps Hp0), Hf1 in Hfirst. injection Hfirst as <-.
  unfold totalDurationMs. rewrite Hsl, He, Hs. reflexivity.
Qed.

(** X15. The duration a completed run reports is the recording's wall-clock
    span, from the start of the first input token to the end of the last
    one, in seconds and rounded to the nearest integer (a half rounding
    up): recorded pauses are part of it. *)
Theorem run_duration_is_the_recording_span `{Runtime} (conversationId : string)
  (draws : Draws) (replies : Replies) (tokens : list Token.t)
  (r : AnalysisResult.t) (first final : Token.t) :
  analyze conversationId draws replies tokens = Ok r ->
  hd_error tokens = Some first ->
  JS.pop tokens = Some final ->
  Metrics.durationSec (AnalysisResult.metrics r)
  = inject_Z (JS.Math_round
                (inject_Z (Token.end_ms final - Token.start_ms first) / 1000)%Q).
Proof.
  intros Hr Hfirst Hfinal. apply analyze_inv in Hr.
  destruct Hr as (allSegments & speechSegments & pauses & issues
                  & _ & Hb & _ & ->).
  cbn [AnalysisResult.metrics]. unfold calculateMetrics.
  cbn [Metrics.durationSec].
  apply buildSegments_inv in Hb. cbv zeta in Hb. destruct Hb as (_ & Hspans & _).
  destruct (splitIntoSegmentsDynamic_shape (addPunctuationToTokens tokens))
    as (s & HP & _ & Hcat).
  set (blocks := fst (splitIntoSegmentsDynamic (addPunctuationToTokens tokens))) in *.
  assert (Hne : Forall (fun b : list Token.t => b <> []) blocks).
  { apply Forall_forall. intros b Hb. eapply PassA_nonempty; eauto. }
  pose proof (pieces_concat blocks) as Hpieces. rewrite Hcat in Hpieces.
  pose proof (addPunctuationToTokens_times tokens) as Htimes.
  assert (Hf : exists first', hd_error (addPunctuationToTokens tokens) = Some first'
                              /\ times first' = times first).
  { pose proof (f_equal (@hd_error _) Htimes) as E.
    rewrite !hd_error_map, Hfirst in E.
    destruct (hd_error (addPunctuationToTokens tokens)) as [x|]; [|discriminate].
    exists x. split; [reflexivity|]. cbn in E. congruence. }
  assert (Hl : exists final', JS.pop (addPunctuationToTokens tokens) = Some final'
                              /\ times final' = times final).
  { pose proof (f_equal (@JS.pop _) Htimes) as E.
    rewrite !pop_map, Hfinal in E.
    destruct (JS.pop (addPunctuationToTokens tokens)) as [x|]; [|discriminate].
    exists x. split; [reflexivity|]. cbn in E. congruence. }
  destruct Hf as (first' & Hf & Ef). destruct Hl as (final' & Hl & El).
  rewrite <- Hpieces in Hf, Hl.
  rewrite (spans_total_duration _ _ first' final' Hspans
             (contentSegments_nonempty blocks Hne) Hf Hl).
  apply times_eq in Ef. apply times_eq in El.
  destruct Ef as [-> _]. destruct El as [_ ->]. reflexivity.
Qed.

Lemma run_duration_is_the_recording_span_witness :
  (exists r, @analyze integerRuntime "c" (Build_Draws 0 0 0) proseReplies
               specExample = Ok r /\
             Metrics.durationSec (AnalysisResult.metrics r) = inject_Z 3).
Proof.
  destruct (@analyze integerRuntime "c" (Build_Draws 0 0 0) proseReplies
              specExample) as [r|e] eqn:Hr.
  - exists r. split; [reflexivity|].
    rewrite (@run_duration_is_the_recording_span integerRuntime "c"
               (Build_Draws 0 0 0) proseReplies specExample r
               (word_ "ok" 0 200) (word_ "great" 2900 3100) Hr
               eq_refl eq_refl).
    reflexivity.
  - vm_compute in Hr. discriminate.
Defined.

Lemma floor_half_bounds (lo hi : Z) (q : Q) :
  (inject_Z lo <= q)%Q -> (q <= inject_Z hi)%Q ->
  lo <= Qfloor (q + (1 # 2)) <= hi.
Proof.
  intros Hlo Hhi. split.
  - rewrite <- (Qfloor_Z lo). apply Qfloor_resp_le. lra.
  - pose proof (Qfloor_le (q + (1 # 2))) as Hfl.
    assert (Hz : (inject_Z (Qfloor (q + (1 # 2))) < inject_Z (hi + 1))%Q)
      by (rewrite inject_Z_plus; change (inject_Z 1) with 1%Q; lra).
    rewrite <- Zlt_Qlt in Hz. lia.
Qed.

Lemma Math_round_nonneg (q : Q) : (0 <= q)%Q -> 0 <= JS.Math_round q.
Proof.
  intros Hq. unfold JS.Math_round.
  change 0 with (Qfloor 0). apply Qfloor_resp_le. lra.
Qed.

Lemma Qmake_nonneg (z : Z) (p : positive) : 0 <= z -> (0 <= Qmake z p)%Q.
Proof. intros Hz. unfold Qle. cbn. lia. Qed.

Lemma roundTo_nonneg (digits : nat) (q : Q) :
  (0 <= q)%Q -> (0 <= JS.roundTo digits q)%Q.
Proof.
  intros Hq. unfold JS.roundTo. cbv zeta.
  replace (Qle_bool 0 q) with true by (symmetry; now apply Qle_bool_iff).
  apply Qmake_nonneg. change 0 with (Qfloor 0). apply Qfloor_resp_le.
  assert (0 <= Qabs q)%Q by apply Qabs_nonneg.
  assert (0 <= inject_Z (10 ^ Z.of_nat digits))%Q.
  { change 0%Q with (inject_Z 0). rewrite <- Zle_Qle. apply Z.pow_nonneg. lia. }
  assert (0 <= Qabs q * inject_Z (10 ^ Z.of_nat digits))%Q
    by now apply Qmult_le_0_compat.
  lra.
Qed.

Lemma roundTo_at_most_one (digits : nat) (q : Q) :
  (0 <= q)%Q -> (q <= 1)%Q -> (JS.roundTo digits q <= 1)%Q.
Proof.
  intros H0 H1. unfold JS.roundTo. cbv zeta.
  replace (Qle_bool 0 q) with true by (symmetry; now apply Qle_bool_iff).
  set (scale := 10 ^ Z.of_nat digits).
  assert (Hs : 0 < scale) by (apply Z.pow_pos_nonneg; lia).
  assert (Hm : Qfloor (Qabs q * inject_Z scale + (1 # 2)) <= scale).
  { rewrite Qabs_pos by exact H0.
    assert (E : (q * inject_Z scale + (1 # 2) <= inject_Z scale + (1 # 2))%Q).
    { assert (0 < inject_Z scale)%Q
        by (change 0%Q with (inject_Z 0); now rewrite <- Zlt_Qlt).
      assert (q * inject_Z scale <= 1 * inject_Z scale)%Q
        by (apply Qmult_le_compat_r; [exact H1|lra]).
      lra. }
    apply Qfloor_resp_le in E. etransitivity; [exact E|].
    assert (Hlt : (inject_Z scale + (1 # 2) < inject_Z (scale + 1))%Q)
      by (rewrite inject_Z_plus; change (inject_Z 1) with 1%Q; lra).
    pose proof (Qfloor_le (inject_Z scale + (1 # 2))) as Hfl.
    assert (Hz : (inject_Z (Qfloor (inject_Z scale + (1 # 2))) < inject_Z (scale + 1))%Q)
      by lra.
    rewrite <- Zlt_Qlt in Hz. lia. }
  unfold Qle. cbn [Qnum Qden]. rewrite Z2Pos.id by exact Hs. lia.
Qed.

Lemma Qdiv_nonneg (a b : Q) : (0 <= a)%Q -> (0 < b)%Q -> (0 <= a / b)%Q.
Proof.
  intros Ha Hb. unfold Qdiv. apply Qmult_le_0_compat; [exact Ha|].
  apply Qinv_le_0_compat. lra.
Qed.

Lemma num_nonneg (n : nat) : (0 <= num n)%Q.
Proof.
  unfold num. change 0%Q with (inject_Z 0). rewrite <- Zle_Qle. lia.
Qed.

Lemma inject_Z_nonneg (z : Z) : 0 <= z -> (0 <= inject_Z z)%Q.
Proof. intros Hz. now rewrite <- (Zle_Qle 0). Qed.

Lemma nearest_at_most (q c : Q) :
  (0 <= q)%Q -> (q <= c)%Q -> Qeq_bool (Double.nearest c) c = true ->
  (Double.nearest q <= c)%Q.
Proof.
  intros H0 Hq Hc. apply Qeq_bool_iff in Hc. rewrite <- Hc.
  now apply nearest_monotone.
Qed.

Lemma nearest_at_least (q c : Q) :
  (0 <= c)%Q -> (c <= q)%Q -> Qeq_bool (Double.nearest c) c = true ->
  (c <= Double.nearest q)%Q.
Proof.
  intros H0 Hq Hc. apply Qeq_bool_iff in Hc. rewrite <- Hc.
  now apply nearest_monotone.
Qed.

Lemma roundTo_monotone (digits : nat) (q r : Q) :
  (0 <= q)%Q -> (q <= r)%Q -> (JS.roundTo digits q <= JS.roundTo digits r)%Q.
Proof.
  intros Hq Hqr. assert (Hr : (0 <= r)%Q) by lra.
  unfold JS.roundTo. cbv zeta.
  replace (Qle_bool 0 q) with true by (symmetry; now apply Qle_bool_iff).
  replace (Qle_bool 0 r) with true by (symmetry; now apply Qle_bool_iff).
  rewrite !Qabs_pos by assumption.
  set (scale := 10 ^ Z.of_nat digits).
  assert (Hs : 0 < scale) by (apply Z.pow_pos_nonneg; lia).
  assert (Hsq : (0 < inject_Z scale)%Q) by now rewrite <- (Zlt_Qlt 0).
  assert (Hm : Qfloor (q * inject_Z scale + (1 # 2))
               <= Qfloor (r * inject_Z scale + (1 # 2))).
  { apply Qfloor_resp_le.
    assert (q * inject_Z scale <= r * inject_Z scale)%Q
      by (apply Qmult_le_compat_r; [exact Hqr|lra]).
    lra. }
  unfold Qle. cbn [Qnum Qden]. rewrite Z2Pos.id by exact Hs.
  now apply Z.mul_le_mono_nonneg_r; [lia|].
Qed.

(** X16. Whatever segments it is given (none at all, segments of zero or
    negative length, segments out of order), [calculateMetrics] reports no
    negative word count, pace, filler count or filler rate, and a
    [stressSpeedIndex] between 0 and 1: each quotient is taken only over a
    positive denominator. *)
Theorem metrics_are_never_negative (segments : list SegmentAnalysis.t)
  (pauses : list Pause.t) (draws : Draws) :
  let m := calculateMetrics segments pauses draws in
  (0 <= Metrics.totalWords m)%Q /\
  (0 <= Metrics.avgWpm m)%Q /\
  (0 <= Metrics.fillerCount m)%Q /\
  (0 <= Metrics.fillerPerMinute m)%Q /\
  (0 <= Metrics.stressSpeedIndex m)%Q /\
  (Metrics.stressSpeedIndex m <= 1)%Q.
Proof.
  cbv zeta. unfold calculateMetrics.
  cbn [Metrics.totalWords Metrics.avgWpm Metrics.fillerCount
       Metrics.fillerPerMinute Metrics.stressSpeedIndex].
  split; [apply num_nonneg|]. split.
  { apply inject_Z_nonneg, Math_round_nonneg.
    destruct (0 <? speakingDurationMs segments) eqn:E; [|apply Qle_refl].
    apply Z.ltb_lt in E.
    assert (Hs : (0 < inject_Z (speakingDurationMs segments) / 1000)%Q).
    { assert (0 < inject_Z (speakingDurationMs segments))%Q
        by now rewrite <- (Zlt_Qlt 0).
      apply Qlt_shift_div_l; lra. }
    unfold Double.mul, Double.div. apply nearest_nonneg.
    apply Qmult_le_0_compat; [|discriminate].
    apply nearest_nonneg, Qdiv_nonneg; [apply num_nonneg|].
    now apply nearest_pos. }
  split; [apply num_nonneg|]. split.
  { apply roundTo_nonneg.
    destruct (JS.ltb 0 (Double.div (inject_Z (totalDurationMs segments)) 1000))
      eqn:E; [|apply Qle_refl].
    unfold JS.ltb in E. apply negb_true_iff in E.
    assert (Hd : (0 < Double.div (inject_Z (totalDurationMs segments)) 1000)%Q).
    { apply Qnot_le_lt. intros Hle. apply Qle_bool_iff in Hle. congruence. }
    unfold Double.mul. apply nearest_nonneg.
    apply Qmult_le_0_compat; [|discriminate].
    unfold Double.div at 1. apply nearest_nonneg, Qdiv_nonneg;
      [apply num_nonneg|exact Hd]. }
  assert (Hq : (0 <= (if Nat.ltb 0 (List.length segments)
                      then Double.div (num (fastSegments segments))
                             (num (List.length segments))
                      else 0) <= 1)%Q).
  { destruct (Nat.ltb 0 (List.length segments)) eqn:E; [|lra].
    apply Nat.ltb_lt in E.
    assert (Hn : (0 < num (List.length segments))%Q).
    { unfold num. rewrite <- (Zlt_Qlt 0). lia. }
    assert (H0 : (0 <= num (fastSegments segments) / num (List.length segments))%Q)
      by (apply Qdiv_nonneg; [apply num_nonneg|exact Hn]).
    assert (H1 : (num (fastSegments segments) / num (List.length segments) <= 1)%Q).
    { apply Qle_shift_div_r; [exact Hn|]. rewrite Qmult_1_l.
      unfold num. rewrite <- Zle_Qle. apply inj_le.
      unfold fastSegments. apply filter_length_le. }
    unfold Double.div. split; [now apply nearest_nonneg|].
    apply nearest_at_most; [exact H0|exact H1|reflexivity]. }
  destruct Hq as [Hq0 Hq1].
  split; [now apply roundTo_nonneg|now apply roundTo_at_most_one].
Qed.

(** X17. With each [Math.random()] draw in [0, 1), the placeholder
    biometrics lie in fixed ranges whatever was said: [avgHeartRate] in
    75..95, [peakHeartRate] in 120..145, [movementScore] in 0.35..0.65, so
    the peak heart rate is always above the average. *)
Theorem placeholder_biometrics_ranges (segments : list SegmentAnalysis.t)
  (pauses : list Pause.t) (draws : Draws) :
  (0 <= movementDraw draws)%Q -> (movementDraw draws < 1)%Q ->
  (0 <= avgHeartRateDraw draws)%Q -> (avgHeartRateDraw draws < 1)%Q ->
  (0 <= peakHeartRateDraw draws)%Q -> (peakHeartRateDraw draws < 1)%Q ->
  let m := calculateMetrics segments pauses draws in
  (exists avg peak,
     Metrics.avgHeartRate m = inject_Z avg /\
     Metrics.peakHeartRate m = inject_Z peak /\
     75 <= avg <= 95 /\ 120 <= peak <= 145) /\
  ((35 # 100) <= Metrics.movementScore m)%Q /\
  (Metrics.movementScore m <= (65 # 100))%Q /\
  (Metrics.avgHeartRate m < Metrics.peakHeartRate m)%Q.
Proof.
  intros Hm0 Hm1 Ha0 Ha1 Hp0 Hp1. cbv zeta. unfold calculateMetrics.
  cbn [Metrics.avgHeartRate Metrics.peakHeartRate Metrics.movementScore].
  assert (Hsum : forall base width r : Q,
            (0 <= base)%Q -> (0 <= width)%Q -> (0 <= r)%Q -> (r < 1)%Q ->
            Qeq_bool (Double.nearest width) width = true ->
            Qeq_bool (Double.nearest base) base = true ->
            Qeq_bool (Double.nearest (base + width)) (base + width) = true ->
            (base <= Double.add base (Double.mul r width) <= base + width)%Q).
  { intros base width r Hb Hw Hr0 Hr1 Ew Eb Ebw.
    unfold Double.add, Double.mul.
    assert (Hrw0 : (0 <= r * width)%Q) by now apply Qmult_le_0_compat.
    assert (Hrw1 : (r * width <= width)%Q).
    { assert (r * width <= 1 * width)%Q
        by (apply Qmult_le_compat_r; [lra|exact Hw]). lra. }
    pose proof (nearest_nonneg _ Hrw0) as Hy0.
    pose proof (nearest_at_most _ _ Hrw0 Hrw1 Ew) as Hy1.
    split.
    - apply nearest_at_least; [exact Hb|lra|exact Eb].
    - apply nearest_at_most; [lra|lra|exact Ebw]. }
  assert (Havg : 75 <= JS.Math_round
                         (Double.add 75 (Double.mul (avgHeartRateDraw draws) 20))
                 <= 95).
  { destruct (Hsum 75 20 (avgHeartRateDraw draws))%Q as [Hlo Hhi];
      try assumption; try reflexivity; try discriminate.
    apply floor_half_bounds.
    - change (inject_Z 75) with 75%Q. exact Hlo.
    - change (inject_Z 95) with 95%Q. lra. }
  assert (Hpeak : 120 <= JS.Math_round
                           (Double.add 120 (Double.mul (peakHeartRateDraw draws) 25))
                  <= 145).
  { destruct (Hsum 120 25 (peakHeartRateDraw draws))%Q as [Hlo Hhi];
      try assumption; try reflexivity; try discriminate.
    apply floor_half_bounds.
    - change (inject_Z 120) with 120%Q. exact Hlo.
    - change (inject_Z 145) with 145%Q. lra. }
  split; [eexists; eexists; repeat split; try reflexivity; lia|].
  set (a := Double.nearest (35 # 100)).
  set (b := Double.nearest (3 # 10)).
  set (x := Double.add a (Double.mul (movementDraw draws) b)).
  assert (Ha : (0 <= a)%Q) by (apply Qle_bool_iff; vm_compute; reflexivity).
  assert (Hb : (0 <= b)%Q) by (apply Qle_bool_iff; vm_compute; reflexivity).
  assert (Hrb0 : (0 <= movementDraw draws * b)%Q) by now apply Qmult_le_0_compat.
  assert (Hrb1 : (movementDraw draws * b <= b)%Q).
  { assert (movementDraw draws * b <= 1 * b)%Q
      by (apply Qmult_le_compat_r; [lra|exact Hb]). lra. }
  pose proof (nearest_nonneg _ Hrb0) as Hy0.
  pose proof (nearest_monotone _ _ Hrb0 Hrb1) as Hy1.
  assert (Hxlo : (Double.nearest a <= x)%Q).
  { subst x. unfold Double.add, Double.mul. apply nearest_monotone; [exact Ha|lra]. }
  assert (Hxhi : (x <= Double.nearest (a + Double.nearest b))%Q).
  { subst x. unfold Double.add, Double.mul. apply nearest_monotone; lra. }
  assert (Hna : (0 <= Double.nearest a)%Q) by now apply nearest_nonneg.
  assert (Hx0 : (0 <= x)%Q) by lra.
  pose proof (roundTo_monotone 2 _ _ Hna Hxlo) as Hlo.
  pose proof (roundTo_monotone 2 _ _ Hx0 Hxhi) as Hhi.
  assert (Elo : (JS.roundTo 2 (Double.nearest a) == 35 # 100)%Q)
    by (apply Qeq_bool_iff; vm_compute; reflexivity).
  assert (Ehi : (JS.roundTo 2 (Double.nearest (a + Double.nearest b)) == 65 # 100)%Q)
    by (apply Qeq_bool_iff; vm_compute; reflexivity).
  split; [rewrite <- Elo; exact Hlo|]. split; [rewrite <- Ehi; exact Hhi|].
  rewrite <- Zlt_Qlt. lia.
Qed.

Lemma placeholder_biometrics_ranges_witness :
  let m := calculateMetrics [] [] (Build_Draws (1 # 2) (1 # 2) (1 # 2)) in
  (Metrics.avgHeartRate m == 85)%Q /\
  ((35 # 100) <= Metrics.movementScore m)%Q.
Proof.
  split; [vm_compute; reflexivity|].
  refine (proj1 (proj2 (placeholder_biometrics_ranges [] []
                          (Build_Draws (1 # 2) (1 # 2) (1 # 2)) _ _ _ _ _ _)));
    vm_compute; congruence.
Defined.

(** ** Enrichment, further *)

Lemma insertIssue_perm (x : Issue.t) (sorted : list Issue.t) :
  Permutation (insertIssue x sorted) (x :: sorted).
Proof.
  induction sorted as [|y r IH]; [reflexivity|]. cbn [insertIssue].
  destruct (compareIssues y x <=? 0); [|reflexivity].
  rewrite IH. apply perm_swap.
Qed.

Lemma sortIssues_perm (issues : list Issue.t) :
  Permutation (sortIssues issues) issues.
Proof.
  unfold sortIssues.
  assert (G : forall acc, Permutation
                (fold_left (fun sorted x => insertIssue x sorted) issues acc)
                (acc ++ issues)).
  { induction issues as [|x r IH]; intros acc; cbn [fold_left].
    - now rewrite app_nil_r.
    - rewrite IH, insertIssue_perm. apply Permutation_middle. }
  apply (G []).
Qed.

Lemma compareIssues_known (a b : Issue.t) :
  knownSeverity a = true -> knownSeverity b = true ->
  exists x y, severityOrder (Issue.severity a) = Some x /\
              severityOrder (Issue.severity b) = Some y /\
              compareIssues a b = x - y.
Proof.
  unfold knownSeverity, compareIssues.
  destruct (severityOrder (Issue.severity a)) as [x|]; [|discriminate].
  destruct (severityOrder (Issue.severity b)) as [y|]; [|discriminate].
  intros _ _. now exists x, y.
Qed.

Lemma insertIssue_sorted (x : Issue.t) (sorted : list Issue.t) :
  knownSeverity x = true ->
  Forall (fun i => knownSeverity i = true) sorted ->
  StronglySorted (fun a b => compareIssues a b <= 0) sorted ->
  StronglySorted (fun a b => compareIssues a b <= 0) (insertIssue x sorted).
Proof.
  intros Hx Hall Hs. induction Hs as [|y r Hr IH Hy]; cbn [insertIssue].
  - repeat constructor.
  - inversion Hall as [|? ? Hky Hkr]; subst.
    destruct (compareIssues y x <=? 0) eqn:E.
    + apply Z.leb_le in E. constructor; [now apply IH|].
      apply (Permutation_Forall (x := x :: r));
        [symmetry; apply insertIssue_perm|]. now constructor.
    + apply Z.leb_gt in E. constructor; [now constructor|].
      destruct (compareIssues_known y x Hky Hx) as (a & b & Ha & Hb & Eyx).
      assert (Hxy : compareIssues x y <= 0).
      { unfold compareIssues. rewrite Ha, Hb. lia. }
      constructor; [exact Hxy|].
      rewrite Forall_forall in Hy, Hkr |- *. intros z Hz.
      specialize (Hy z Hz).
      destruct (compareIssues_known y z Hky (Hkr z Hz)) as (a' & c & Ha' & Hc & Eyz).
      unfold compareIssues in *. rewrite ?Ha, ?Hb, ?Hc in *.
      injection Ha' as <-. lia.
Qed.

Lemma sortIssues_sorted (issues : list Issue.t) :
  Forall (fun i => knownSeverity i = true) issues ->
  StronglySorted (fun a b => compareIssues a b <= 0) (sortIssues issues).
Proof.
  unfold sortIssues. intros Hall.
  assert (G : forall acc,
             Forall (fun i => knownSeverity i = true) acc ->
             StronglySorted (fun a b => compareIssues a b <= 0) acc ->
             StronglySorted (fun a b => compareIssues a b <= 0)
               (fold_left (fun sorted x => insertIssue x sorted) issues acc)).
  { induction Hall as [|x r Hx Hr IH]; intros acc Hacc Hs; [exact Hs|].
    cbn [fold_left]. apply IH.
    - apply (Permutation_Forall (x := x :: acc));
        [symmetry; apply insertIssue_perm|now constructor].
    - now apply insertIssue_sorted. }
  apply G; constructor.
Qed.

Lemma sortIssues_top (issues : list Issue.t) :
  issues <> [] ->
  Forall (fun i => knownSeverity i = true) issues ->
  exists top rest,
    sortIssues issues = top :: rest /\ In top issues /\
    (forall i, In i issues -> compareIssues top i <= 0).
Proof.
  intros Hne Hall.
  pose proof (sortIssues_perm issues) as Hp.
  pose proof (sortIssues_sorted issues Hall) as Hs.
  destruct (sortIssues issues) as [|top rest].
  - apply Permutation_nil in Hp. now contradiction Hne.
  - exists top, rest. split; [reflexivity|].
    split; [apply (Permutation_in _ Hp); now left|].
    intros i Hi. apply (Permutation_in _ (Permutation_sym Hp)) in Hi.
    inversion Hs as [|? ? _ Htop]; subst.
    destruct Hi as [<-|Hi].
    + assert (Hk : knownSeverity top = true).
      { rewrite Forall_forall in Hall. apply Hall.
        apply (Permutation_in _ Hp). now left. }
      destruct (compareIssues_known top top Hk Hk) as (a & b & Ha & Hb & ->).
      rewrite Ha in Hb. injection Hb as <-. lia.
    + rewrite Forall_forall in Htop. now apply Htop.
Qed.

Lemma paceFeedback_at_most_one `{Runtime} (metrics : AnyMetrics.t) :
  (List.length (paceFeedback metrics) <= 1)%nat.
Proof.
  unfold paceFeedback. cbv zeta.
  repeat match goal with
         | |- context [if ?c then _ else _] => destruct c
         end; cbn; lia.
Qed.

Lemma fillerFeedback_at_most_one `{Runtime} (metrics : AnyMetrics.t) :
  (List.length (fillerFeedback metrics) <= 1)%nat.
Proof.
  unfold fillerFeedback. cbv zeta.
  repeat match goal with
         | |- context [if ?c then _ else _] => destruct c
         end; cbn; lia.
Qed.

Lemma existsb_filter_nonempty {A : Type} (p : A -> bool) (l : list A) :
  filter p l <> [] -> existsb p l = true.
Proof.
  induction l as [|x r IH]; [now intros []|]. cbn.
  destruct (p x); [reflexivity|exact IH].
Qed.

(** X18. The local fallback never returns more than three highlights, and
    given at least one issue it always names an improvement: when neither
    the pace nor the filler rate calls for one, an issue is promoted. *)
Theorem fallback_with_issues_names_an_improvement `{Runtime}
  (metrics : AnyMetrics.t) (issues : list Issue.t) :
  issues <> [] ->
  existsb isImprovement (generateFallbackHighlights metrics issues) = true /\
  (List.length (generateFallbackHighlights metrics issues) <= 3)%nat.
Proof.
  intros Hne. unfold generateFallbackHighlights. cbv zeta.
  pose proof (paceFeedback_at_most_one metrics) as Hp.
  pose proof (fillerFeedback_at_most_one metrics) as Hf.
  set (highlights := paceFeedback metrics ++ fillerFeedback metrics).
  assert (Hlen : (List.length highlights <= 2)%nat)
    by (subst highlights; rewrite length_app; lia).
  destruct (filter isImprovement highlights) as [|h0 hr] eqn:Ef.
  - destruct issues as [|i0 ir]; [now contradiction Hne|].
    cbn [List.length Nat.eqb Nat.ltb Nat.leb andb].
    pose proof (sortIssues_perm (i0 :: ir)) as Hperm.
    destruct (sortIssues (i0 :: ir)) as [|top rest].
    + apply Permutation_nil in Hperm. discriminate.
    + rewrite existsb_app, length_app. cbn. split; [apply orb_true_r|lia].
  - cbn [List.length Nat.eqb andb]. split; [|lia].
    apply existsb_filter_nonempty. rewrite Ef. discriminate.
Qed.

Lemma fallback_with_issues_names_an_improvement_witness :
  existsb isImprovement
    (@generateFallbackHighlights integerRuntime
       (Metrics.mk 60 130 130 3 (5 # 2) 80 130 (1 # 2) 0)
       [Issue.mk "issue-c-0" "filler_words" "low" "Fewer fillers" [] []]) = true.
Proof.
  refine (proj1 (@fallback_with_issues_names_an_improvement integerRuntime
                   (Metrics.mk 60 130 130 3 (5 # 2) 80 130 (1 # 2) 0)
                   [Issue.mk "issue-c-0" "filler_words" "low" "Fewer fillers" [] []]
                   _)).
  discriminate.
Defined.

(** X19. When the fallback promotes an issue (no improvement from pace or
    filler rate, issues present) and every issue carries one of the
    severities high, medium or low, the promoted issue is one of the list
    that no other issue outranks, and it is appended after the pace and
    filler highlights with its message, its severity and its kind (the
    first underscore turned into a blank) as title. *)
Theorem fallback_promotes_a_most_severe_issue `{Runtime}
  (metrics : AnyMetrics.t) (issues : list Issue.t) :
  issues <> [] ->
  Forall (fun i => knownSeverity i = true) issues ->
  filter isImprovement (paceFeedback metrics ++ fillerFeedback metrics) = [] ->
  exists top,
    In top issues /\
    (forall i, In i issues -> compareIssues top i <= 0) /\
    generateFallbackHighlights metrics issues
    = (paceFeedback metrics ++ fillerFeedback metrics) ++ [promoted top].
Proof.
  intros Hne Hall Hnone.
  destruct (sortIssues_top issues Hne Hall) as (top & rest & Hs & Hin & Hmin).
  exists top. split; [exact Hin|]. split; [exact Hmin|].
  unfold generateFallbackHighlights. cbv zeta. rewrite Hnone, Hs.
  destruct issues; [now contradiction Hne|]. reflexivity.
Qed.

Lemma fallback_promotes_a_most_severe_issue_witness :
  exists top,
    Issue.severity top = "high" /\
    @generateFallbackHighlights integerRuntime
      (Metrics.mk 60 130 130 3 (5 # 2) 80 130 (1 # 2) 0)
      [Issue.mk "issue-c-0" "filler_words" "low" "Fewer fillers" [] [];
       Issue.mk "issue-c-1" "pace" "high" "Slow down" [] []]
    = (@paceFeedback integerRuntime (Metrics.mk 60 130 130 3 (5 # 2) 80 130 (1 # 2) 0)
       ++ @fillerFeedback integerRuntime (Metrics.mk 60 130 130 3 (5 # 2) 80 130 (1 # 2) 0))
      ++ [promoted top].
Proof.
  destruct (@fallback_promotes_a_most_severe_issue integerRuntime
              (Metrics.mk 60 130 130 3 (5 # 2) 80 130 (1 # 2) 0)
              [Issue.mk "issue-c-0" "filler_words" "low" "Fewer fillers" [] [];
               Issue.mk "issue-c-1" "pace" "high" "Slow down" [] []])
    as (top & Hin & Hmin & Heq).
  - discriminate.
  - repeat constructor.
  - reflexivity.
  - exists top. split; [|exact Heq].
    destruct Hin as [<-|[<-|[]]]; [|reflexivity].
    specialize (Hmin _ (or_intror (or_introl eq_refl))).
    vm_compute in Hmin. now contradiction Hmin.
Defined.

(** X20. A run completes exactly when there is at least one token and the
    issues derivation succeeds on its reply; the segments do not matter to
    that, and neither do the replies to the title and highlights prompts. *)
Theorem run_completes_iff_issues_derive `{Runtime} (conversationId : string)
  (draws : Draws) (replies : Replies) (tokens : list Token.t) :
  (exists r, analyze conversationId draws replies tokens = Ok r) <->
  (exists first rest, tokens = first :: rest) /\
  (exists issues, forall segments,
     generateOverallIssues segments conversationId (issuesReply replies)
     = Ok issues).
Proof.
  split.
  - intros [r Hr]. apply analyze_inv in Hr.
    destruct Hr as (allSegments & speechSegments & pauses & issues
                    & Hne & _ & Hi & _).
    split; [destruct tokens as [|t0 rest]; [now contradiction Hne|now exists t0, rest]|].
    exists issues. intros segments. exact Hi.
  - intros [(first & rest & ->) (issues & Hi)].
    unfold analyze. cbn [List.length Nat.eqb].
    destruct (buildSegments_total conversationId (first :: rest))
      as (analyzed & _ & _ & ->).
    cbn [bind]. unfold enrich. rewrite Hi. cbn [bind]. eexists. reflexivity.
Qed.

Lemma decodeIssues_null `{Runtime} (conversationId : string) (items : list json) :
  In JNull items ->
  forall idx, exists message, decodeIssues conversationId idx items = Err message.
Proof.
  induction items as [|item rest IH]; intros Hin idx; [now destruct Hin|].
  cbn [decodeIssues].
  destruct (decodeIssue conversationId idx item) as [i|e] eqn:Ei;
    [|eexists; reflexivity].
  cbn [bind]. destruct Hin as [->|Hin]; [discriminate|].
  destruct (IH Hin (S idx)) as [message ->]. eexists. reflexivity.
Qed.

(** X21. A [null] entry in the array the issues reply parses to is not
    skipped: reading its [kind] throws, outside every [try], and the whole
    run fails although segments and metrics were already computed. *)
Theorem null_issue_entry_fails_the_run `{Runtime} (conversationId : string)
  (draws : Draws) (replies : Replies) (tokens : list Token.t)
  (response arrayText : string) (items : list json) :
  issuesReply replies = Returns response ->
  greedySpan "[" "]" response = Some arrayText ->
  JSON_parse arrayText = Some (JArray items) ->
  In JNull items ->
  exists message, analyze conversationId draws replies tokens = Err message.
Proof.
  intros Hreply Hspan Hparse Hnull. unfold analyze.
  destruct (Nat.eqb (List.length tokens) 0); [eexists; reflexivity|].
  destruct (buildSegments_total conversationId tokens) as (analyzed & _ & _ & ->).
  cbn [bind]. unfold enrich, generateOverallIssues, parseIssuesData.
  rewrite Hreply, Hspan, Hparse. cbn [bind].
  destruct (decodeIssues_null conversationId items Hnull 0) as [message ->].
  eexists. reflexivity.
Qed.

Lemma null_issue_entry_fails_the_run_witness :
  exists message,
    @analyze nullEntryRuntime "c" (Build_Draws 0 0 0)
      {| issuesReply := Returns "Issues: [null]";
         titleReply := Throws "timeout";
         highlightsReply := Throws "timeout" |}
      specExample = Err message.
Proof.
  refine (@null_issue_entry_fails_the_run nullEntryRuntime "c" (Build_Draws 0 0 0)
            {| issuesReply := Returns "Issues: [null]";
               titleReply := Throws "timeout";
               highlightsReply := Throws "timeout" |}
            specExample "Issues: [null]" "[null]" [JNull] eq_refl _ _ _).
  - vm_compute. reflexivity.
  - reflexivity.
  - now left.
Defined.

Lemma length_substring (n : nat) :
  forall s, (n <= String.length s)%nat ->
            String.length (String.substring 0 n s) = n.
Proof.
  induction n as [|n IH]; intros s Hn; [now destruct s|].
  destruct s as [|c s]; cbn in Hn |- *; [lia|]. rewrite IH; lia.
Qed.

Lemma length_append (a b : string) :
  String.length (a ++ b) = (String.length a + String.length b)%nat.
Proof. induction a as [|c a IH]; cbn; [reflexivity|now rewrite IH]. Qed.

(** X22. When the transcript excerpt has at least 20 characters and the
    title reply parses to an object with a non-empty string [title], the
    session title is that string with one quote taken off each end and
    trimmed, cut to 47 characters plus an ellipsis if it is longer than
    50: a title taken from the model never exceeds 50 characters. *)
Theorem model_title_is_at_most_fifty `{Runtime}
  (segments : list SegmentAnalysis.t) (metrics : AnyMetrics.t)
  (response t : string) (parsed : json) :
  (20 <= String.length (titleExcerpt segments))%nat ->
  parseObject response = Some parsed ->
  field parsed "title" = Some (JString t) ->
  (0 < String.length t)%nat ->
  let title := generateSessionTitle segments metrics (Returns response) in
  (String.length title <= 50)%nat /\
  ((String.length (JS.trim (stripQuotes t)) <= 50)%nat ->
   title = JS.trim (stripQuotes t)) /\
  ((50 < String.length (JS.trim (stripQuotes t)))%nat ->
   title = (String.substring 0 47 (JS.trim (stripQuotes t)) ++ "...")%string).
Proof.
  intros Hlong Hparse Htitle Ht. cbv zeta. unfold generateSessionTitle.
  cbv zeta. fold (titleExcerpt segments).
  replace (Nat.ltb (String.length (titleExcerpt segments)) 20) with false
    by (symmetry; apply Nat.ltb_ge; exact Hlong).
  rewrite Hparse.
  assert (Hobj : parsed <> JNull) by (intros ->; discriminate).
  destruct parsed; try now contradiction Hobj.
  all: try discriminate.
  rewrite Htitle.
  replace (Nat.ltb 0 (String.length t)) with true
    by (symmetry; apply Nat.ltb_lt; exact Ht).
  destruct (Nat.ltb 50 (String.length (JS.trim (stripQuotes t)))) eqn:E.
  - apply Nat.ltb_lt in E. split; [|split; [lia|reflexivity]].
    rewrite length_append, length_substring by lia. cbn. lia.
  - apply Nat.ltb_ge in E. split; [exact E|]. split; [reflexivity|lia].
Qed.

Lemma model_title_is_at_most_fifty_witness :
  @generateSessionTitle
    (oneTextRuntime ("{" ++ quoted "title" ++ ":" ++ quoted "'Budget Review' " ++ "}")
       (JObject [("title", JString "'Budget Review' ")]))
    [SegmentAnalysis.mk "seg-c-0" 0 9000 speech
       "Thank you all for coming to the budget review." [] []]
    (Metrics.mk 9 9 60 0 0 80 130 (1 # 2) 0)
    (Returns ("Sure: {" ++ quoted "title" ++ ":" ++ quoted "'Budget Review' " ++ "}"))
  = "Budget Review'".
Proof.
  refine (eq_trans
    (proj1 (proj2 (@model_title_is_at_most_fifty
       (oneTextRuntime ("{" ++ quoted "title" ++ ":" ++ quoted "'Budget Review' " ++ "}")
          (JObject [("title", JString "'Budget Review' ")]))
       [SegmentAnalysis.mk "seg-c-0" 0 9000 speech
          "Thank you all for coming to the budget review." [] []]
       (Metrics.mk 9 9 60 0 0 80 130 (1 # 2) 0)
       ("Sure: {" ++ quoted "title" ++ ":" ++ quoted "'Budget Review' " ++ "}")
       "'Budget Review' "
       (JObject [("title", JString "'Budget Review' ")]) _ _ _ _)) _) _).
  - vm_compute. lia.
  - vm_compute. reflexivity.
  - reflexivity.
  - vm_compute. lia.
  - vm_compute. lia.
  - vm_compute. reflexivity.
Defined.

(** ** Time accounting of a run *)

Lemma sumZ_cons (x : Z) (l : list Z) : sumZ (x :: l) = x + sumZ l.
Proof. reflexivity. Qed.

Lemma sumZ_app (l1 l2 : list Z) : sumZ (l1 ++ l2) = sumZ l1 + sumZ l2.
Proof.
  induction l1 as [|x r IH]; [reflexivity|].
  cbn [app]. rewrite !sumZ_cons, IH. lia.
Qed.

Lemma spanOf_eq (l : list Token.t) (first final : Token.t) :
  hd_error l = Some first -> JS.pop l = Some final ->
  spanOf l = Token.end_ms final - Token.start_ms first.
Proof. unfold spanOf. now intros -> ->. Qed.

Lemma ends_of_nonempty {A : Type} (l : list A) :
  l <> [] -> exists first final, hd_error l = Some first /\ JS.pop l = Some final.
Proof.
  intros Hl. destruct (pop_nonempty l Hl) as [final Hf].
  destruct l as [|first r]; [now contradiction Hl|]. now exists first, final.
Qed.

Lemma speaking_spans (segments : list SegmentAnalysis.t)
  (pieces : list (list Token.t)) :
  Forall2 Spans segments pieces ->
  speakingDurationMs segments = sumZ (map spanOf pieces).
Proof.
  intros Hs. unfold speakingDurationMs. rewrite fold_left_add_Z.
  rewrite Z.add_0_l. f_equal.
  induction Hs as [|s p segs ps (_ & first & final & Hf & Hl & Es & Ee) _ IH];
    [reflexivity|].
  cbn [map]. rewrite IH, (spanOf_eq p first final Hf Hl), Es, Ee. reflexivity.
Qed.

Lemma totalDurationMs_spanOf (segments : list SegmentAnalysis.t)
  (pieces : list (list Token.t)) :
  Forall2 Spans segments pieces ->
  Forall (fun piece => piece <> []) pieces ->
  totalDurationMs segments = spanOf (List.concat pieces).
Proof.
  intros Hs Hne. destruct pieces as [|p ps].
  - inversion Hs. reflexivity.
  - assert (Hc : List.concat (p :: ps) <> []).
    { inversion Hne as [|? ? Hp _]; subst. cbn [List.concat].
      destruct p; [now contradiction Hp|discriminate]. }
    destruct (ends_of_nonempty _ Hc) as (first & final & Hf & Hl).
    rewrite (spans_total_duration _ _ first final Hs Hne Hf Hl).
    symmetry. now apply spanOf_eq.
Qed.

Lemma spans_within (pieces : list (list Token.t)) :
  Forall (fun piece => piece <> []) pieces ->
  Ordered (List.concat pieces) ->
  0 <= sumZ (map spanOf pieces) <= spanOf (List.concat pieces).
Proof.
  induction 1 as [|p ps Hp Hps IH]; intros Hord; [cbn; lia|].
  cbn [List.concat] in Hord |- *. cbn [map]. rewrite sumZ_cons.
  apply Ordered_app in Hord. destruct Hord as (Hop & Hoc & Hbound).
  specialize (IH Hoc).
  destruct (ends_of_nonempty p Hp) as (f & l & Hf & Hl).
  pose proof (Ordered_span p f l Hop Hf Hl) as Hspan.
  rewrite (spanOf_eq p f l Hf Hl).
  destruct ps as [|q qs].
  - cbn [List.concat map] in *. rewrite app_nil_r.
    rewrite (spanOf_eq p f l Hf Hl). unfold sumZ at 1 2. cbn [fold_right]. lia.
  - assert (Hc : List.concat (q :: qs) <> []).
    { inversion Hps as [|? ? Hq _]; subst. cbn [List.concat].
      destruct q; [now contradiction Hq|discriminate]. }
    destruct (ends_of_nonempty _ Hc) as (f' & l' & Hf' & Hl').
    rewrite (spanOf_eq _ f' l' Hf' Hl') in IH.
    rewrite (spanOf_eq (p ++ List.concat (q :: qs)) f l').
    + specialize (Hbound l f' Hl Hf'). lia.
    + now rewrite hd_error_app_nonempty.
    + now rewrite pop_app.
Qed.

Lemma blocks_and_pauses_tile (blocks : list (list Token.t)) :
  forall s pauses,
    PassA s blocks pauses ->
    sumZ (map spanOf blocks) + sumZ (map Pause.durationMs pauses)
    = spanOf (List.concat blocks).
Proof.
  induction blocks as [|b bs IH]; intros s pauses HP.
  - cbn in HP. subst. reflexivity.
  - cbn [PassA] in HP. destruct HP as (Hb & _ & HP).
    destruct (ends_of_nonempty b Hb) as (f & l & Hf & Hl).
    cbn [map List.concat]. rewrite sumZ_cons, (spanOf_eq b f l Hf Hl).
    destruct bs as [|b' bs'].
    + subst pauses. cbn [map List.concat]. rewrite app_nil_r.
      rewrite (spanOf_eq b f l Hf Hl). unfold sumZ. cbn [fold_right]. lia.
    + rewrite Hl in HP. destruct (hd_error b') as [following|] eqn:Hh; [|contradiction].
      destruct pauses as [|p ps]; [contradiction|].
      destruct HP as (_ & -> & HP).
      specialize (IH _ _ HP).
      assert (Hb' : b' <> []) by (intros ->; discriminate).
      assert (Hc : List.concat (b' :: bs') <> []).
      { cbn [List.concat]. destruct b'; [now contradiction Hb'|discriminate]. }
      destruct (ends_of_nonempty _ Hc) as (f' & l' & Hf' & Hl').
      rewrite (hd_error_concat b' bs' Hb'), Hh in Hf'. injection Hf' as <-.
      rewrite (spanOf_eq _ following l') in IH
        by (rewrite ?(hd_error_concat b' bs' Hb'); assumption).
      rewrite (spanOf_eq (b ++ List.concat (b' :: bs')) f l').
      * cbn [map] in IH |- *. rewrite !sumZ_cons in IH |- *.
        cbn [pauseBetween Pause.durationMs]. rewrite ?sumZ_cons. lia.
      * now rewrite hd_error_app_nonempty.
      * now rewrite pop_app.
Qed.

Lemma sentence_spans_within_blocks (blocks : list (list Token.t)) :
  Forall (fun b => b <> [] /\ Ordered b) blocks ->
  0 <= sumZ (map spanOf (List.concat (map (fun b => splitBySentences b 4) blocks)))
    <= sumZ (map spanOf blocks).
Proof.
  induction 1 as [|b bs [Hb Ho] _ IH]; [cbn; lia|].
  cbn [map List.concat]. rewrite map_app, sumZ_app, sumZ_cons.
  destruct (splitBySentences_pieces b) as [Hcat Hne].
  pose proof (spans_within (splitBySentences b 4) (Hne Hb)) as Hw.
  rewrite Hcat in Hw. specialize (Hw Ho). lia.
Qed.

(** X23. For tokens in order, a run's speaking time is not negative, and
    speaking time plus the recorded pauses is at most the duration: the
    rest of the duration is the silence between sentences of one block,
    which belongs to no segment. *)
Theorem speaking_time_and_pauses_fit_the_duration `{Runtime}
  (conversationId : string) (tokens : list Token.t)
  (allSegments speechSegments : list SegmentAnalysis.t) (pauses : list Pause.t) :
  Ordered tokens ->
  buildSegments conversationId tokens = Ok (allSegments, speechSegments, pauses) ->
  0 <= speakingDurationMs speechSegments /\
  speakingDurationMs speechSegments + sumZ (map Pause.durationMs pauses)
  <= totalDurationMs speechSegments.
Proof.
  intros Hord Hb. apply buildSegments_inv in Hb. cbv zeta in Hb.
  destruct Hb as (_ & Hspans & Hp & _).
  pose proof (Ordered_times tokens (addPunctuationToTokens tokens)
                (eq_sym (addPunctuationToTokens_times tokens)) Hord) as Hord'.
  destruct (splitIntoSegmentsDynamic_shape (addPunctuationToTokens tokens))
    as (s & HP & _ & Hcat).
  rewrite <- Hp in HP.
  assert (Hblocks : Forall (fun b => b <> [] /\ Ordered b)
                      (fst (splitIntoSegmentsDynamic (addPunctuationToTokens tokens)))).
  { apply Forall_forall. intros b Hin. split.
    - eapply PassA_nonempty; eauto.
    - eapply Ordered_block; eauto. }
  set (blocks := fst (splitIntoSegmentsDynamic (addPunctuationToTokens tokens))) in *.
  rewrite (speaking_spans _ _ Hspans).
  rewrite (totalDurationMs_spanOf _ _ Hspans).
  - rewrite pieces_concat.
    pose proof (sentence_spans_within_blocks blocks Hblocks) as Hw.
    pose proof (blocks_and_pauses_tile blocks s pauses HP) as Ht. lia.
  - apply contentSegments_nonempty. eapply Forall_impl; [|exact Hblocks].
    now intros b [Hb _].
Qed.

Lemma speaking_time_and_pauses_fit_the_duration_witness :
  exists allSegments speechSegments pauses,
    @buildSegments integerRuntime "c" fiveSentences
      = Ok (allSegments, speechSegments, pauses) /\
    speakingDurationMs speechSegments = 800 /\
    totalDurationMs speechSegments = 900 /\
    speakingDurationMs speechSegments + sumZ (map Pause.durationMs pauses)
    <= totalDurationMs speechSegments.
Proof.
  destruct (@buildSegments integerRuntime "c" fiveSentences)
    as [[[allSegments speechSegments] pauses]|e] eqn:Hb.
  - exists allSegments, speechSegments, pauses. split; [reflexivity|].
    pose proof (@speaking_time_and_pauses_fit_the_duration integerRuntime "c"
                  fiveSentences allSegments speechSegments pauses
                  ltac:(vm_compute; intuition discriminate) Hb) as [_ Hle].
    vm_compute in Hb. injection Hb as <- <- <-.
    split; [reflexivity|]. split; [reflexivity|]. exact Hle.
  - vm_compute in Hb. discriminate.
Defined.

(** ** The content splitter *)

Lemma removelast_snoc {A : Type} (l : list A) (x : A) :
  removelast (l ++ [x]) = l.
Proof. apply removelast_last. Qed.

Lemma pop_snoc {A : Type} (l : list A) (x : A) : JS.pop (l ++ [x]) = Some x.
Proof. unfold JS.pop. now rewrite rev_app_distr. Qed.

Lemma mergeLoop_mergeFrom (validRanges : list Range.t) :
  forall init current,
    fold_left mergeStep validRanges (init ++ [current])
    = init ++ mergeFrom current validRanges.
Proof.
  induction validRanges as [|r rest IH]; intros init current; [reflexivity|].
  cbn [fold_left mergeFrom]. unfold mergeStep at 2.
  rewrite pop_snoc, removelast_snoc.
  destruct (Qle_bool (Range.start r) (Range.end_ current + 1)).
  - apply IH.
  - rewrite IH, <- app_assoc. reflexivity.
Qed.

Lemma mergeRanges_mergeFrom (r : Range.t) (rest : list Range.t) :
  mergeRanges (r :: rest) = mergeFrom r rest.
Proof. unfold mergeRanges. cbn [fold_left]. apply (mergeLoop_mergeFrom rest []). Qed.

Lemma insertRange_last (x : Range.t) (sorted : list Range.t) :
  Forall (fun y => (Range.start y <= Range.start x)%Q) sorted ->
  insertRange x sorted = sorted ++ [x].
Proof.
  induction 1 as [|y r Hy _ IH]; [reflexivity|]. cbn [insertRange app].
  apply Qle_bool_iff in Hy. now rewrite Hy, IH.
Qed.

Lemma inject_Z_le_pred (a : Z) (n : nat) :
  a <= Z.of_nat n - 1 -> (inject_Z a <= num n - 1)%Q.
Proof.
  intros Ha. unfold num.
  setoid_replace (inject_Z (Z.of_nat n) - 1)%Q with (inject_Z (Z.of_nat n - 1)).
  - now rewrite <- Zle_Qle.
  - unfold Z.sub. rewrite inject_Z_plus, inject_Z_opp. reflexivity.
Qed.

Lemma clampIndex_inside (n : nat) (a : Z) :
  0 <= a <= Z.of_nat n - 1 ->
  clampIndex n (Some (inject_Z a)) = Some (inject_Z a).
Proof.
  intros [H0 H1]. unfold clampIndex, Math_max, Math_min. cbn [option_map].
  assert (E1 : Qle_bool (inject_Z a) (num n - 1) = true)
    by (apply Qle_bool_iff; now apply inject_Z_le_pred).
  rewrite E1.
  assert (E0 : Qle_bool 0 (inject_Z a) = true).
  { apply Qle_bool_iff. change 0%Q with (inject_Z 0). now rewrite <- Zle_Qle. }
  now rewrite E0.
Qed.

Lemma Tiles_bounds (ranges : list (Z * Z)) :
  forall from upto, Tiles from ranges upto ->
    Forall (fun range => from <= fst range /\ fst range <= snd range /\
                         snd range < upto) ranges.
Proof.
  induction ranges as [|[a b] rest IH]; intros from upto HT; [constructor|].
  cbn [Tiles] in HT. destruct HT as (-> & Hab & HT).
  destruct rest as [|r rest'].
  - constructor; [cbn; lia|constructor].
  - specialize (IH _ _ HT). constructor.
    + inversion IH as [|? ? (H1 & H2 & H3) _]; subst. cbn [fst snd]. lia.
    + eapply Forall_impl; [|exact IH]. cbn. intros r0 ?. lia.
Qed.

Lemma clampRanges_read `{Runtime} `{Coercion} (n : nat) (items : list json)
  (ranges : list (Z * Z)) :
  ReadAs items ranges ->
  Forall (fun range => 0 <= fst range /\ fst range <= snd range /\
                       snd range < Z.of_nat n) ranges ->
  exists clamped,
    clampRanges n items = Ok clamped /\
    flat_map validRange clamped = map asRange ranges.
Proof.
  induction 1 as [|item [a b] items' ranges' [Hs He] _ IH]; intros Hall.
  - exists []. now split.
  - inversion Hall as [|? ? (Hge & Hab & Hb) Hrest]; subst. cbn [fst snd] in *.
    destruct (IH Hrest) as (clamped & Hc & Hv).
    exists ((Some (inject_Z a), Some (inject_Z b)) :: clamped).
    cbn [clampRanges]. unfold clampRange.
    assert (Hitem : item <> JNull) by (intros ->; discriminate).
    destruct item; try now contradiction Hitem.
    all: rewrite Hs, He; cbn [ToNumber];
      rewrite !clampIndex_inside by lia; cbn [bind]; rewrite Hc; cbn [bind];
      (split; [reflexivity|]); cbn [flat_map validRange];
      replace (Qle_bool (inject_Z a) (inject_Z b)) with true
        by (symmetry; apply Qle_bool_iff; now rewrite <- Zle_Qle);
      cbn [app]; now rewrite Hv.
Qed.

Lemma sort_tiles (ranges : list (Z * Z)) :
  forall from upto acc,
    Tiles from ranges upto ->
    Forall (fun y => (Range.start y <= inject_Z from)%Q) acc ->
    fold_left (fun sorted x => insertRange x sorted) (map asRange ranges) acc
    = acc ++ map asRange ranges.
Proof.
  induction ranges as [|[a b] rest IH]; intros from upto acc HT Hacc;
    [now destruct HT|].
  cbn [Tiles] in HT. destruct HT as (-> & Hab & HT).
  cbn [map fold_left]. rewrite insertRange_last by exact Hacc.
  destruct rest as [|r rest'].
  - reflexivity.
  - rewrite (IH (b + 1) upto _ HT).
    + now rewrite <- app_assoc.
    + apply Forall_app. split.
      * eapply Forall_impl; [|exact Hacc]. intros y Hy.
        eapply Qle_trans; [exact Hy|]. rewrite <- Zle_Qle. lia.
      * constructor; [|constructor]. cbn. rewrite <- Zle_Qle. lia.
Qed.

Lemma merge_tiles (ranges : list (Z * Z)) :
  forall from upto s0 e,
    Tiles from ranges upto -> from = e + 1 ->
    mergeFrom (Range.mk s0 (inject_Z e)) (map asRange ranges)
    = [Range.mk s0 (inject_Z (upto - 1))].
Proof.
  induction ranges as [|[a b] rest IH]; intros from upto s0 e HT Hfrom;
    [now destruct HT|].
  cbn [Tiles] in HT. destruct HT as (-> & Hab & HT).
  cbn [map mergeFrom asRange fst snd Range.start Range.end_].
  subst from.
  assert (E1 : Qle_bool (inject_Z (e + 1)) (inject_Z e + 1) = true).
  { apply Qle_bool_iff. rewrite inject_Z_plus. apply Qle_refl. }
  assert (E2 : Qle_bool (inject_Z e) (inject_Z b) = true).
  { apply Qle_bool_iff. rewrite <- Zle_Qle. lia. }
  rewrite E1. unfold Math_max. rewrite E2.
  destruct rest as [|r rest'].
  - cbn [map mergeFrom]. subst upto. do 3 f_equal. lia.
  - now apply (IH (b + 1) upto).
Qed.

Lemma Array_slice_whole {A : Type} (l : list A) :
  l <> [] ->
  Array_slice (inject_Z 0) (inject_Z (Z.of_nat (List.length l) - 1) + 1) l = l.
Proof.
  intros Hl. unfold Array_slice. cbv zeta.
  assert (E : Qfloor (inject_Z (Z.of_nat (List.length l) - 1) + 1)
              = Z.of_nat (List.length l)).
  { transitivity (Qfloor (inject_Z (Z.of_nat (List.length l))));
      [|apply Qfloor_Z].
    apply Qfloor_comp. unfold Z.sub. rewrite inject_Z_plus, inject_Z_opp.
    change (inject_Z 1) with 1%Q. lra. }
  rewrite E, Qfloor_Z, Nat2Z.id. cbn [Z.to_nat skipn].
  rewrite Nat.sub_0_r. apply firstn_all.
Qed.

(** X24. A reply to the content splitter that follows its prompt, integer
    ranges that start at 0, each beginning right after the one before it
    and the last ending at the last token, does not split the block: the
    merge loop joins ranges that touch, so the block comes back whole. *)
Theorem tiling_reply_leaves_block_unsplit `{Runtime} `{Coercion}
  (segmentTokens : list Token.t) (blockIndex : nat) (conversationId : string)
  (response : string) (parsed : json) (items : list json)
  (ranges : list (Z * Z)) :
  parseObject response = Some parsed ->
  field parsed "segments" = Some (JArray items) ->
  ReadAs items ranges ->
  Tiles 0 ranges (Z.of_nat (List.length segmentTokens)) ->
  splitSegmentByContent segmentTokens blockIndex conversationId (Returns response)
  = Ok [segmentTokens].
Proof.
  intros Hparse Hfield Hread HT. unfold splitSegmentByContent.
  pose proof (Tiles_bounds _ _ _ HT) as Hb.
  destruct (Nat.eqb (List.length segmentTokens) 0) eqn:En.
  { apply Nat.eqb_eq in En. rewrite En in Hb.
    destruct ranges as [|[a b] rest]; [now destruct HT|].
    inversion Hb as [|? ? Hab _]; subst. cbn in Hab. lia. }
  cbv zeta.
  destruct (Nat.ltb (List.length segmentTokens) 15
            || Nat.leb (enderRuns false
                          (JS.chars (JS.join " " (map Token.text segmentTokens)))) 2);
    [reflexivity|].
  rewrite Hparse.
  assert (Hobj : parsed <> JNull) by (intros ->; discriminate).
  destruct parsed; try now contradiction Hobj.
  all: try discriminate.
  rewrite Hfield.
  destruct (clampRanges_read (List.length segmentTokens) items ranges Hread Hb)
    as (clamped & Hc & Hv).
  destruct items as [|item items'].
  { inversion Hread; subst. now destruct HT. }
  rewrite Hc. cbn [bind]. rewrite Hv.
  unfold sortRanges. rewrite (sort_tiles ranges 0 _ [] HT) by constructor.
  cbn [app].
  destruct ranges as [|[a b] rest]; [now destruct HT|].
  cbn [map List.length Nat.eqb]. rewrite mergeRanges_mergeFrom.
  assert (Hm : mergeFrom (asRange (a, b)) (map asRange rest)
               = [Range.mk (inject_Z 0)
                    (inject_Z (Z.of_nat (List.length segmentTokens) - 1))]).
  { cbn [Tiles] in HT. destruct HT as (-> & Hab & HT).
    destruct rest as [|r rest'].
    - cbn [map mergeFrom]. unfold asRange. cbn [fst snd].
      do 3 f_equal. lia.
    - unfold asRange at 1. cbn [fst snd]. now apply (merge_tiles _ (b + 1)). }
  rewrite Hm. cbn [map List.length Nat.eqb Range.start Range.end_].
  rewrite Array_slice_whole; [reflexivity|].
  intros E. rewrite E in En. discriminate.
Qed.

Lemma tiling_reply_leaves_block_unsplit_witness :
  @splitSegmentByContent (oneTextRuntime twoHalvesText twoHalves) noNumerals
    sixteenSentences 0 "c" (Returns ("Here you go: " ++ twoHalvesText))
  = Ok [sixteenSentences].
Proof.
  refine (@tiling_reply_leaves_block_unsplit
            (oneTextRuntime twoHalvesText twoHalves) noNumerals
            sixteenSentences 0 "c" ("Here you go: " ++ twoHalvesText)
            twoHalves _ [(0, 7); (8, 15)] _ eq_refl _ _).
  - vm_compute. reflexivity.
  - repeat constructor.
  - vm_compute. intuition discriminate.
Defined.

Lemma Math_max_bounds (a b lo hi : Q) :
  (lo <= a)%Q -> (a <= hi)%Q -> (b <= hi)%Q ->
  (lo <= Math_max a b)%Q /\ (a <= Math_max a b)%Q /\ (Math_max a b <= hi)%Q.
Proof.
  intros Hlo Ha Hb. unfold Math_max.
  destruct (Qle_bool a b) eqn:E.
  - apply Qle_bool_iff in E. repeat split; lra.
  - repeat split; lra.
Qed.

Lemma clampIndex_bounds (n : nat) (x : option Q) (q : Q) :
  (0 < n)%nat -> clampIndex n x = Some q -> (0 <= q)%Q /\ (q <= num n - 1)%Q.
Proof.
  intros Hn. destruct x as [v|]; [|discriminate]. cbn. intros E.
  injection E as <-.
  assert (Hn1 : (0 <= num n - 1)%Q).
  { apply (Qle_trans _ (inject_Z 0)); [apply Qle_refl|].
    apply inject_Z_le_pred. lia. }
  assert (Hmin : (Math_min (num n - 1) v <= num n - 1)%Q).
  { unfold Math_min. destruct (Qle_bool v (num n - 1)) eqn:E.
    - now apply Qle_bool_iff in E.
    - apply Qle_refl. }
  unfold Math_max. destruct (Qle_bool 0 (Math_min (num n - 1) v)) eqn:E.
  - apply Qle_bool_iff in E. now split.
  - split; [apply Qle_refl|exact Hn1].
Qed.

Lemma clampRanges_bounds `{Runtime} `{Coercion} (n : nat) (items : list json) :
  (0 < n)%nat ->
  forall clamped, clampRanges n items = Ok clamped ->
    Forall (InBounds n) (flat_map validRange clamped).
Proof.
  intros Hn. induction items as [|item rest IH]; intros clamped Hc.
  - injection Hc as <-. constructor.
  - cbn [clampRanges] in Hc.
    destruct (clampRange n item) as [[a b]|e] eqn:Er; [|discriminate].
    cbn [bind] in Hc.
    destruct (clampRanges n rest) as [rs|e]; [|discriminate].
    cbn [bind] in Hc. injection Hc as <-.
    cbn [flat_map]. apply Forall_app. split; [|now apply IH].
    unfold clampRange in Er.
    assert (Ea : exists x y, a = clampIndex n x /\ b = clampIndex n y).
    { exists (ToNumber (field item "startIndex")),
             (ToNumber (field item "endIndex")).
      destruct item; try discriminate; injection Er as <- <-;
        split; reflexivity. }
    destruct Ea as (x & y & -> & ->).
    unfold validRange.
    destruct (clampIndex n x) as [qa|] eqn:Ea; [|constructor].
    destruct (clampIndex n y) as [qb|] eqn:Eb; [|constructor].
    destruct (Qle_bool qa qb) eqn:E; [|constructor].
    apply Qle_bool_iff in E.
    destruct (clampIndex_bounds n x qa Hn Ea) as [Ha0 _].
    destruct (clampIndex_bounds n y qb Hn Eb) as [_ Hb1].
    constructor; [|constructor]. unfold InBounds. cbn. auto.
Qed.

Lemma insertRange_perm (x : Range.t) (sorted : list Range.t) :
  Permutation (insertRange x sorted) (x :: sorted).
Proof.
  induction sorted as [|y r IH]; [reflexivity|]. cbn [insertRange].
  destruct (Qle_bool (Range.start y) (Range.start x)); [|reflexivity].
  rewrite IH. apply perm_swap.
Qed.

Lemma sortRanges_perm (ranges : list Range.t) :
  Permutation (sortRanges ranges) ranges.
Proof.
  unfold sortRanges.
  assert (G : forall acc, Permutation
                (fold_left (fun sorted x => insertRange x sorted) ranges acc)
                (acc ++ ranges)).
  { induction ranges as [|x r IH]; intros acc; cbn [fold_left].
    - now rewrite app_nil_r.
    - rewrite IH, insertRange_perm. apply Permutation_middle. }
  apply (G []).
Qed.

Lemma Qfloor_succ_le (x y : Q) :
  (x + 1 <= y)%Q -> Qfloor x + 1 <= Qfloor y.
Proof.
  intros Hxy. rewrite <- (Qfloor_Z (Qfloor x + 1)). apply Qfloor_resp_le.
  rewrite inject_Z_plus. change (inject_Z 1) with 1%Q.
  pose proof (Qfloor_le x). lra.
Qed.

Lemma slice_decomposition {A : Type} (l : list A) (o a b : nat) :
  (o <= a)%nat -> (a < b)%nat -> (b <= List.length l)%nat ->
  firstn (b - a) (skipn a l) <> [] /\
  skipn o l = firstn (a - o) (skipn o l) ++ firstn (b - a) (skipn a l) ++ skipn b l.
Proof.
  intros Hoa Hab Hb. split.
  - intros E. apply (f_equal (@List.length A)) in E.
    rewrite length_firstn, length_skipn in E. cbn in E. lia.
  - rewrite <- (firstn_skipn (a - o) (skipn o l)) at 1. f_equal.
    rewrite skipn_skipn. replace (a - o + o)%nat with a by lia.
    rewrite <- (firstn_skipn (b - a) (skipn a l)) at 1. f_equal.
    rewrite skipn_skipn. f_equal. lia.
Qed.




(** ** The lenient recovery of objects *)

Lemma braceSpans_flat (l : list ascii) :
  forall candidate,
    match candidate with
    | Some text =>
        exists body,
          text = "{"%char :: body /\
          Forall (fun c => Ascii.eqb c "{" = false /\ Ascii.eqb c "}" = false) body
    | None => True
    end ->
    Forall FlatObject (braceSpans candidate l).
Proof.
  induction l as [|c r IH]; intros candidate Hc; [constructor|].
  cbn [braceSpans].
  destruct (Ascii.eqb c "{") eqn:Eo.
  - apply IH. exists []. apply Ascii.eqb_eq in Eo. subst c. now split.
  - destruct (Ascii.eqb c "}") eqn:Ec.
    + destruct candidate as [text|]; [|now apply IH].
      constructor; [|now apply IH].
      destruct Hc as (body & -> & Hbody). exists body.
      rewrite chars_str. apply Ascii.eqb_eq in Ec. subst c. now split.
    + destruct candidate as [text|]; [|now apply IH].
      apply IH. destruct Hc as (body & -> & Hbody). exists (body ++ [c]).
      split; [reflexivity|]. apply Forall_app. split; [exact Hbody|].
      constructor; [now split|constructor].
Qed.

Lemma braceSpans_count (l : list ascii) :
  forall candidate,
    (List.length (braceSpans candidate l)
     <= List.length (filter (fun c => Ascii.eqb c "}") l))%nat.
Proof.
  induction l as [|c r IH]; intros candidate; [cbn; lia|].
  cbn [braceSpans filter].
  destruct (Ascii.eqb c "{") eqn:Eo.
  - destruct (Ascii.eqb c "}"); [cbn [List.length]|]; specialize (IH (Some [c])); lia.
  - destruct (Ascii.eqb c "}") eqn:Ec.
    + destruct candidate; cbn [List.length]; specialize (IH None); lia.
    + destruct candidate; apply IH.
Qed.

(** X26. Every text the lenient recovery hands to [JSON.parse] is a flat
    object text: an opening brace, a body without any brace, a closing
    brace.  An object that holds another object is therefore never
    recovered whole; and there are at most as many such texts as the reply
    has closing braces. *)
Theorem recovery_only_sees_flat_objects (response : string) :
  Forall FlatObject (objectMatches response) /\
  (List.length (objectMatches response)
   <= List.length (filter (fun c => Ascii.eqb c "}") (JS.chars response)))%nat.
Proof.
  unfold objectMatches. split.
  - now apply braceSpans_flat.
  - apply braceSpans_count.
Qed.

Lemma Math_choice (a b : Q) (P : Q -> Prop) :
  P a -> P b -> P (Math_max a b) /\ P (Math_min a b).
Proof.
  intros Ha Hb. unfold Math_max, Math_min.
  destruct (Qle_bool a b), (Qle_bool b a); auto.
Qed.

Lemma clampIndex_whole (n : nat) (a : Z) :
  exists q z, clampIndex n (Some (inject_Z a)) = Some q /\ (q == inject_Z z)%Q.
Proof.
  unfold clampIndex. cbn [option_map].
  set (P := fun q : Q => exists z, (q == inject_Z z)%Q).
  assert (Hn : P (num n - 1)%Q).
  { exists (Z.of_nat n - 1). unfold num, Z.sub.
    rewrite inject_Z_plus, inject_Z_opp. reflexivity. }
  assert (Ha : P (inject_Z a)) by (exists a; reflexivity).
  assert (H0 : P 0%Q) by (exists 0; reflexivity).
  destruct (Math_choice (num n - 1) (inject_Z a) P Hn Ha) as [_ Hmin].
  destruct (Math_choice 0 _ P H0 Hmin) as [[z Hz] _].
  eexists. exists z. split; [reflexivity|exact Hz].
Qed.

Lemma clampRanges_integral `{Runtime} `{Coercion} (n : nat) (items : list json)
  (ranges : list (Z * Z)) :
  ReadAs items ranges ->
  forall clamped, clampRanges n items = Ok clamped ->
    Forall Integral (flat_map validRange clamped).
Proof.
  induction 1 as [|item [a b] items' ranges' [Hs He] _ IH]; intros clamped Hc.
  - injection Hc as <-. constructor.
  - cbn [fst snd] in Hs, He. cbn [clampRanges] in Hc.
    assert (Er : clampRange n item
                 = Ok (clampIndex n (Some (inject_Z a)),
                       clampIndex n (Some (inject_Z b)))).
    { unfold clampRange. assert (Hitem : item <> JNull) by (intros ->; discriminate).
      destruct item; try now contradiction Hitem.
      all: now rewrite Hs, He. }
    rewrite Er in Hc. cbn [bind] in Hc.
    destruct (clampRanges n items') as [rs|e]; [|discriminate].
    cbn [bind] in Hc. injection Hc as <-.
    cbn [flat_map]. apply Forall_app. split; [|now apply IH].
    destruct (clampIndex_whole n a) as (qa & za & Ea & Hza).
    destruct (clampIndex_whole n b) as (qb & zb & Eb & Hzb).
    unfold clampIndex in Ea, Eb. cbn [option_map] in Ea, Eb.
    injection Ea as <-. injection Eb as <-.
    unfold validRange. destruct (Qle_bool _ _); [|constructor].
    constructor; [|constructor]. now exists za, zb.
Qed.

Lemma skipn_next {A : Type} (l : list A) :
  forall b, (b < List.length l)%nat ->
            exists x, skipn b l = x :: skipn (S b) l.
Proof.
  induction l as [|y r IH]; intros b Hb; [cbn in Hb; lia|].
  destruct b as [|b']; [now exists y|].
  cbn [skipn]. apply IH. cbn in Hb. lia.
Qed.

Lemma mergeFrom_nonempty (rest : list Range.t) :
  forall current, exists t ts, mergeFrom current rest = t :: ts.
Proof.
  induction rest as [|r rest IH]; intros current; cbn [mergeFrom]; [eauto|].
  destruct (Qle_bool _ _); [apply IH|eauto].
Qed.

Lemma merged_slices_apart {A : Type} (l : list A) (rest : list Range.t) :
  forall current o,
    InBounds (List.length l) current -> Integral current ->
    Forall (InBounds (List.length l)) rest -> Forall Integral rest ->
    Z.of_nat o <= Qfloor (Range.start current) ->
    Apart
      (map (fun r => Array_slice (Range.start r) (Range.end_ r + 1) l)
           (mergeFrom current rest))
      (skipn o l).
Proof.
  induction rest as [|r rest IH]; intros current o Hcur Hint Hrest Hints Ho.
  - cbn [mergeFrom map Apart].
    destruct Hcur as (H0 & Hse & Hen).
    set (a := Z.to_nat (Qfloor (Range.start current))).
    set (b := Z.to_nat (Qfloor (Range.end_ current + 1))).
    assert (Hfa : 0 <= Qfloor (Range.start current))
      by (change 0 with (Qfloor 0); now apply Qfloor_resp_le).
    assert (Hab : Qfloor (Range.start current) + 1 <= Qfloor (Range.end_ current + 1))
      by (apply Qfloor_succ_le; lra).
    assert (Hbn : Qfloor (Range.end_ current + 1) <= Z.of_nat (List.length l)).
    { rewrite <- (Qfloor_Z (Z.of_nat (List.length l))). apply Qfloor_resp_le.
      unfold num in Hen. lra. }
    destruct (slice_decomposition l o a b) as [Hne Hdec];
      [subst a; lia|subst a b; lia|subst b; lia|].
    split; [exact Hne|]. exists (firstn (a - o) (skipn o l)), (skipn b l).
    split; [exact Hdec|exact I].
  - inversion Hrest as [|? ? Hr Hrest']; subst.
    inversion Hints as [|? ? Hri Hints']; subst.
    cbn [mergeFrom].
    destruct (Qle_bool (Range.start r) (Range.end_ current + 1)) eqn:E.
    + apply IH; [| |exact Hrest'|exact Hints'|exact Ho].
      * destruct Hcur as (H0 & Hse & Hen). destruct Hr as (_ & _ & Hre).
        destruct (Math_max_bounds (Range.end_ current) (Range.end_ r)
                    (Range.start current) (num (List.length l) - 1) Hse Hen Hre)
          as (Hlo & _ & Hhi).
        unfold InBounds. cbn [Range.start Range.end_]. auto.
      * destruct Hint as (a & b & Ha & Hb). destruct Hri as (_ & b' & _ & Hb').
        destruct (Math_choice (Range.end_ current) (Range.end_ r)
                    (fun q => exists z, (q == inject_Z z)%Q)
                    (ex_intro _ b Hb) (ex_intro _ b' Hb')) as [[z Hz] _].
        exists a, z. cbn [Range.start Range.end_]. now split.
    + assert (Hgap : (Range.end_ current + 1 < Range.start r)%Q).
      { apply Qnot_le_lt. intros Hle. apply Qle_bool_iff in Hle. congruence. }
      destruct Hcur as (H0 & Hse & Hen).
      set (a := Z.to_nat (Qfloor (Range.start current))).
      set (b := Z.to_nat (Qfloor (Range.end_ current + 1))).
      assert (Hfa : 0 <= Qfloor (Range.start current))
        by (change 0 with (Qfloor 0); now apply Qfloor_resp_le).
      assert (Hab : Qfloor (Range.start current) + 1 <= Qfloor (Range.end_ current + 1))
        by (apply Qfloor_succ_le; lra).
      assert (Hbn : Qfloor (Range.end_ current + 1) <= Z.of_nat (List.length l)).
      { rewrite <- (Qfloor_Z (Z.of_nat (List.length l))). apply Qfloor_resp_le.
        unfold num in Hen. lra. }
      destruct (slice_decomposition l o a b) as [Hne Hdec];
        [subst a; lia|subst a b; lia|subst b; lia|].
      assert (Hnext : Qfloor (Range.end_ current + 1) + 1 <= Qfloor (Range.start r)).
      { destruct Hint as (_ & e & _ & He). destruct Hri as (s & _ & Hs & _).
        assert (E1 : Qfloor (Range.end_ current + 1) = e + 1).
        { transitivity (Qfloor (inject_Z (e + 1))); [|apply Qfloor_Z].
          apply Qfloor_comp. rewrite inject_Z_plus, He. reflexivity. }
        assert (E2 : Qfloor (Range.start r) = s).
        { transitivity (Qfloor (inject_Z s)); [|apply Qfloor_Z].
          now apply Qfloor_comp. }
        rewrite E1, E2.
        assert (Hlt : (inject_Z (e + 1) < inject_Z s)%Q).
        { rewrite inject_Z_plus. change (inject_Z 1) with 1%Q.
          rewrite <- He, <- Hs. exact Hgap. }
        rewrite <- Zlt_Qlt in Hlt. lia. }
      assert (Hrn : Qfloor (Range.start r) < Z.of_nat (List.length l)).
      { destruct Hr as (_ & Hrse & Hren).
        assert (Hle : (Range.start r <= inject_Z (Z.of_nat (List.length l) - 1))%Q).
        { unfold num in Hren. unfold Z.sub.
          rewrite inject_Z_plus, inject_Z_opp. change (inject_Z 1) with 1%Q. lra. }
        apply Qfloor_resp_le in Hle. rewrite Qfloor_Z in Hle. lia. }
      destruct (skipn_next l b) as [x Hx]; [subst b; lia|].
      cbn [map]. set (tail := mergeFrom r rest).
      assert (Htail : Apart
                (map (fun r0 => Array_slice (Range.start r0) (Range.end_ r0 + 1) l) tail)
                (skipn (S b) l)).
      { apply IH; [exact Hr|exact Hri|exact Hrest'|exact Hints'|].
        subst b. rewrite Nat2Z.inj_succ, Z2Nat.id by lia. lia. }
      assert (Hcons : exists t ts, tail = t :: ts).
      { subst tail. apply mergeFrom_nonempty. }
      destruct Hcons as (t & ts & Et). rewrite Et in Htail |- *.
      cbn [map] in Htail |- *.
      split; [exact Hne|]. exists (firstn (a - o) (skipn o l)), (skipn b l).
      split; [exact Hdec|]. exists x, (skipn (S b) l). split; [exact Hx|exact Htail].
Qed.

Lemma Apart_length {A : Type} (pieces : list (list A)) :
  forall l, Apart pieces l ->
    (List.length (List.concat pieces) <= List.length l)%nat /\
    ((2 <= List.length pieces)%nat ->
     (List.length (List.concat pieces) < List.length l)%nat).
Proof.
  induction pieces as [|p ps IH]; intros l Hl; [cbn; split; lia|].
  cbn [Apart] in Hl. destruct Hl as (_ & gap & rest & -> & Hps).
  cbn [List.concat List.length]. rewrite !length_app.
  destruct ps as [|q qs].
  - cbn. split; lia.
  - destruct Hps as (dropped & rest' & -> & Hps).
    destruct (IH _ Hps) as [Hle _]. cbn [List.length]. split; lia.
Qed.

(** X27. When the reply's ranges are integer ranges, whatever they are
    (overlapping, out of bounds, in any order), two neighbouring segments
    of the content splitter's result always have at least one token of the
    block left out between them.  So the splitter never cuts a block
    without losing a token: a result that keeps every token is the block
    in one piece. *)
Theorem content_split_always_drops_tokens `{Runtime} `{Coercion}
  (segmentTokens : list Token.t) (blockIndex : nat) (conversationId : string)
  (response : string) (parsed : json) (items : list json)
  (ranges : list (Z * Z)) (pieces : list (list Token.t)) :
  parseObject response = Some parsed ->
  field parsed "segments" = Some (JArray items) ->
  ReadAs items ranges ->
  splitSegmentByContent segmentTokens blockIndex conversationId (Returns response)
  = Ok pieces ->
  Apart pieces segmentTokens /\
  (List.concat pieces = segmentTokens ->
   (List.length pieces <= 1)%nat).
Proof.
  intros Hparse Hfield Hread Hrun.
  assert (HA : Apart pieces segmentTokens).
  { revert Hrun. unfold splitSegmentByContent.
    assert (Hwhole : segmentTokens <> [] -> Apart [segmentTokens] segmentTokens).
    { intros Hne. split; [exact Hne|]. exists [], [].
      split; [now rewrite app_nil_r|exact I]. }
    destruct (Nat.eqb (List.length segmentTokens) 0) eqn:En.
    { intros E. injection E as <-. exact I. }
    assert (Hne : segmentTokens <> []) by (intros E; rewrite E in En; discriminate).
    assert (Hn : (0 < List.length segmentTokens)%nat)
      by (destruct segmentTokens; [now contradiction Hne|cbn; lia]).
    cbv zeta.
    destruct (Nat.ltb (List.length segmentTokens) 15
              || Nat.leb (enderRuns false
                            (JS.chars (JS.join " " (map Token.text segmentTokens)))) 2).
    { intros E. injection E as <-. auto. }
    assert (Hdone : Ok [segmentTokens] = Ok pieces -> Apart pieces segmentTokens)
      by (intros E; injection E as <-; auto).
    rewrite Hparse.
    assert (Hobj : parsed <> JNull) by (intros ->; discriminate).
    destruct parsed; try now contradiction Hobj.
    all: try discriminate.
    rewrite Hfield.
    destruct items as [|item0 items0]; [exact Hdone|].
    destruct (clampRanges (List.length segmentTokens) (item0 :: items0))
      as [clamped|e] eqn:Ec; [|discriminate].
    cbn [bind].
    pose proof (clampRanges_bounds _ _ Hn _ Ec) as Hb.
    pose proof (clampRanges_integral _ _ _ Hread _ Ec) as Hi.
    apply (Permutation_Forall (Permutation_sym (sortRanges_perm _))) in Hb.
    apply (Permutation_Forall (Permutation_sym (sortRanges_perm _))) in Hi.
    destruct (sortRanges (flat_map validRange clamped)) as [|v vs];
      [exact Hdone|].
    cbn [List.length Nat.eqb]. rewrite mergeRanges_mergeFrom.
    inversion Hb as [|? ? Hv Hvs]; subst.
    inversion Hi as [|? ? Hvi Hvsi]; subst.
    pose proof (merged_slices_apart segmentTokens vs v 0%nat Hv Hvi Hvs Hvsi) as Hs.
    cbn [skipn] in Hs.
    match goal with
    | |- (if ?c then _ else _) = _ -> _ => destruct c
    end; [exact Hdone|].
    intros E. injection E as <-. apply Hs.
    destruct Hv as (H0' & _). change (Z.of_nat 0) with (Qfloor 0).
    now apply Qfloor_resp_le. }
  split; [exact HA|].
  intros Hcat. destruct (Apart_length pieces segmentTokens HA) as [_ Hlt].
  rewrite Hcat in Hlt. lia.
Qed.

Lemma content_split_always_drops_tokens_witness :
  Apart [firstn 4 sixteenSentences; skipn 8 sixteenSentences] sixteenSentences.
Proof.
  exact (proj1 (@content_split_always_drops_tokens
                  (oneTextRuntime twoPartsText twoParts) noNumerals
                  sixteenSentences 0 "c" twoPartsText twoParts _
                  [(0, 3); (8, 15)]
                  [firstn 4 sixteenSentences; skipn 8 sixteenSentences]
                  ltac:(vm_compute; reflexivity) eq_refl
                  ltac:(repeat constructor)
                  ltac:(vm_compute; reflexivity))).
Defined.
